(** * Metro ticketing: station graph, route search, fares and the ticket
    lifecycle.

    Shallow embedding of [metro/models.py], [metro/views.py],
    [tickets/models.py], [tickets/forms.py], [tickets/views.py],
    [accounts/models.py], [accounts/forms.py], [accounts/views.py], and of
    the route search, the travel instructions, the fares and the purchases
    of the command-line system of [main.py].

    Conventions of the embedding.
    - A database table is the list of its rows in the order the database
      returns them, or a finite map when the code only reaches rows through
      a unique key.
    - Django compares and hashes model instances by primary key, so the
      dictionary, the set and the paths of the route search hold primary
      keys of [Station] rows.
    - [timezone.now()] is an integer number of seconds; one call of a model
      method reads the clock at one instant [now]. *)

From Stdlib Require Import ZArith Lia Ascii.
From stdpp Require Import base numbers list strings gmap sets sorting.

(** ** metro/models.py *)

Module MetroLine.
Record t := mk {
    pk : Z;
    name : string;
    is_active : bool;
    ticket_booking_enabled : bool
  }.
End MetroLine.

Module Station.
Record t := mk {
    pk : Z;
    name : string;
    code : string;
    line : Z;               (* foreign key: MetroLine.pk *)
    position : Z;
    is_interchange : bool;
    is_active : bool
  }.

(** [Model.__eq__]: two instances are equal when their primary keys are. *)
Definition eqb (a b : t) : bool := (pk a =? pk b)%Z.

(** [Station.objects.filter(line=.., position=.., is_active=True).first()] *)
Definition first_active_at (objects : list t) (l p : Z) : option t :=
    find (fun s => (line s =? l)%Z && (position s =? p)%Z && is_active s) objects.

Definition get_next_station (objects : list t) (self : t) : option t :=
    first_active_at objects (line self) (position self + 1)%Z.

Definition get_previous_station (objects : list t) (self : t) : option t :=
    first_active_at objects (line self) (position self - 1)%Z.
End Station.

Module StationConnection.
Inductive kind := normal | interchange.

#[global] Instance kind_eq_dec : EqDecision kind.
Proof. solve_decision. Defined.

Record t := mk {
    from_station : Z;       (* foreign key: Station.pk *)
    to_station : Z;         (* foreign key: Station.pk *)
    connection_type : kind
  }.
End StationConnection.

Module DailyFootfall.
(** One row per [(station, date)] ([unique_together]): the pair is the
    key of the table and identifies the row an instance is saved to. *)
Record t := mk {
    entry_count : Z;
    exit_count : Z
  }.

Definition total_footfall (self : t) : Z := (entry_count self + exit_count self)%Z.

Abbreviation table := (gmap (Z * Z) t).

Definition save (key : Z * Z) (self : t) (objects : table) : table :=
    <[key := self]> objects.

(** [DailyFootfall.objects.get_or_create(station=.., date=..)]: the row and
    the table, with a row of default counts inserted when none was there. *)
Definition get_or_create (objects : table) (key : Z * Z) : t * table :=
    match objects !! key with
    | Some row => (row, objects)
    | None => let row := mk 0 0 in (row, save key row objects)
    end.

Definition record_entry (key : Z * Z) (self : t) (objects : table) : table :=
    save key (mk (entry_count self + 1) (exit_count self)) objects.

Definition record_exit (key : Z * Z) (self : t) (objects : table) : table :=
    save key (mk (entry_count self) (exit_count self + 1)) objects.
End DailyFootfall.

(** The station data the route search reads. *)
Record Network := {
  lines : list MetroLine.t;
  stations : list Station.t;
  connections : list StationConnection.t
}.

(** ** metro/views.py *)

Module MetroViews.

(** What a call of [find_shortest_path] can do.  [OutOfFuel] belongs to the
    embedding only: the [while] loop is run for a bounded number of
    iterations, and [find_shortest_path_spec] shows the bound is never hit. *)
Inductive result :=
  | ReturnPath (path : list Z)
  | ReturnNone
  | RaiseIndexError
  | OutOfFuel.

(** The value of [adjacency[station]] when the body of the first [for] loop
    is done for [station]. *)
Definition add_interchange (acc : list Z) (connection : StationConnection.t) : list Z :=
    if bool_decide (StationConnection.to_station connection ∈ acc) then acc
    else acc ++ [StationConnection.to_station connection].

Definition interchange_connections (net : Network) (station : Station.t)
    : list StationConnection.t :=
    filter (fun c => StationConnection.from_station c = Station.pk station
                     ∧ StationConnection.connection_type c = StationConnection.interchange)
           (connections net).

Definition line_neighbors (net : Network) (station : Station.t) : list Z :=
    let next_station := Station.get_next_station (stations net) station in
    let prev_station := Station.get_previous_station (stations net) station in
    match next_station with Some n => [Station.pk n] | None => [] end
    ++ match prev_station with Some p => [Station.pk p] | None => [] end.

Definition station_neighbors (net : Network) (station : Station.t) : list Z :=
    fold_left add_interchange (interchange_connections net station)
              (line_neighbors net station).

Definition active_stations (net : Network) : list Station.t :=
    filter (fun s => Station.is_active s = true) (stations net).

Definition build_adjacency (net : Network) : gmap Z (list Z) :=
    fold_left (fun adjacency station =>
                 <[Station.pk station := station_neighbors net station]> adjacency)
              (active_stations net) ∅.

(** [adjacency.get(current, [])] *)
Definition neighbors_of (adjacency : gmap Z (list Z)) (current : Z) : list Z :=
    default [] (adjacency !! current).

(** One run of the [while queue:] loop, at most [fuel] iterations. *)
Fixpoint bfs_loop (fuel : nat) (adjacency : gmap Z (list Z)) (destination : Z)
           (queue : list (list Z)) (visited : gset Z) : result :=
    match fuel with
    | O => OutOfFuel
    | S fuel' =>
      match queue with
      | [] => ReturnNone
      | path :: queue' =>
        match last path with
        | None => RaiseIndexError
        | Some current =>
          if bool_decide (current = destination) then ReturnPath path
          else if bool_decide (current ∈ visited) then
            bfs_loop fuel' adjacency destination queue' visited
          else
            let visited' := visited ∪ {[current]} in
            let fresh := filter (fun neighbor => neighbor ∉ visited')
                                (neighbors_of adjacency current) in
            bfs_loop fuel' adjacency destination
                     (queue' ++ ((fun neighbor => path ++ [neighbor]) <$> fresh))
                     visited'
        end
      end
    end.

(** An iteration either pops a path of an already visited station or
    visits a new one, so this many iterations are enough. *)
Definition max_degree (adjacency : gmap Z (list Z)) : nat :=
    max_list (length <$> (snd <$> map_to_list adjacency)).

Definition bfs_fuel (adjacency : gmap Z (list Z)) : nat :=
    2 + size (dom adjacency) * S (max_degree adjacency).

Definition find_shortest_path (net : Network) (origin destination : Z) : result :=
    if bool_decide (origin = destination) then ReturnPath [origin]
    else
      let adjacency := build_adjacency net in
      bfs_loop (bfs_fuel adjacency) adjacency destination [[origin]] ∅.

(** [settings.TICKET_BASE_FARE] and [settings.TICKET_PER_STATION_FARE] are
    read from the Django settings module. *)
Section Fare.
Variables TICKET_BASE_FARE TICKET_PER_STATION_FARE : Z.

Definition calculate_fare (path : list Z) : Z :=
      if bool_decide (path = []) || bool_decide (length path < 2) then 0%Z
      else
        let stations_crossed := (Z.of_nat (length path) - 1)%Z in
        (TICKET_BASE_FARE + stations_crossed * TICKET_PER_STATION_FARE)%Z.
End Fare.

End MetroViews.

(** ** main.py: the command-line [MetroSystem] *)

Module MetroSystem.
Definition BASE_FARE : Z := 10.
Definition PER_STATION_FARE : Z := 5.

(** Station names are strings here. *)
Definition calculate_fare (path : list string) : Z :=
    if bool_decide (path = []) || bool_decide (length path < 2) then 0%Z
    else
      let stations_crossed := (Z.of_nat (length path) - 1)%Z in
      (BASE_FARE + stations_crossed * PER_STATION_FARE)%Z.
End MetroSystem.

(** ** tickets/models.py *)

Module TicketScan.
Inductive scan_type_t := entry | exit.

Record t := mk {
    ticket : Z;             (* foreign key: the scanned ticket *)
    station : Z;            (* foreign key: Station.pk *)
    scan_type : scan_type_t;
    scanned_by : Z;         (* foreign key: the operator *)
    scanned_at : Z;
    success : bool;
    message : string
  }.
End TicketScan.

Module Ticket.
Inductive status_t := active | in_use | used | expired.

#[global] Instance status_eq_dec : EqDecision status_t.
Proof. solve_decision. Defined.

(** The stored string of a status, as an f-string prints it. *)
Definition status_str (s : status_t) : string :=
    match s with
    | active => "active"
    | in_use => "in_use"
    | used => "used"
    | expired => "expired"
    end.

Record t := mk {
    ticket_id : Z;
    user : Z;
    origin : Station.t;
    destination : Station.t;
    price : Z;
    status : status_t;
    purchased_at : Z;
    entry_time : option Z;
    exit_time : option Z;
    path : list Z
  }.

Definition set_status (self : t) (s : status_t) : t :=
    mk (ticket_id self) (user self) (origin self) (destination self) (price self)
       s (purchased_at self) (entry_time self) (exit_time self) (path self).

Definition set_entry_time (self : t) (now : Z) : t :=
    mk (ticket_id self) (user self) (origin self) (destination self) (price self)
       (status self) (purchased_at self) (Some now) (exit_time self) (path self).

Definition set_exit_time (self : t) (now : Z) : t :=
    mk (ticket_id self) (user self) (origin self) (destination self) (price self)
       (status self) (purchased_at self) (entry_time self) (Some now) (path self).
End Ticket.

(** The tables the scan flow reads and writes.  Tickets are reached through
    their unique [ticket_id]; scans are appended in creation order. *)
Record Database := {
  Ticket_objects : gmap Z Ticket.t;
  DailyFootfall_objects : DailyFootfall.table;
  TicketScan_objects : list TicketScan.t
}.

Definition with_tickets (db : Database) (tickets : gmap Z Ticket.t) : Database :=
  {| Ticket_objects := tickets;
     DailyFootfall_objects := DailyFootfall_objects db;
     TicketScan_objects := TicketScan_objects db |}.

Definition with_footfall (db : Database) (footfall : DailyFootfall.table) : Database :=
  {| Ticket_objects := Ticket_objects db;
     DailyFootfall_objects := footfall;
     TicketScan_objects := TicketScan_objects db |}.

Definition with_scans (db : Database) (scans : list TicketScan.t) : Database :=
  {| Ticket_objects := Ticket_objects db;
     DailyFootfall_objects := DailyFootfall_objects db;
     TicketScan_objects := scans |}.

(** [timezone.now().date()] *)
Definition date_of (now : Z) : Z := (now `div` 86400)%Z.

Module TicketModel.
Import Ticket.

Section Lifecycle.
(** [settings.TICKET_EXPIRY_HOURS] *)
Variable TICKET_EXPIRY_HOURS : Z.

Definition is_expired (self : t) (now : Z) : bool :=
    let expiry_time := (purchased_at self + TICKET_EXPIRY_HOURS * 3600)%Z in
    (now >? expiry_time)%Z.

Definition save (self : t) (db : Database) : Database :=
    with_tickets db (<[ticket_id self := self]> (Ticket_objects db)).

(** Each method returns its Python result, the instance [self] as the call
    leaves it, and the database. *)
Definition check_and_update_expiry (self : t) (now : Z) (db : Database)
    : bool * t * Database :=
    if bool_decide (status self = active) && is_expired self now then
      let self := set_status self expired in
      (true, self, save self db)
    else (false, self, db).

Definition scan_entry (self : t) (station : Station.t) (now : Z) (db : Database)
    : (bool * string) * t * Database :=
    if bool_decide (status self ≠ active) then
      ((false, "Ticket is " +:+ status_str (status self)), self, db)
    else if is_expired self now then
      let self := set_status self expired in
      ((false, "Ticket has expired"), self, save self db)
    else if negb (Station.eqb station (origin self)) then
      ((false, "Invalid entry station. Ticket is from " +:+ Station.name (origin self)),
       self, db)
    else
      let self := set_entry_time (set_status self in_use) now in
      let db := save self db in
      let key := (Station.pk station, date_of now) in
      let '(footfall, objects) :=
        DailyFootfall.get_or_create (DailyFootfall_objects db) key in
      let db := with_footfall db (DailyFootfall.record_entry key footfall objects) in
      ((true, "Entry successful"), self, db).

Definition scan_exit (self : t) (station : Station.t) (now : Z) (db : Database)
    : (bool * string) * t * Database :=
    if bool_decide (status self ≠ in_use) then
      ((false, "Ticket is " +:+ status_str (status self)), self, db)
    else if negb (Station.eqb station (destination self)) then
      ((false, "Invalid exit station. Ticket is to " +:+ Station.name (destination self)),
       self, db)
    else
      let self := set_exit_time (set_status self used) now in
      let db := save self db in
      let key := (Station.pk station, date_of now) in
      let '(footfall, objects) :=
        DailyFootfall.get_or_create (DailyFootfall_objects db) key in
      let db := with_footfall db (DailyFootfall.record_exit key footfall objects) in
      ((true, "Exit successful"), self, db).

End Lifecycle.
End TicketModel.

(** ** tickets/views.py *)

Module TicketsViews.

(** The cleaned form data of one POST to [scan_ticket], with the operator
    and the instant of the request. *)
Record scan_request := {
  req_ticket_id : Z;
  req_station : Station.t;
  req_scan_type : TicketScan.scan_type_t;
  req_user : Z;
  req_now : Z
}.

(** Where a request stands inside [scan_ticket]: before
    [Ticket.objects.get], holding the fetched instance, holding the outcome
    of the model method, and finished. *)
Inductive progress :=
| Start
| Loaded (ticket : Ticket.t)
| Scanned (ticket : Ticket.t) (success : bool) (message : string)
| Finished (outcome : option (bool * string)).

Section Scan.
Variable TICKET_EXPIRY_HOURS : Z.

(** [ticket.scan_entry(station)] or [ticket.scan_exit(station)], by type. *)
Definition perform_scan (req : scan_request) (ticket : Ticket.t) (db : Database)
  : (bool * string) * Ticket.t * Database :=
  match req_scan_type req with
  | TicketScan.entry =>
    TicketModel.scan_entry TICKET_EXPIRY_HOURS ticket (req_station req) (req_now req) db
  | TicketScan.exit =>
    TicketModel.scan_exit ticket (req_station req) (req_now req) db
  end.

(** [TicketScan.objects.create(...)] *)
Definition record_scan (req : scan_request) (ticket : Ticket.t)
           (success : bool) (message : string) (db : Database) : Database :=
  let scan := TicketScan.mk (Ticket.ticket_id ticket) (Station.pk (req_station req))
                            (req_scan_type req) (req_user req) (req_now req)
                            success message in
  with_scans db (TicketScan_objects db ++ [scan]).

(** The POST branch of [scan_ticket] with a valid form: [None] stands for
    the redirect after 'Invalid ticket ID.', otherwise the flashed
    [(success, message)]. *)
Definition scan_ticket (req : scan_request) (db : Database)
  : option (bool * string) * Database :=
  match Ticket_objects db !! req_ticket_id req with
  | None => (None, db)
  | Some ticket =>
    let '(success, message, ticket, db) := perform_scan req ticket db in
    let db := record_scan req ticket success message db in
    (Some (success, message), db)
  end.

(** The same view cut at its three database accesses, for requests that
    overlap in time. *)
Definition scan_step (req : scan_request) (p : progress) (db : Database)
  : progress * Database :=
  match p with
  | Start =>
    match Ticket_objects db !! req_ticket_id req with
    | None => (Finished None, db)
    | Some ticket => (Loaded ticket, db)
    end
  | Loaded ticket =>
    let '(success, message, ticket, db) := perform_scan req ticket db in
    (Scanned ticket success message, db)
  | Scanned ticket success message =>
    (Finished (Some (success, message)), record_scan req ticket success message db)
  | Finished outcome => (Finished outcome, db)
  end.

(** Two requests served by two workers: [schedule] says whose step runs
    next ([false] the first request, [true] the second). *)
Fixpoint interleave (req1 req2 : scan_request) (schedule : list bool)
         (p1 p2 : progress) (db : Database) : progress * progress * Database :=
  match schedule with
  | [] => (p1, p2, db)
  | false :: schedule =>
    let '(p1, db) := scan_step req1 p1 db in interleave req1 req2 schedule p1 p2 db
  | true :: schedule =>
    let '(p2, db) := scan_step req2 p2 db in interleave req1 req2 schedule p1 p2 db
  end.

End Scan.
End TicketsViews.

(** ** Sequences of lifecycle calls on one ticket instance *)

Module Trace.
Import Ticket.

Inductive call :=
| ScanEntry (station : Station.t) (now : Z)
| ScanExit (station : Station.t) (now : Z)
| CheckExpiry (now : Z).

(** The moves of the status column the lifecycle allows. *)
Inductive lifecycle_step : status_t → status_t → Prop :=
| step_entry : lifecycle_step active in_use
| step_exit : lifecycle_step in_use used
| step_expire_active : lifecycle_step active expired
| step_expire_in_use : lifecycle_step in_use expired.

Section Run.
Variable TICKET_EXPIRY_HOURS : Z.

Definition apply_call (s : t * Database) (c : call) : t * Database :=
  match c with
  | ScanEntry station now =>
    let '(_, self, db) := TicketModel.scan_entry TICKET_EXPIRY_HOURS s.1 station now s.2 in
    (self, db)
  | ScanExit station now =>
    let '(_, self, db) := TicketModel.scan_exit s.1 station now s.2 in
    (self, db)
  | CheckExpiry now =>
    let '(_, self, db) :=
      TicketModel.check_and_update_expiry TICKET_EXPIRY_HOURS s.1 now s.2 in
    (self, db)
  end.

Definition run (calls : list call) (s : t * Database) : t * Database :=
  fold_left apply_call calls s.

Definition status_after (calls : list call) (s : t * Database) : status_t :=
  status (run calls s).1.

End Run.
End Trace.

(** ** Sample data *)

Module Examples.

Definition station_a : Station.t := Station.mk 1 "A" "A" 1 0 false true.
Definition station_b : Station.t := Station.mk 2 "B" "B" 1 1 false true.
Definition station_c : Station.t := Station.mk 3 "C" "C" 1 2 false true.

(** A(0) - B(1) - C(2) on one line, no interchange. *)
Definition line_abc : Network :=
  {| lines := [MetroLine.mk 1 "L" true true];
     stations := [station_a; station_b; station_c];
     connections := [] |}.

(** A ticket from A to C bought at instant 0. *)
Definition ticket_ac (s : Ticket.status_t) : Ticket.t :=
  Ticket.mk 7 1 station_a station_c 20 s 0 None None [1; 2; 3]%Z.

Definition db_of (ticket : Ticket.t) : Database :=
  {| Ticket_objects := {[ Ticket.ticket_id ticket := ticket ]};
     DailyFootfall_objects := ∅;
     TicketScan_objects := [] |}.

Definition two_hours : Z := 2.

(** An entry scan at B, one second after that ticket expired. *)
Definition late_entry_at_b : TicketsViews.scan_request :=
  {| TicketsViews.req_ticket_id := 7;
     TicketsViews.req_station := station_b;
     TicketsViews.req_scan_type := TicketScan.entry;
     TicketsViews.req_user := 100;
     TicketsViews.req_now := 7201 |}.

(** An entry scan at A while the ticket is valid. *)
Definition entry_at_a : TicketsViews.scan_request :=
  {| TicketsViews.req_ticket_id := 7;
     TicketsViews.req_station := station_a;
     TicketsViews.req_scan_type := TicketScan.entry;
     TicketsViews.req_user := 100;
     TicketsViews.req_now := 10 |}.

(** An entry scan at B while the ticket is valid. *)
Definition early_entry_at_b : TicketsViews.scan_request :=
  {| TicketsViews.req_ticket_id := 7;
     TicketsViews.req_station := station_b;
     TicketsViews.req_scan_type := TicketScan.entry;
     TicketsViews.req_user := 100;
     TicketsViews.req_now := 60 |}.

(** Two lines joined at stations 2 and 4; the second line is out of
    service while its stations are open; station 8, past the end of the
    first line, is closed and still the target of an interchange
    connection from station 3. *)
Definition city : Network :=
  {| lines := [MetroLine.mk 1 "Red" true true; MetroLine.mk 2 "Blue" false true];
     stations :=
       [Station.mk 1 "R0" "R0" 1 0 false true;
        Station.mk 2 "R1" "R1" 1 1 true true;
        Station.mk 3 "R2" "R2" 1 2 false true;
        Station.mk 8 "R3" "R3" 1 3 false false;
        Station.mk 4 "B0" "B0" 2 0 true true;
        Station.mk 5 "B1" "B1" 2 1 false true;
        Station.mk 6 "B2" "B2" 2 2 false true];
     connections :=
       [StationConnection.mk 2 4 StationConnection.interchange;
        StationConnection.mk 4 2 StationConnection.interchange;
        StationConnection.mk 3 8 StationConnection.interchange] |}.

(** Two lines, 1 - 2 and 3 - 4, with interchanges 1 → 3 and 2 → 4: two
    routes of two hops lead from 1 to 4. *)
Definition diamond : Network :=
  {| lines := [MetroLine.mk 1 "Red" true true; MetroLine.mk 2 "Blue" true true];
     stations :=
       [Station.mk 1 "R0" "R0" 1 0 true true;
        Station.mk 2 "R1" "R1" 1 1 true true;
        Station.mk 3 "B0" "B0" 2 0 true true;
        Station.mk 4 "B1" "B1" 2 1 true true];
     connections :=
       [StationConnection.mk 1 3 StationConnection.interchange;
        StationConnection.mk 2 4 StationConnection.interchange] |}.

(** Two exit scans at C of the same ticket, by two operators. *)
Definition exit_at_c (operator now : Z) : TicketsViews.scan_request :=
  {| TicketsViews.req_ticket_id := 7;
     TicketsViews.req_station := station_c;
     TicketsViews.req_scan_type := TicketScan.exit;
     TicketsViews.req_user := operator;
     TicketsViews.req_now := now |}.

End Examples.

(** ** Vocabulary of the statements *)

Module Guards.
Import TicketsViews.

(** A scan whose own guard turns it down: a status other than the one the
    scan needs, or the wrong station; for an entry scan the station is
    looked at only on a ticket that is not past its expiry. *)
Definition guard_fails (H : Z) (req : scan_request) (ticket : Ticket.t) : Prop :=
  match req_scan_type req with
  | TicketScan.entry =>
    Ticket.status ticket ≠ Ticket.active
    ∨ (TicketModel.is_expired H ticket (req_now req) = false
       ∧ Station.eqb (req_station req) (Ticket.origin ticket) = false)
  | TicketScan.exit =>
    Ticket.status ticket ≠ Ticket.in_use
    ∨ Station.eqb (req_station req) (Ticket.destination ticket) = false
  end.

(** The schedules of two requests in which the first has run its scan
    before the second fetches the ticket. *)
Definition write_before_read : list (list bool) :=
  [[false; false; false; true; true; true];
   [false; false; true; false; true; true];
   [false; false; true; true; false; true];
   [false; false; true; true; true; false]].

(** The audit row [scan_ticket] writes for a request. *)
Definition audit_row (req : scan_request) (success : bool) (message : string)
  : TicketScan.t :=
  TicketScan.mk (req_ticket_id req) (Station.pk (req_station req))
                (req_scan_type req) (req_user req) (req_now req) success message.

End Guards.

(** Walks in the station graph. *)
Module Routes.

(** A non-empty list of stations, each joined to the next by an edge. *)
Fixpoint is_walk (edge : Z → Z → Prop) (w : list Z) : Prop :=
  match w with
  | [] => False
  | x :: w' =>
    match w' with
    | [] => True
    | y :: _ => edge x y ∧ is_walk edge w'
    end
  end.

Record route (edge : Z → Z → Prop) (origin destination : Z) (w : list Z) : Prop := {
  route_walk : is_walk edge w;
  route_head : head w = Some origin;
  route_last : last w = Some destination
}.

Definition hops (w : list Z) : nat := length w - 1.

(** The edges of the dictionary [adjacency]. *)
Definition in_graph (adjacency : gmap Z (list Z)) (u v : Z) : Prop :=
  v ∈ MetroViews.neighbors_of adjacency u.

(** The adjacency rules, read off the station data: from an active station
    to the active station one position up or down its line, and along an
    interchange connection that starts at it. *)
Inductive adjacent (net : Network) (u v : Z) : Prop :=
| adjacent_next station n :
    station ∈ stations net → Station.is_active station = true →
    Station.pk station = u →
    Station.get_next_station (stations net) station = Some n →
    Station.pk n = v → adjacent net u v
| adjacent_previous station p :
    station ∈ stations net → Station.is_active station = true →
    Station.pk station = u →
    Station.get_previous_station (stations net) station = Some p →
    Station.pk p = v → adjacent net u v
| adjacent_interchange station connection :
    station ∈ stations net → Station.is_active station = true →
    Station.pk station = u →
    connection ∈ connections net →
    StationConnection.from_station connection = u →
    StationConnection.connection_type connection = StationConnection.interchange →
    StationConnection.to_station connection = v → adjacent net u v.

(** [k] is the primary key of an active station row. *)
Definition active_station (net : Network) (k : Z) : Prop :=
  ∃ station, station ∈ stations net ∧ Station.pk station = k
             ∧ Station.is_active station = true.

(** [k] is the primary key of a station row whose line is out of service. *)
Definition on_inactive_line (net : Network) (k : Z) : Prop :=
  ∃ station l, station ∈ stations net ∧ Station.pk station = k
               ∧ l ∈ lines net ∧ MetroLine.pk l = Station.line station
               ∧ MetroLine.is_active l = false.

(** What the loop has still to do: the queued paths, and for every station
    of the dictionary not yet visited the paths its visit can add. *)
Definition work_left (adjacency : gmap Z (list Z)) (queue : list (list Z))
           (visited : gset Z) : nat :=
  length queue + size (dom adjacency ∖ visited) * S (MetroViews.max_degree adjacency).

(** The invariant of the [while] loop of [find_shortest_path]: queued paths
    are walks from the origin; the queue holds paths of one length followed
    by paths one station longer; and every walk from the origin to the
    destination leaves the visited set through the end of a queued path
    that is no longer than the walk up to there. *)
Record bfs_inv (adjacency : gmap Z (list Z)) (origin destination : Z)
       (queue : list (list Z)) (visited : gset Z) : Prop := {
  inv_walks : ∀ q, q ∈ queue →
      is_walk (in_graph adjacency) q ∧ head q = Some origin;
  inv_levels : ∃ k short long,
      queue = short ++ long
      ∧ Forall (λ q, length q = k) short
      ∧ Forall (λ q, length q = S k) long;
  inv_frontier : ∀ w, route (in_graph adjacency) origin destination w →
      ∃ pre suf q x,
        w = pre ++ suf ∧ q ∈ queue ∧ head suf = Some x ∧ last q = Some x
        ∧ length q ≤ S (length pre)
        ∧ Forall (λ y, y ∉ visited) suf
}.

End Routes.

(** ** Outcomes of lifecycle calls *)

Module Journal.
Import Ticket Trace.

Section Granted.
Variable TICKET_EXPIRY_HOURS : Z.

(** Whether the call is a scan of the given type that returns [True]. *)
Definition granted (kind : TicketScan.scan_type_t) (s : t * Database) (c : call)
  : bool :=
  match kind, c with
  | TicketScan.entry, ScanEntry station now =>
    (TicketModel.scan_entry TICKET_EXPIRY_HOURS s.1 station now s.2).1.1.1
  | TicketScan.exit, ScanExit station now =>
    (TicketModel.scan_exit s.1 station now s.2).1.1.1
  | _, _ => false
  end.

(** How many scans of the given type return [True] along a sequence of
    calls on one ticket instance. *)
Fixpoint count_granted (kind : TicketScan.scan_type_t) (calls : list call)
         (s : t * Database) : nat :=
  match calls with
  | [] => 0
  | c :: calls =>
    (if granted kind s c then 1 else 0)
    + count_granted kind calls (apply_call TICKET_EXPIRY_HOURS s c)
  end.

End Granted.

(** A footfall row is kept, with counters at least as large. *)
Definition footfall_le (before after : option DailyFootfall.t) : Prop :=
  match before with
  | None => True
  | Some row =>
    ∃ row', after = Some row'
            ∧ (DailyFootfall.entry_count row ≤ DailyFootfall.entry_count row')%Z
            ∧ (DailyFootfall.exit_count row ≤ DailyFootfall.exit_count row')%Z
  end.

End Journal.

(** ** accounts/models.py *)

(** Money is a [Decimal] with two decimal places or an [int]; sums,
    differences and comparisons of such values are exact, so an amount is
    the integer number of its hundredths. *)
Module User.
Inductive user_type_t := passenger | scanner | admin.

#[global] Instance user_type_eq_dec : EqDecision user_type_t.
Proof. solve_decision. Defined.

Record t := mk {
    pk : Z;
    username : string;
    user_type : user_type_t;
    balance : Z
  }.

Definition is_passenger (self : t) : bool := bool_decide (user_type self = passenger).
Definition is_scanner (self : t) : bool := bool_decide (user_type self = scanner).
Definition is_metro_admin (self : t) : bool := bool_decide (user_type self = admin).

Abbreviation table := (gmap Z t).

Definition set_balance (self : t) (b : Z) : t :=
    mk (pk self) (username self) (user_type self) b.

Definition save (self : t) (objects : table) : table := <[pk self := self]> objects.

(** Each method returns its Python result, the instance as the call leaves
    it, and the table. *)
Definition add_balance (self : t) (amount : Z) (objects : table) : Z * t * table :=
    let self := set_balance self (balance self + amount) in
    (balance self, self, save self objects).

Definition deduct_balance (self : t) (amount : Z) (objects : table)
    : bool * t * table :=
    if bool_decide (amount ≤ balance self)%Z then
      let self := set_balance self (balance self - amount) in
      (true, self, save self objects)
    else (false, self, objects).
End User.

(** The tables of the site: the accounts beside the ticket tables. *)
Record Site := {
  User_objects : User.table;
  site_db : Database
}.

(** ** accounts/views.py and accounts/forms.py *)

Module AccountsViews.

(** [AddBalanceForm]: [min_value=10], [max_value=10000]. *)
Definition AddBalanceForm_is_valid (amount : Z) : bool :=
  bool_decide (1000 ≤ amount)%Z && bool_decide (amount ≤ 1000000)%Z.

(** The POST branch of [add_balance_view]: whether the amount was added,
    the user of the request, and the accounts. *)
Definition add_balance_view (amount : Z) (user : User.t) (objects : User.table)
  : bool * User.t * User.table :=
  if AddBalanceForm_is_valid amount then
    let '(_, user, objects) := User.add_balance user amount objects in
    (true, user, objects)
  else (false, user, objects).

End AccountsViews.

(** ** metro/models.py and metro/views.py: line service *)

Module LineService.

Definition set_is_active (line : MetroLine.t) (b : bool) : MetroLine.t :=
  MetroLine.mk (MetroLine.pk line) (MetroLine.name line) b
               (MetroLine.ticket_booking_enabled line).


(** [self.save()]: the row of the table with the primary key of [self] is
    replaced by [self]. *)
Definition save (self : MetroLine.t) (objects : list MetroLine.t) : list MetroLine.t :=
  (λ row, if bool_decide (MetroLine.pk row = MetroLine.pk self) then self else row)
    <$> objects.

Definition start_service (self : MetroLine.t) (objects : list MetroLine.t)
  : list MetroLine.t := save (set_is_active self true) objects.

Definition end_service (self : MetroLine.t) (objects : list MetroLine.t)
  : list MetroLine.t := save (set_is_active self false) objects.



(** [get_object_or_404(MetroLine, id=line_id)] *)
Definition get_line (objects : list MetroLine.t) (line_id : Z) : option MetroLine.t :=
  find (λ row, bool_decide (MetroLine.pk row = line_id)) objects.

Definition with_lines (net : Network) (objects : list MetroLine.t) : Network :=
  {| lines := objects; stations := stations net; connections := connections net |}.

(** The two toggle views: [None] is the 404 response, otherwise the flashed
    message. *)
Definition toggle_line_service (line_id : Z) (net : Network)
  : option string * Network :=
  match get_line (lines net) line_id with
  | None => (None, net)
  | Some line =>
    if MetroLine.is_active line then
      (Some (MetroLine.name line +:+ " Line service ended."),
       with_lines net (end_service line (lines net)))
    else
      (Some (MetroLine.name line +:+ " Line service started."),
       with_lines net (start_service line (lines net)))
  end.


End LineService.

(** ** tickets/forms.py and tickets/views.py: buying tickets *)

Module TicketSales.

(** A [ModelChoiceField] over [Station.objects.filter(is_active=True)]:
    the submitted primary key is cleaned to the row of the queryset that
    has it. *)
Definition clean_station (net : Network) (k : Z) : option Station.t :=
  find (λ s, bool_decide (Station.pk s = k) && Station.is_active s) (stations net).

(** [TicketPurchaseForm] and [OfflineTicketForm]: both stations are active
    rows, and [clean] rejects equal ones. *)
Definition clean_journey (net : Network) (origin destination : Z)
  : option (Station.t * Station.t) :=
  match clean_station net origin, clean_station net destination with
  | Some o, Some d => if Station.eqb o d then None else Some (o, d)
  | _, _ => None
  end.

(** [origin.line]: the row the foreign key points to. *)
Definition line_of (net : Network) (station : Station.t) : option MetroLine.t :=
  LineService.get_line (lines net) (Station.line station).

(** The submitted stations, the [uuid4] drawn for the new ticket and the
    instant of the request. *)
Record purchase_request := {
  pur_origin : Z;
  pur_destination : Z;
  pur_ticket_id : Z;
  pur_now : Z
}.

Inductive outcome :=
| FormInvalid
| LineUnavailable
| NoRoute
| InsufficientBalance
| Purchased (ticket : Ticket.t)
| RaiseDoesNotExist
| RaiseIntegrityError
| SearchRaised.

(** [Ticket.objects.create(...)]: the [unique] constraint of [ticket_id]
    refuses an identifier that is taken. *)
Definition create_ticket (ticket : Ticket.t) (db : Database) : option Database :=
  match Ticket_objects db !! Ticket.ticket_id ticket with
  | Some _ => None
  | None => Some (with_tickets db (<[Ticket.ticket_id ticket := ticket]> (Ticket_objects db)))
  end.

Section Sales.
Variables TICKET_BASE_FARE TICKET_PER_STATION_FARE : Z.

(** The POST branch of [purchase_ticket]. *)
Definition purchase_ticket (net : Network) (req : purchase_request)
           (user : User.t) (site : Site) : outcome * User.t * Site :=
  match clean_journey net (pur_origin req) (pur_destination req) with
  | None => (FormInvalid, user, site)
  | Some (origin, destination) =>
    match line_of net origin with
    | None => (RaiseDoesNotExist, user, site)
    | Some line =>
      if negb (MetroLine.is_active line) || negb (MetroLine.ticket_booking_enabled line)
      then (LineUnavailable, user, site)
      else
        match MetroViews.find_shortest_path net (Station.pk origin)
                                            (Station.pk destination) with
        | MetroViews.ReturnNone | MetroViews.ReturnPath [] => (NoRoute, user, site)
        | MetroViews.RaiseIndexError | MetroViews.OutOfFuel => (SearchRaised, user, site)
        | MetroViews.ReturnPath path =>
          let fare := MetroViews.calculate_fare TICKET_BASE_FARE
                                                TICKET_PER_STATION_FARE path in
          if bool_decide (User.balance user < fare)%Z
          then (InsufficientBalance, user, site)
          else
            let ticket := Ticket.mk (pur_ticket_id req) (User.pk user) origin destination
                                    fare Ticket.active (pur_now req) None None path in
            match create_ticket ticket (site_db site) with
            | None => (RaiseIntegrityError, user, site)
            | Some db =>
              let '(_, user, accounts) :=
                User.deduct_balance user fare (User_objects site) in
              (Purchased ticket, user, {| User_objects := accounts; site_db := db |})
            end
        end
    end
  end.

(** The submitted stations, the user row [get_or_create] returns for the
    passenger, the operator, the [uuid4] drawn for the new ticket and the
    instant of the request. *)
Record offline_request := {
  off_origin : Z;
  off_destination : Z;
  off_user : Z;
  off_operator : Z;
  off_ticket_id : Z;
  off_now : Z
}.

(** The POST branch of [create_offline_ticket], from the search of the
    path on. *)
Definition create_offline_ticket (net : Network) (req : offline_request)
           (db : Database) : outcome * Database :=
  match clean_journey net (off_origin req) (off_destination req) with
  | None => (FormInvalid, db)
  | Some (origin, destination) =>
    match MetroViews.find_shortest_path net (Station.pk origin)
                                        (Station.pk destination) with
    | MetroViews.ReturnNone | MetroViews.ReturnPath [] => (NoRoute, db)
    | MetroViews.RaiseIndexError | MetroViews.OutOfFuel => (SearchRaised, db)
    | MetroViews.ReturnPath path =>
      let fare := MetroViews.calculate_fare TICKET_BASE_FARE
                                            TICKET_PER_STATION_FARE path in
      let ticket := Ticket.mk (off_ticket_id req) (off_user req) origin destination
                              fare Ticket.used (off_now req) None None path in
      match create_ticket ticket db with
      | None => (RaiseIntegrityError, db)
      | Some db =>
        let entry_scan :=
          TicketScan.mk (off_ticket_id req) (Station.pk origin) TicketScan.entry
                        (off_operator req) (off_now req) true
                        "Offline ticket - Entry recorded" in
        let exit_scan :=
          TicketScan.mk (off_ticket_id req) (Station.pk destination) TicketScan.exit
                        (off_operator req) (off_now req) true
                        "Offline ticket - Exit recorded" in
        (Purchased ticket,
         with_scans db (TicketScan_objects db ++ [entry_scan; exit_scan]))
      end
    end
  end.

End Sales.

(** [Meta.ordering = ['-purchased_at']]: the rows of a [Ticket] queryset
    come newest first; among rows bought at the same instant the order is
    the database's, here that of the identifiers. *)
Definition newest_first (a b : Ticket.t) : Prop :=
  (Ticket.purchased_at b ≤ Ticket.purchased_at a)%Z.

#[global] Instance newest_first_dec (a b : Ticket.t) : Decision (newest_first a b).
Proof. unfold newest_first. apply _. Defined.

(** [Ticket.objects.filter(...)] *)
Definition tickets_where (P : Ticket.t → Prop) `{∀ x, Decision (P x)}
           (db : Database) : list Ticket.t :=
  merge_sort newest_first (filter P (snd <$> map_to_list (Ticket_objects db))).

Section Sweep.
Variable TICKET_EXPIRY_HOURS : Z.

(** An active ticket of the user that is past its expiry. *)
Definition due (user : Z) (now : Z) (ticket : Ticket.t) : bool :=
  bool_decide (Ticket.user ticket = user)
  && bool_decide (Ticket.status ticket = Ticket.active)
  && TicketModel.is_expired TICKET_EXPIRY_HOURS ticket now.

(** The row of a ticket once [my_tickets] has run for the user. *)
Definition brought_up_to_date (user : Z) (now : Z) (ticket : Ticket.t) : Ticket.t :=
  if due user now ticket then Ticket.set_status ticket Ticket.expired else ticket.

(** [my_tickets]: the expiry of the active tickets of the user is brought
    up to date, then all tickets of the user are listed. *)
Definition my_tickets (user : Z) (now : Z) (db : Database)
  : list Ticket.t * Database :=
  let active_tickets :=
    tickets_where (λ ticket, Ticket.user ticket = user
                             ∧ Ticket.status ticket = Ticket.active) db in
  let db :=
    fold_left
      (λ db ticket,
         (TicketModel.check_and_update_expiry TICKET_EXPIRY_HOURS ticket now db).2)
      active_tickets db in
  (tickets_where (λ ticket, Ticket.user ticket = user) db, db).

End Sweep.

End TicketSales.

(** ** Sample accounts *)

Module Samples.

(** A passenger with Rs. 50.00. *)
Definition alice : User.t := User.mk 1 "alice" User.passenger 5000.

Definition site_of (user : User.t) : Site :=
  {| User_objects := {[ User.pk user := user ]};
     site_db := {| Ticket_objects := ∅;
                   DailyFootfall_objects := ∅;
                   TicketScan_objects := [] |} |}.

(** A ticket from A to C on [Examples.line_abc], asked for at instant 5. *)
Definition a_to_c : TicketSales.purchase_request :=
  {| TicketSales.pur_origin := 1;
     TicketSales.pur_destination := 3;
     TicketSales.pur_ticket_id := 7;
     TicketSales.pur_now := 5 |}.

(** The same journey sold at the counter by operator 100 to passenger 9. *)
Definition a_to_c_offline : TicketSales.offline_request :=
  {| TicketSales.off_origin := 1;
     TicketSales.off_destination := 3;
     TicketSales.off_user := 9;
     TicketSales.off_operator := 100;
     TicketSales.off_ticket_id := 7;
     TicketSales.off_now := 5 |}.

(** Fares of Rs. 10.00 and Rs. 5.00, in hundredths. *)
Definition base_fare : Z := 1000.
Definition per_station_fare : Z := 500.

End Samples.

(** ** Sequences of requests of one user *)

Module Wallet.

Inductive request :=
| TopUp (amount : Z)
| Buy (net : Network) (req : TicketSales.purchase_request).

Section Serve.
Variables TICKET_BASE_FARE TICKET_PER_STATION_FARE : Z.

Definition serve (s : User.t * Site) (r : request) : User.t * Site :=
  match r with
  | TopUp amount =>
    let '(_, user, accounts) :=
      AccountsViews.add_balance_view amount s.1 (User_objects s.2) in
    (user, {| User_objects := accounts; site_db := site_db s.2 |})
  | Buy net req =>
    let '(_, user, site) :=
      TicketSales.purchase_ticket TICKET_BASE_FARE TICKET_PER_STATION_FARE
                                  net req s.1 s.2 in
    (user, site)
  end.



Definition run (requests : list request) (s : User.t * Site) : User.t * Site :=
  fold_left serve requests s.

End Serve.
End Wallet.

(** ** main.py: the command-line metro system *)

Module Main.

Module Station.
(** [connections] is a dictionary from the name of a neighbour to the line
    that leads there, kept as the list of its items in insertion order. *)
Record t := mk {
    name : string;
    lines : list string;
    connections : list (string * string)
  }.

Definition is_interchange (self : t) : bool := bool_decide (1 < length (lines self)).

(** Iterating over the dictionary yields its keys. *)
Definition neighbors (self : t) : list string := (connections self).*1.

(** [connections.get(name)] *)
Definition connection_line (self : t) (to : string) : option string :=
  snd <$> find (λ item, bool_decide (item.1 = to)) (connections self).
End Station.

(** What a call of [find_shortest_path] can do.  [OutOfFuel] belongs to the
    embedding only, as for the search of [metro/views.py]. *)
Inductive result :=
| ReturnPath (path : list string)
| ReturnNone
| RaiseKeyError
| RaiseUnboundLocalError
| RaiseIndexError
| OutOfFuel.

(** The [for neighbor in ...] loop: [new_path] is assigned only for a
    neighbour that is not visited, and is appended for every neighbour;
    [None] stands for the [UnboundLocalError] of appending it unassigned. *)
Fixpoint extend_queue (path : list string) (visited : gset string)
         (neighbors : list string) (queue : list (list string))
         (new_path : option (list string))
  : option (list (list string) * option (list string)) :=
  match neighbors with
  | [] => Some (queue, new_path)
  | neighbor :: neighbors =>
    let new_path :=
      if bool_decide (neighbor ∉ visited) then Some (path ++ [neighbor])
      else new_path in
    match new_path with
    | None => None
    | Some p => extend_queue path visited neighbors (queue ++ [p]) (Some p)
    end
  end.

(** One run of the [while queue:] loop, at most [fuel] iterations. *)
Fixpoint bfs_loop (fuel : nat) (stations : gmap string Station.t)
         (destination : string) (queue : list (list string))
         (visited : gset string) (new_path : option (list string)) : result :=
  match fuel with
  | O => OutOfFuel
  | S fuel' =>
    match queue with
    | [] => ReturnNone
    | path :: queue' =>
      match last path with
      | None => RaiseIndexError
      | Some current_station =>
        if bool_decide (current_station = destination) then ReturnPath path
        else if bool_decide (current_station ∈ visited) then
          bfs_loop fuel' stations destination queue' visited new_path
        else
          let visited' := visited ∪ {[current_station]} in
          match stations !! current_station with
          | None => RaiseKeyError
          | Some station =>
            match extend_queue path visited' (Station.neighbors station)
                               queue' new_path with
            | None => RaiseUnboundLocalError
            | Some (queue'', new_path') =>
              bfs_loop fuel' stations destination queue'' visited' new_path'
            end
          end
      end
    end
  end.

Definition max_degree (stations : gmap string Station.t) : nat :=
  max_list ((λ item, length (Station.neighbors item.2)) <$> map_to_list stations).

Definition bfs_fuel (stations : gmap string Station.t) : nat :=
  2 + size (dom stations) * S (max_degree stations).

Definition find_shortest_path (stations : gmap string Station.t)
           (origin destination : string) : result :=
  if bool_decide (origin ∉ dom stations ∨ destination ∉ dom stations) then ReturnNone
  else if bool_decide (origin = destination) then ReturnPath [origin]
  else bfs_loop (bfs_fuel stations) stations destination [[origin]] ∅ None.

(** *** Travel instructions *)

(** How an f-string shows a line that may be [None]. *)
Definition show_line (line : option string) : string := default "None" line.

(** The [for i in range(len(path) - 1)] loop over the hops of the path
    that are left; [first] is [path[0]].  [None] stands for the [KeyError]
    of [self.stations[path[i]]]. *)
Fixpoint travel_loop (stations : gmap string Station.t) (first : string)
         (path : list string) (current_line : option string)
         (boarding_station : string) (instructions : list string)
  : option (list string * option string * string) :=
  match path with
  | [] => Some (instructions, current_line, boarding_station)
  | from :: rest =>
    match rest with
    | [] => Some (instructions, current_line, boarding_station)
    | to_station_name :: _ =>
      match stations !! from with
      | None => None
      | Some from_station =>
        let line := Station.connection_line from_station to_station_name in
        if bool_decide (line ≠ current_line) then
          match current_line with
          | Some _ =>
            travel_loop stations first rest line from
              (instructions
                 ++ ["Get off at " +:+ from;
                     "Change to " +:+ show_line line +:+ " Line at " +:+ from])
          | None =>
            travel_loop stations first rest line boarding_station
              (instructions
                 ++ ["Board " +:+ show_line line +:+ " Line at " +:+ first])
          end
        else travel_loop stations first rest current_line boarding_station instructions
      end
    end
  end.

(** [None] stands for a [KeyError]. *)
Definition generate_travel_instructions (stations : gmap string Station.t)
           (path : list string) : option (list string) :=
  if bool_decide (path = []) || bool_decide (length path < 2) then Some []
  else
    match head path, last path with
    | Some first, Some final =>
      match travel_loop stations first path None first [] with
      | None => None
      | Some (instructions, current_line, boarding_station) =>
        Some (instructions
                ++ ["Travel on " +:+ show_line current_line +:+ " Line from "
                      +:+ boarding_station +:+ " to " +:+ final;
                    "Get off at " +:+ final +:+ " (Destination)"])
      end
    | _, _ => Some []
    end.

(** *** Tickets, users and the files they are saved to *)

Module Ticket.
Record t := mk {
    ticket_id : string;
    user_name : string;
    origin : string;
    destination : string;
    price : Z;
    path : list string;
    instructions : list string
  }.
End Ticket.

Module User.
Record t := mk {
    name : string;
    tickets : list string
  }.

Definition append_ticket (self : t) (ticket_id : string) : t :=
  mk (name self) (tickets self ++ [ticket_id]).
End User.

(** [sep.join(items)] *)
Fixpoint join (sep : string) (items : list string) : string :=
  match items with
  | [] => ""
  | item :: items' =>
    match items' with
    | [] => item
    | _ :: _ => item +:+ sep +:+ join sep items'
    end
  end.

(** [s.split(sep)] for a separator of one character. *)
Fixpoint split (sep : Ascii.ascii) (s : string) : list string :=
  match s with
  | EmptyString => [""]
  | String c s' =>
    if bool_decide (c = sep) then "" :: split sep s'
    else
      match split sep s' with
      | piece :: pieces => String c piece :: pieces
      | [] => [String c ""]
      end
  end.

(** The dictionary that [save_ticket] hands to [writer.writerow], field by
    field: the identifiers and the station names as they are, the price as
    the number [ticket.price], the path and the instructions joined to one
    text each.  The text that the csv writer makes of the dictionary, and
    what a reader makes of that text, are not modelled. *)
Record ticket_row := mk_row {
    row_ticket_id : string;
    row_user_name : string;
    row_origin : string;
    row_destination : string;
    row_price : Z;
    row_path : string;
    row_instructions : string
  }.

(** The dictionary that [save_ticket] builds of a ticket. *)
Definition row_of_ticket (ticket : Ticket.t) : ticket_row :=
  mk_row (Ticket.ticket_id ticket) (Ticket.user_name ticket)
         (Ticket.origin ticket) (Ticket.destination ticket)
         (Ticket.price ticket)
         (join ";" (Ticket.path ticket))
         (join "|" (Ticket.instructions ticket)).

(** [row[field].split(sep) if row.get(field) else []], by which
    [load_tickets] reads the path and the instructions: [field] is the
    value of [row.get(field)], the text of the field as the csv reader
    gives it, or [None] when the row is too short to have the field. *)
Definition read_list (sep : Ascii.ascii) (field : option string) : list string :=
  match field with
  | None => []
  | Some text => if bool_decide (text = "") then [] else split sep text
  end.

(** The fields of the [MetroSystem] object that a purchase reads or
    writes, with the user names and the dictionaries that [save_user] and
    [save_ticket] hand to the writers of the two files, in the order they
    are appended. *)
Record State := mk_state {
    stations : gmap string Station.t;
    tickets : list Ticket.t;
    users : gmap string User.t;
    users_csv : list string;
    tickets_csv : list ticket_row
  }.

Definition save_user (self : State) (user : User.t) : State :=
  mk_state (stations self) (tickets self) (users self)
           (users_csv self ++ [User.name user]) (tickets_csv self).

Definition save_ticket (self : State) (ticket : Ticket.t) : State :=
  mk_state (stations self) (tickets self) (users self)
           (users_csv self) (tickets_csv self ++ [row_of_ticket ticket]).

(** Why [purchase_ticket] printed an error and returned [None]. *)
Inductive refusal := OriginNotFound | DestinationNotFound | NoRouteAvailable.

Inductive purchase_result :=
| ReturnTicket (ticket : Ticket.t)
| ReturnNoTicket (why : refusal)
| SearchRaised (error : result)
| InstructionsRaiseKeyError
| UsersRaiseKeyError.

(** [uuid] is the value of [str(uuid.uuid4())]. *)
Definition purchase_ticket (self : State) (user_name origin destination uuid : string)
  : State * purchase_result :=
  if bool_decide (origin ∉ dom (stations self)) then
    (self, ReturnNoTicket OriginNotFound)
  else if bool_decide (destination ∉ dom (stations self)) then
    (self, ReturnNoTicket DestinationNotFound)
  else
    match find_shortest_path (stations self) origin destination with
    | ReturnNone => (self, ReturnNoTicket NoRouteAvailable)
    | ReturnPath [] => (self, ReturnNoTicket NoRouteAvailable)
    | ReturnPath path =>
      let self :=
        if bool_decide (user_name ∉ dom (users self)) then
          let user := User.mk user_name [] in
          save_user
            (mk_state (stations self) (tickets self)
                      (<[user_name := user]> (users self))
                      (users_csv self) (tickets_csv self))
            user
        else self in
      match generate_travel_instructions (stations self) path with
      | None => (self, InstructionsRaiseKeyError)
      | Some instructions =>
        let fare := MetroSystem.calculate_fare path in
        let ticket :=
          Ticket.mk uuid user_name origin destination fare path instructions in
        let self :=
          mk_state (stations self) (tickets self ++ [ticket]) (users self)
                   (users_csv self) (tickets_csv self) in
        match users self !! user_name with
        | None => (self, UsersRaiseKeyError)
        | Some user =>
          let self :=
            mk_state (stations self) (tickets self)
                     (<[user_name := User.append_ticket user uuid]> (users self))
                     (users_csv self) (tickets_csv self) in
          (save_ticket self ticket, ReturnTicket ticket)
        end
      end
    | error => (self, SearchRaised error)
    end.

End Main.

(** Walks in the network of [main.py]. *)
Module MainRoutes.

Fixpoint is_walk (edge : string → string → Prop) (w : list string) : Prop :=
  match w with
  | [] => False
  | x :: w' =>
    match w' with
    | [] => True
    | y :: _ => edge x y ∧ is_walk edge w'
    end
  end.

Record route (edge : string → string → Prop) (origin destination : string)
       (w : list string) : Prop := {
  route_walk : is_walk edge w;
  route_head : head w = Some origin;
  route_last : last w = Some destination
}.

(** [v] is a key of the connections of the station named [u]. *)
Definition connected (stations : gmap string Main.Station.t) (u v : string) : Prop :=
  ∃ station, stations !! u = Some station ∧ v ∈ Main.Station.neighbors station.

(** Every neighbour named by a station is a station. *)
Definition closed (stations : gmap string Main.Station.t) : Prop :=
  ∀ u v, connected stations u v → is_Some (stations !! v).

(** The queued paths that the loop will expand if nothing is added before:
    those whose end is neither visited nor the end of an earlier path of
    the queue. *)
Fixpoint pending (queue : list (list string)) (seen : gset string)
  : list (list string) :=
  match queue with
  | [] => []
  | q :: queue =>
    match last q with
    | None => pending queue seen
    | Some x =>
      if bool_decide (x ∈ seen) then pending queue seen
      else q :: pending queue (seen ∪ {[x]})
    end
  end.

Definition work_left (stations : gmap string Main.Station.t)
           (queue : list (list string)) (visited : gset string) : nat :=
  length queue + size (dom stations ∖ visited) * S (Main.max_degree stations).

(** The invariant of the loop: queued paths and the last assigned
    [new_path] are walks from the origin; the destination is not visited;
    the pending paths have one length followed by one station more; every
    walk to the destination leaves the visited set through the end of a
    pending path no longer than the walk up to there; and the end of
    [new_path] is visited or the end of a queued path. *)
Record bfs_inv (stations : gmap string Main.Station.t) (origin destination : string)
       (queue : list (list string)) (visited : gset string)
       (new_path : option (list string)) : Prop := {
  inv_walks : ∀ q, q ∈ queue →
      is_walk (connected stations) q ∧ head q = Some origin;
  inv_destination : destination ∉ visited;
  inv_levels : ∃ k short long,
      pending queue visited = short ++ long
      ∧ Forall (λ q, length q = k) short
      ∧ Forall (λ q, length q = S k) long;
  inv_frontier : ∀ w, route (connected stations) origin destination w →
      ∃ pre suf q x,
        w = pre ++ suf ∧ q ∈ pending queue visited
        ∧ head suf = Some x ∧ last q = Some x
        ∧ length q ≤ S (length pre)
        ∧ Forall (λ y, y ∉ visited) suf;
  inv_new_path : match new_path with
                 | None => queue = [[origin]] ∧ visited = ∅ ∨ queue = []
                 | Some p =>
                   is_walk (connected stations) p ∧ head p = Some origin
                   ∧ ∃ x, last p = Some x
                          ∧ (x ∈ visited ∨ ∃ q, q ∈ queue ∧ last q = Some x)
                 end
}.

(** The line that [u] names for its neighbour [v]. *)
Definition line_of_hop (stations : gmap string Main.Station.t) (u v : string)
  : option string :=
  stations !! u ≫= λ station, Main.Station.connection_line station v.

(** The number of times the character [c] is in [s]. *)
Fixpoint occurrences (c : Ascii.ascii) (s : string) : nat :=
  match s with
  | EmptyString => 0
  | String c' s' => (if bool_decide (c' = c) then 1 else 0) + occurrences c s'
  end.

(** No item has the character [c], and the list is not the one empty
    string. *)
Definition separable (c : Ascii.ascii) (items : list string) : Prop :=
  Forall (λ item, occurrences c item = 0) items ∧ items ≠ [""].

End MainRoutes.


(** Sample networks of [main.py]. *)
Module MainSamples.

(** The Red line through "A", "B" and "C", and the Blue line from "B"
    to "D". *)
Definition small : gmap string Main.Station.t :=
  list_to_map
    [("A", Main.Station.mk "A" ["Red"] [("B", "Red")]);
     ("B", Main.Station.mk "B" ["Red"; "Blue"]
                           [("A", "Red"); ("C", "Red"); ("D", "Blue")]);
     ("C", Main.Station.mk "C" ["Red"] [("B", "Red")]);
     ("D", Main.Station.mk "D" ["Blue"] [("B", "Blue")])].

(** A file of stations in which "A" names itself as its first neighbour. *)
Definition looped : gmap string Main.Station.t :=
  list_to_map
    [("A", Main.Station.mk "A" ["Red"] [("A", "Red"); ("B", "Red")]);
     ("B", Main.Station.mk "B" ["Red"] [("A", "Red")])].

(** The system over [small] before any purchase. *)
Definition fresh : Main.State := Main.mk_state small [] ∅ [] [].

End MainSamples.

(** Station data in which every connection can be taken both ways. *)
Module TwoWay.

(** [unique_together = ['line', 'position']] *)
Definition unique_position (objects : list Station.t) : Prop :=
  NoDup ((λ s, (Station.line s, Station.position s)) <$> objects).

(** Every interchange connection that starts at an active station leads to
    an active station and has a row for the way back. *)
Definition two_way (net : Network) : Prop :=
  ∀ c, c ∈ connections net →
       StationConnection.connection_type c = StationConnection.interchange →
       Routes.active_station net (StationConnection.from_station c) →
       Routes.active_station net (StationConnection.to_station c)
       ∧ ∃ c', c' ∈ connections net
               ∧ StationConnection.from_station c' = StationConnection.to_station c
               ∧ StationConnection.to_station c' = StationConnection.from_station c
               ∧ StationConnection.connection_type c' = StationConnection.interchange.

End TwoWay.

Module TwoWaySamples.

(** The Red line 1 - 2 - 3 and the Blue line 4 - 5, joined both ways at
    stations 2 and 4. *)
Definition crossing : Network :=
  {| lines := [MetroLine.mk 1 "Red" true true; MetroLine.mk 2 "Blue" true true];
     stations :=
       [Station.mk 1 "R0" "R0" 1 0 false true;
        Station.mk 2 "R1" "R1" 1 1 true true;
        Station.mk 3 "R2" "R2" 1 2 false true;
        Station.mk 4 "B0" "B0" 2 0 true true;
        Station.mk 5 "B1" "B1" 2 1 false true];
     connections :=
       [StationConnection.mk 2 4 StationConnection.interchange;
        StationConnection.mk 4 2 StationConnection.interchange] |}.

End TwoWaySamples.
(** * Properties *)

(** ** Fares *)

(** C7: [calculate_fare] is 0 for a path of fewer than two stations and
    otherwise the base fare plus the per-station fare times the number of
    hops, in [metro/views.py] for any two setting values and in [main.py]
    for its constants 10 and 5; a five-station path costs 30 under the
    defaults.  The fare is a function of the path and the two constants
    alone. *)
Theorem calculate_fare_formula :
  (∀ (base per : Z) (path : list Z),
      MetroViews.calculate_fare base per path =
      if decide (length path < 2) then 0%Z
      else (base + per * (Z.of_nat (length path) - 1))%Z)
  ∧ (∀ path : list string,
      MetroSystem.calculate_fare path =
      if decide (length path < 2) then 0%Z
      else (10 + 5 * (Z.of_nat (length path) - 1))%Z)
  ∧ (∀ a b c d e : Z, MetroViews.calculate_fare 10 5 [a; b; c; d; e] = 30%Z)
  ∧ (∀ a b c d e : string, MetroSystem.calculate_fare [a; b; c; d; e] = 30%Z).
Proof.
  split; [|split; [|split]].
  - intros base per path. unfold MetroViews.calculate_fare.
    destruct path as [|x [|y path]]; try reflexivity.
    rewrite bool_decide_eq_false_2 by discriminate.
    rewrite bool_decide_eq_false_2 by (simpl; lia).
    rewrite decide_False by (simpl; lia). simpl orb. cbv iota. lia.
  - intros path. unfold MetroSystem.calculate_fare,
      MetroSystem.BASE_FARE, MetroSystem.PER_STATION_FARE.
    destruct path as [|x [|y path]]; try reflexivity.
    rewrite bool_decide_eq_false_2 by discriminate.
    rewrite bool_decide_eq_false_2 by (simpl; lia).
    rewrite decide_False by (simpl; lia). simpl orb. cbv iota. lia.
  - reflexivity.
  - reflexivity.
Qed.

(** ** The ticket lifecycle *)

Section LifecycleFacts.
Import Ticket Trace.
Variable H : Z.

Local Ltac unfold_calls :=
  unfold TicketModel.scan_entry, TicketModel.scan_exit,
    TicketModel.check_and_update_expiry.

Lemma apply_call_status (s : t * Database) (c : call) :
  status (apply_call H s c).1 = status s.1
  ∨ lifecycle_step (status s.1) (status (apply_call H s c).1).
Proof.
  destruct s as [self db], c as [station now|station now|now]; simpl; unfold_calls.
  - case_bool_decide as Hst; simpl; [by left|].
    assert (status self = active) as Ha by (destruct (status self); congruence).
    destruct (TicketModel.is_expired H self now); simpl.
    { right. rewrite Ha. constructor. }
    destruct (Station.eqb station (origin self)); simpl; [|by left].
    destruct (DailyFootfall.get_or_create _ _); simpl.
    right. rewrite Ha. constructor.
  - case_bool_decide as Hst; simpl; [by left|].
    assert (status self = in_use) as Ha by (destruct (status self); congruence).
    destruct (Station.eqb station (destination self)); simpl; [|by left].
    destruct (DailyFootfall.get_or_create _ _); simpl.
    right. rewrite Ha. constructor.
  - case_bool_decide as Hst; simpl; [|by left].
    destruct (TicketModel.is_expired H self now); simpl; [|by left].
    right. rewrite Hst. constructor.
Qed.

Lemma run_snoc (calls : list call) (c : call) (s : t * Database) :
  run H (calls ++ [c]) s = apply_call H (run H calls s) c.
Proof. unfold run. by rewrite fold_left_app. Qed.

Lemma terminal_stays (calls : list call) (s : t * Database) :
  status s.1 = used ∨ status s.1 = expired →
  status_after H calls s = status s.1.
Proof.
  unfold status_after. induction calls as [|c calls IH] using rev_ind; [done|].
  intros Hterm. rewrite run_snoc.
  destruct (apply_call_status (run H calls s) c) as [Heq|Hstep].
  - rewrite Heq. by apply IH.
  - rewrite (IH Hterm) in Hstep.
    destruct Hterm as [Hu|He]; rewrite ?Hu, ?He in Hstep; inversion Hstep.
Qed.

End LifecycleFacts.

(** C2: along any sequence of [scan_entry], [scan_exit] and
    [check_and_update_expiry] calls on a ticket, each call leaves the status
    as it is or moves it along active→in_use, in_use→used, active→expired
    or in_use→expired; a status that reaches [used] has been [in_use]
    before; and a status of [used] or [expired] is never changed. *)
Theorem ticket_status_lifecycle (H : Z) (calls : list Trace.call)
        (s : Ticket.t * Database) :
  (∀ pre c, (pre ++ [c]) `prefix_of` calls →
      Trace.status_after H (pre ++ [c]) s = Trace.status_after H pre s
      ∨ Trace.lifecycle_step (Trace.status_after H pre s)
                             (Trace.status_after H (pre ++ [c]) s))
  ∧ (Ticket.status s.1 ≠ Ticket.used →
     Trace.status_after H calls s = Ticket.used →
     ∃ pre, pre `prefix_of` calls ∧ Trace.status_after H pre s = Ticket.in_use)
  ∧ (Ticket.status s.1 = Ticket.used ∨ Ticket.status s.1 = Ticket.expired →
     ∀ pre, pre `prefix_of` calls → Trace.status_after H pre s = Ticket.status s.1).
Proof.
  split; [|split].
  - intros pre c _. unfold Trace.status_after. rewrite run_snoc.
    apply apply_call_status.
  - induction calls as [|c calls IH] using rev_ind.
    + intros Hne Hu. by destruct Hne.
    + intros Hne Hu. unfold Trace.status_after in Hu. rewrite run_snoc in Hu.
      destruct (decide (Trace.status_after H calls s = Ticket.used)) as [Hprev|Hprev].
      * destruct (IH Hne Hprev) as (pre & Hpre & Hin).
        exists pre. split; [|done]. by apply prefix_app_r.
      * exists calls. split; [by apply prefix_app_r|].
        destruct (apply_call_status H (Trace.run H calls s) c) as [Heq|Hstep].
        { unfold Trace.status_after in Hprev. congruence. }
        rewrite Hu in Hstep. by inversion Hstep.
  - intros Hterm pre _. by apply terminal_stays.
Qed.

Lemma ticket_status_lifecycle_witness :
  Trace.status_after Examples.two_hours
    [Trace.ScanEntry Examples.station_a 10; Trace.ScanExit Examples.station_c 20;
     Trace.ScanExit Examples.station_c 30]
    (Examples.ticket_ac Ticket.active, Examples.db_of (Examples.ticket_ac Ticket.active))
  = Ticket.used
  ∧ ∃ pre,
      pre `prefix_of`
        [Trace.ScanEntry Examples.station_a 10; Trace.ScanExit Examples.station_c 20;
         Trace.ScanExit Examples.station_c 30]
      ∧ Trace.status_after Examples.two_hours pre
          (Examples.ticket_ac Ticket.active,
           Examples.db_of (Examples.ticket_ac Ticket.active)) = Ticket.in_use.
Proof.
  split; [reflexivity|].
  apply (ticket_status_lifecycle Examples.two_hours
           [Trace.ScanEntry Examples.station_a 10; Trace.ScanExit Examples.station_c 20;
            Trace.ScanExit Examples.station_c 30]
           (Examples.ticket_ac Ticket.active,
            Examples.db_of (Examples.ticket_ac Ticket.active))).
  - simpl. discriminate.
  - reflexivity.
Defined.

(** C3, as the code has it: on a ticket in status [active] that is past its
    expiry, [check_and_update_expiry] and an entry scan (at any station) set
    the status to [expired], save the ticket and touch nothing else; both
    look at the status first, so a ticket in status [in_use] is left as it
    is at every instant, past its expiry or not: the instance, the ticket
    table, the footfall and the audit rows are as before the call. *)
Theorem lazy_expiry_from_active (H : Z) (self : Ticket.t) (station : Station.t)
        (now : Z) (db : Database) :
  (Ticket.status self = Ticket.active →
   (now > Ticket.purchased_at self + H * 3600)%Z →
   TicketModel.check_and_update_expiry H self now db
   = (true, Ticket.set_status self Ticket.expired,
      TicketModel.save (Ticket.set_status self Ticket.expired) db)
   ∧ TicketModel.scan_entry H self station now db
     = ((false, "Ticket has expired"), Ticket.set_status self Ticket.expired,
        TicketModel.save (Ticket.set_status self Ticket.expired) db)
   ∧ Ticket_objects (TicketModel.save (Ticket.set_status self Ticket.expired) db)
     !! Ticket.ticket_id self
     = Some (Ticket.set_status self Ticket.expired)
   ∧ (∀ k, k ≠ Ticket.ticket_id self →
           Ticket_objects (TicketModel.save (Ticket.set_status self Ticket.expired) db)
           !! k
           = Ticket_objects db !! k)
   ∧ DailyFootfall_objects (TicketModel.save (Ticket.set_status self Ticket.expired) db)
     = DailyFootfall_objects db
   ∧ TicketScan_objects (TicketModel.save (Ticket.set_status self Ticket.expired) db)
     = TicketScan_objects db)
  ∧ (Ticket.status self = Ticket.in_use →
     TicketModel.check_and_update_expiry H self now db = (false, self, db)
     ∧ TicketModel.scan_entry H self station now db
       = ((false, "Ticket is in_use"), self, db)).
Proof.
  unfold TicketModel.check_and_update_expiry, TicketModel.scan_entry.
  split; intros Hst.
  - intros Hlate.
    assert (TicketModel.is_expired H self now = true) as Hexp.
    { unfold TicketModel.is_expired. apply Z.gtb_lt. lia. }
    rewrite Hst, Hexp. split_and!; try reflexivity.
    + simpl. apply lookup_insert_eq.
    + intros k Hk. simpl. by apply lookup_insert_ne.
  - rewrite Hst. split; reflexivity.
Qed.

Lemma lazy_expiry_from_active_witness :
  Ticket.status
    (TicketModel.check_and_update_expiry Examples.two_hours
       (Examples.ticket_ac Ticket.active) 7201
       (Examples.db_of (Examples.ticket_ac Ticket.active))).1.2
  = Ticket.expired.
Proof.
  destruct (lazy_expiry_from_active Examples.two_hours
              (Examples.ticket_ac Ticket.active) Examples.station_a 7201
              (Examples.db_of (Examples.ticket_ac Ticket.active))) as [Hactive _].
  destruct (Hactive eq_refl) as [Hcheck _]; [reflexivity|].
  rewrite Hcheck. reflexivity.
Defined.

(** C3 as written fails for [in_use]: a ticket in use and past its expiry
    keeps its status through [check_and_update_expiry] and through an entry
    scan. *)
Lemma in_use_ticket_is_not_expired :
  (7201 > Ticket.purchased_at (Examples.ticket_ac Ticket.in_use)
          + Examples.two_hours * 3600)%Z
  ∧ Ticket.status
      (TicketModel.check_and_update_expiry Examples.two_hours
         (Examples.ticket_ac Ticket.in_use) 7201
         (Examples.db_of (Examples.ticket_ac Ticket.in_use))).1.2
    = Ticket.in_use
  ∧ Ticket.status
      (TicketModel.scan_entry Examples.two_hours
         (Examples.ticket_ac Ticket.in_use) Examples.station_a 7201
         (Examples.db_of (Examples.ticket_ac Ticket.in_use))).1.2
    = Ticket.in_use.
Proof. split; [reflexivity|split; reflexivity]. Qed.

(** C4, as the code has it: a scan turned down by its guard (exit at a
    station other than the destination, a status other than the one the
    scan needs, or entry at a station other than the origin on a ticket that
    is not past its expiry) returns [False] with a message, leaves the
    ticket instance and every table as they were, and [scan_ticket] appends
    exactly one [TicketScan] row carrying that outcome. *)
Theorem failed_scan_changes_nothing_but_audit (H : Z)
        (req : TicketsViews.scan_request) (db : Database) (ticket : Ticket.t) :
  Ticket_objects db !! TicketsViews.req_ticket_id req = Some ticket →
  Guards.guard_fails H req ticket →
  ∃ message,
    TicketsViews.perform_scan H req ticket db = ((false, message), ticket, db)
    ∧ TicketsViews.scan_ticket H req db
      = (Some (false, message),
         with_scans db
           (TicketScan_objects db
            ++ [TicketScan.mk (Ticket.ticket_id ticket)
                              (Station.pk (TicketsViews.req_station req))
                              (TicketsViews.req_scan_type req)
                              (TicketsViews.req_user req)
                              (TicketsViews.req_now req) false message])).
Proof.
  intros Hget Hguard.
  assert (∃ message,
            TicketsViews.perform_scan H req ticket db = ((false, message), ticket, db))
    as [message Hscan].
  { unfold Guards.guard_fails, TicketsViews.perform_scan in *.
    destruct (TicketsViews.req_scan_type req).
    - unfold TicketModel.scan_entry. destruct Hguard as [Hst|[Hexp Hne]].
      + rewrite bool_decide_eq_true_2 by done. eauto.
      + case_bool_decide; [eauto|]. rewrite Hexp, Hne. simpl. eauto.
    - unfold TicketModel.scan_exit. destruct Hguard as [Hst|Hne].
      + rewrite bool_decide_eq_true_2 by done. eauto.
      + case_bool_decide; [eauto|]. rewrite Hne. simpl. eauto. }
  exists message. split; [done|].
  unfold TicketsViews.scan_ticket. rewrite Hget, Hscan. reflexivity.
Qed.

Lemma failed_scan_changes_nothing_but_audit_witness :
  ∃ message,
    TicketsViews.perform_scan Examples.two_hours Examples.early_entry_at_b
      (Examples.ticket_ac Ticket.active)
      (Examples.db_of (Examples.ticket_ac Ticket.active))
    = ((false, message), Examples.ticket_ac Ticket.active,
       Examples.db_of (Examples.ticket_ac Ticket.active))
    ∧ TicketsViews.scan_ticket Examples.two_hours Examples.early_entry_at_b
        (Examples.db_of (Examples.ticket_ac Ticket.active))
      = (Some (false, message),
         with_scans (Examples.db_of (Examples.ticket_ac Ticket.active))
           [TicketScan.mk 7 2 TicketScan.entry 100 60 false message]).
Proof.
  apply (failed_scan_changes_nothing_but_audit Examples.two_hours
           Examples.early_entry_at_b
           (Examples.db_of (Examples.ticket_ac Ticket.active))
           (Examples.ticket_ac Ticket.active)).
  - reflexivity.
  - right. split; reflexivity.
Defined.

(** C4 as written fails for an entry scan on an expired ticket: at a station
    other than the origin the scan is refused, but the status of an [active]
    ticket past its expiry moves to [expired], on the instance and in the
    saved row. *)
Lemma wrong_station_entry_can_expire :
  Station.eqb (TicketsViews.req_station Examples.late_entry_at_b)
              (Ticket.origin (Examples.ticket_ac Ticket.active)) = false
  ∧ Ticket.status (Examples.ticket_ac Ticket.active) = Ticket.active
  ∧ (TicketsViews.perform_scan Examples.two_hours Examples.late_entry_at_b
       (Examples.ticket_ac Ticket.active)
       (Examples.db_of (Examples.ticket_ac Ticket.active))).1
    = ((false, "Ticket has expired"), Examples.ticket_ac Ticket.expired)
  ∧ Ticket.status <$>
      (Ticket_objects
         (TicketsViews.scan_ticket Examples.two_hours Examples.late_entry_at_b
            (Examples.db_of (Examples.ticket_ac Ticket.active))).2
       !! 7%Z)
    = Some Ticket.expired.
Proof. repeat split; vm_compute; reflexivity. Qed.

(** C8: an entry scan at the origin of an [active] ticket that is not past
    its expiry succeeds, sets the status to [in_use] and [entry_time] to
    [now], and adds exactly one to [entry_count] of the footfall row of
    (station, today), which starts from zero counts when it was absent;
    [exit_count] of that row and all other footfall rows stay as they were.
    The ticket is saved: its row in the ticket table is the instance as the
    scan leaves it, which differs from the one scanned in the status and
    the entry time only; the other tickets and the audit rows stay as they
    were. *)
Theorem scan_entry_success (H : Z) (self : Ticket.t) (station : Station.t)
        (now : Z) (db : Database) :
  Ticket.status self = Ticket.active →
  (now ≤ Ticket.purchased_at self + H * 3600)%Z →
  Station.pk station = Station.pk (Ticket.origin self) →
  ∃ self' db',
    TicketModel.scan_entry H self station now db
    = ((true, "Entry successful"), self', db')
    ∧ Ticket.status self' = Ticket.in_use
    ∧ Ticket.entry_time self' = Some now
    ∧ DailyFootfall_objects db' !! (Station.pk station, date_of now)
      = Some (DailyFootfall.mk
                (DailyFootfall.entry_count
                   (default (DailyFootfall.mk 0 0)
                      (DailyFootfall_objects db !! (Station.pk station, date_of now)))
                 + 1)
                (DailyFootfall.exit_count
                   (default (DailyFootfall.mk 0 0)
                      (DailyFootfall_objects db !! (Station.pk station, date_of now)))))
    ∧ (∀ key, key ≠ (Station.pk station, date_of now) →
              DailyFootfall_objects db' !! key = DailyFootfall_objects db !! key)
    ∧ self' = Ticket.mk (Ticket.ticket_id self) (Ticket.user self)
                        (Ticket.origin self) (Ticket.destination self)
                        (Ticket.price self) Ticket.in_use
                        (Ticket.purchased_at self) (Some now)
                        (Ticket.exit_time self) (Ticket.path self)
    ∧ Ticket_objects db' !! Ticket.ticket_id self = Some self'
    ∧ (∀ k, k ≠ Ticket.ticket_id self →
            Ticket_objects db' !! k = Ticket_objects db !! k)
    ∧ TicketScan_objects db' = TicketScan_objects db.
Proof.
  intros Hst Hvalid Horigin.
  assert (TicketModel.is_expired H self now = false) as Hexp.
  { unfold TicketModel.is_expired. rewrite Z.gtb_ltb. apply Z.ltb_ge. lia. }
  unfold TicketModel.scan_entry.
  rewrite bool_decide_eq_false_2 by (rewrite Hst; intros Hne; by apply Hne).
  rewrite Hexp. unfold Station.eqb. rewrite Horigin, Z.eqb_refl. simpl negb. cbv iota.
  unfold DailyFootfall.get_or_create, TicketModel.save. simpl DailyFootfall_objects.
  rewrite <- Horigin.
  destruct (DailyFootfall_objects db !! (Station.pk station, date_of now))
    as [row|] eqn:Hrow.
  - eexists _, _. split; [reflexivity|]. split_and!; try reflexivity.
    + simpl. unfold DailyFootfall.record_entry, DailyFootfall.save.
      by rewrite lookup_insert_eq.
    + intros key Hkey. simpl.
      unfold DailyFootfall.record_entry, DailyFootfall.save.
      by rewrite lookup_insert_ne.
    + simpl. apply lookup_insert_eq.
    + intros k Hk. simpl. by apply lookup_insert_ne.
  - eexists _, _. split; [reflexivity|]. split_and!; try reflexivity.
    + simpl. unfold DailyFootfall.record_entry, DailyFootfall.save.
      by rewrite lookup_insert_eq.
    + intros key Hkey. simpl.
      unfold DailyFootfall.record_entry, DailyFootfall.save.
      by rewrite !lookup_insert_ne.
    + simpl. apply lookup_insert_eq.
    + intros k Hk. simpl. by apply lookup_insert_ne.
Qed.

Lemma scan_entry_success_witness :
  ∃ self' db',
    TicketModel.scan_entry Examples.two_hours (Examples.ticket_ac Ticket.active)
      Examples.station_a 60 (Examples.db_of (Examples.ticket_ac Ticket.active))
    = ((true, "Entry successful"), self', db')
    ∧ Ticket.status self' = Ticket.in_use
    ∧ Ticket.entry_time self' = Some 60%Z
    ∧ DailyFootfall_objects db' !! (1%Z, 0%Z) = Some (DailyFootfall.mk 1 0)
    ∧ (∀ key, key ≠ (1%Z, 0%Z) → DailyFootfall_objects db' !! key = None)
    ∧ self' = Ticket.mk 7 1 Examples.station_a Examples.station_c 20 Ticket.in_use
                        0 (Some 60%Z) None [1; 2; 3]%Z
    ∧ Ticket_objects db' !! 7%Z = Some self'
    ∧ (∀ k, k ≠ 7%Z →
            Ticket_objects db' !! k
            = Ticket_objects (Examples.db_of (Examples.ticket_ac Ticket.active)) !! k)
    ∧ TicketScan_objects db' = [].
Proof.
  apply (scan_entry_success Examples.two_hours (Examples.ticket_ac Ticket.active)
           Examples.station_a 60 (Examples.db_of (Examples.ticket_ac Ticket.active))).
  - reflexivity.
  - vm_compute. discriminate.
  - reflexivity.
Defined.

(** ** Route search *)

(** C10: for every station, active or not, on an active line or not, with
    connections or without, [find_shortest_path(X, X)] returns [[X]]: the
    comparison of the two arguments comes before the stations are read. *)
Theorem find_shortest_path_same_station (net : Network) (x : Z) :
  MetroViews.find_shortest_path net x x = MetroViews.ReturnPath [x].
Proof.
  unfold MetroViews.find_shortest_path. by rewrite bool_decide_eq_true_2.
Qed.

Section WalkFacts.
Import Routes.
Variable edge : Z → Z → Prop.

Lemma is_walk_nonempty (w : list Z) : is_walk edge w → w ≠ [].
Proof. by destruct w. Qed.

Lemma is_walk_snoc (w : list Z) (x y : Z) :
  is_walk edge w → last w = Some x → edge x y → is_walk edge (w ++ [y]).
Proof.
  induction w as [|a [|b w] IH]; intros Hw Hlast Hedge; [done| |].
  - simpl in *. by simplify_eq.
  - destruct Hw as [Hab Hw]. split; [done|]. apply IH; [done| |done].
    by rewrite last_cons_cons in Hlast.
Qed.

Lemma is_walk_middle (l1 l2 : list Z) (x y : Z) :
  is_walk edge (l1 ++ x :: y :: l2) → edge x y.
Proof.
  induction l1 as [|a l1 IH]; simpl.
  - by intros [? _].
  - destruct (l1 ++ x :: y :: l2) eqn:Heq; [by destruct l1|]. intros [_ Hw]. by apply IH.
Qed.

Lemma is_walk_source (w : list Z) (u : Z) :
  is_walk edge w → u ∈ w → last w ≠ Some u → ∃ v, edge u v.
Proof.
  intros Hw Hu Hlast. apply list_elem_of_split in Hu as (l1 & l2 & ->).
  destruct l2 as [|v l2].
  - by rewrite last_snoc in Hlast.
  - exists v. by eapply is_walk_middle.
Qed.

End WalkFacts.

Section BfsFacts.
Import Routes MetroViews.
Variable adjacency : gmap Z (list Z).
Variables origin destination : Z.

Local Abbreviation edge := (in_graph adjacency).
Local Abbreviation bfs_inv := (Routes.bfs_inv adjacency origin destination).

Lemma levels_head_least (h : list Z) (rest : list (list Z)) (q : list Z) :
  (∃ k short long,
      h :: rest = short ++ long
      ∧ Forall (λ q, length q = k) short
      ∧ Forall (λ q, length q = S k) long) →
  q ∈ h :: rest → length h ≤ length q ∧ length q ≤ S (length h).
Proof.
  intros (k & short & long & Heq & Hs & Hl) Hq.
  assert (length q = k ∨ length q = S k) as Hlen.
  { rewrite Heq in Hq. apply elem_of_app in Hq as [Hq|Hq].
    - left. by eapply Forall_forall in Hs.
    - right. by eapply Forall_forall in Hl. }
  destruct short as [|s short]; simpl in Heq.
  - subst long. apply Forall_cons in Hl as [Hh Hl].
    assert (length q = S k); [|lia].
    apply elem_of_cons in Hq as [->|Hq]; [done|]. by eapply Forall_forall in Hl.
  - simplify_eq. apply Forall_cons in Hs as [Hh Hs]. lia.
Qed.

Lemma levels_pop (h : list Z) (rest new : list (list Z)) :
  (∃ k short long,
      h :: rest = short ++ long
      ∧ Forall (λ q, length q = k) short
      ∧ Forall (λ q, length q = S k) long) →
  Forall (λ q, length q = S (length h)) new →
  ∃ k short long,
      rest ++ new = short ++ long
      ∧ Forall (λ q, length q = k) short
      ∧ Forall (λ q, length q = S k) long.
Proof.
  intros (k & short & long & Heq & Hs & Hl) Hnew.
  destruct short as [|s short]; simpl in Heq.
  - subst long. apply Forall_cons in Hl as [Hh Hl]. rewrite Hh in Hnew.
    exists (S k), rest, new. done.
  - simplify_eq. apply Forall_cons in Hs as [Hh Hs]. rewrite Hh in Hnew.
    exists k, short, (long ++ new).
    split; [by rewrite app_assoc|]. split; [done|]. by apply Forall_app.
Qed.

Lemma not_elem_of_visit (visited : gset Z) (c y : Z) :
  y ∉ visited → y ≠ c → y ∉ visited ∪ {[c]}.
Proof.
  intros Hy Hne [Hin|Hin%elem_of_singleton]%elem_of_union; [by apply Hy|by apply Hne].
Qed.

Lemma bfs_inv_initial : bfs_inv [[origin]] ∅.
Proof.
  split.
  - intros q Hq. apply list_elem_of_singleton in Hq as ->. by split.
  - exists 1, [[origin]], []. repeat split; by repeat constructor.
  - intros w [Hw Hhead Hlast]. exists [], w, [origin], origin.
    split_and!; [done|by left|done|done|simpl; lia|].
    apply Forall_forall. intros y _. apply not_elem_of_empty.
Qed.

Lemma bfs_inv_skip (h : list Z) (rest : list (list Z)) (visited : gset Z) (c : Z) :
  bfs_inv (h :: rest) visited → last h = Some c → c ∈ visited →
  bfs_inv rest visited.
Proof.
  intros [Hwalks Hlevels Hfront] Hlast Hc. split.
  - intros q Hq. apply Hwalks. by right.
  - apply (levels_pop h rest []) in Hlevels; [|constructor].
    by rewrite app_nil_r in Hlevels.
  - intros w Hroute.
    destruct (Hfront w Hroute) as (pre & suf & q & x & -> & Hq & Hx & Hqx & Hlen & Hfresh).
    exists pre, suf, q, x. repeat split; try done.
    apply elem_of_cons in Hq as [->|Hq]; [|done].
    destruct suf as [|y suf]; [done|]. simpl in Hx. simplify_eq.
    apply Forall_cons in Hfresh as [Hy _]. done.
Qed.

Lemma bfs_inv_visit (h : list Z) (rest : list (list Z)) (visited : gset Z) (c : Z) :
  bfs_inv (h :: rest) visited → last h = Some c → c ≠ destination → c ∉ visited →
  bfs_inv
    (rest ++ ((λ neighbor, h ++ [neighbor]) <$>
              filter (λ neighbor, neighbor ∉ visited ∪ {[c]}) (neighbors_of adjacency c)))
    (visited ∪ {[c]}).
Proof.
  intros Hinv Hlast Hdest Hc.
  pose proof Hinv as [Hwalks Hlevels Hfront]. split.
  - intros q Hq. apply elem_of_app in Hq as [Hq|Hq]; [apply Hwalks; by right|].
    apply list_elem_of_fmap in Hq as (n & -> & Hn).
    apply list_elem_of_filter in Hn as [_ Hn].
    destruct (Hwalks h) as [Hw Hhead]; [by left|]. split.
    + by eapply is_walk_snoc.
    + destruct h; [done|]. done.
  - apply (levels_pop h); [done|]. apply Forall_forall. intros q Hq.
    apply list_elem_of_fmap in Hq as (n & -> & _). rewrite length_app. simpl. lia.
  - intros w Hroute.
    destruct (Hfront w Hroute) as (pre & suf & q & x & -> & Hq & Hx & Hqx & Hlen & Hfresh).
    destruct (decide (c ∈ suf)) as [Hin|Hnotin].
    + apply list_elem_of_split_r in Hin as (s1 & s2 & -> & Hc2).
      destruct Hroute as [Hw Hhead Hend].
      destruct s2 as [|n s2].
      { rewrite !app_assoc, last_snoc in Hend. by simplify_eq. }
      assert (edge c n) as Hedge.
      { apply (is_walk_middle _ (pre ++ s1) s2). by rewrite <- app_assoc. }
      apply Forall_app in Hfresh as [_ Hfresh].
      apply Forall_cons in Hfresh as [_ Hfresh].
      assert (n ∉ visited ∪ {[c]}) as Hn.
      { apply Forall_cons in Hfresh as [Hn _]. apply not_elem_of_visit; [done|].
        intros ->. apply Hc2. by left. }
      exists (pre ++ s1 ++ [c]), (n :: s2), (h ++ [n]), n. repeat split.
      * by rewrite <- !app_assoc.
      * apply elem_of_app. right. apply list_elem_of_fmap. exists n. split; [done|].
        apply list_elem_of_filter. done.
      * apply last_snoc.
      * destruct (levels_head_least h rest q Hlevels Hq) as [Hle _].
        rewrite !length_app. simpl. lia.
      * apply Forall_forall. intros y Hy.
        rewrite Forall_forall in Hfresh. specialize (Hfresh y Hy).
        apply not_elem_of_visit; [done|]. by intros ->.
    + exists pre, suf, q, x. repeat split; try done.
      * apply elem_of_app. left.
        apply elem_of_cons in Hq as [->|Hq]; [|done].
        destruct suf as [|y suf]; [done|]. simpl in Hx. simplify_eq.
        destruct Hnotin. by left.
      * apply Forall_forall. intros y Hy.
        rewrite Forall_forall in Hfresh. specialize (Hfresh y Hy).
        apply not_elem_of_visit; [done|]. by intros ->.
Qed.

Lemma degree_le_max (c : Z) :
  length (neighbors_of adjacency c) ≤ max_degree adjacency.
Proof.
  unfold neighbors_of, max_degree.
  destruct (adjacency !! c) as [l|] eqn:Hl; simpl; [|lia].
  apply max_list_elem_of_le.
  apply list_elem_of_fmap. exists l. split; [done|].
  apply list_elem_of_fmap. exists (c, l). split; [done|].
  by apply elem_of_map_to_list.
Qed.

Lemma work_left_visit (h : list Z) (rest : list (list Z)) (visited : gset Z) (c : Z)
      (fresh : list Z) (extend : Z → list Z) :
  c ∉ visited →
  length fresh ≤ length (neighbors_of adjacency c) →
  work_left adjacency (rest ++ (extend <$> fresh)) (visited ∪ {[c]})
  < work_left adjacency (h :: rest) visited.
Proof.
  intros Hc Hlen. unfold work_left.
  rewrite length_app, length_fmap. simpl.
  pose proof (degree_le_max c) as Hdeg.
  destruct (adjacency !! c) as [l|] eqn:Hl.
  - assert (size (dom adjacency ∖ (visited ∪ {[c]})) < size (dom adjacency ∖ visited)).
    { apply subset_size. split.
      - intros y Hy. apply elem_of_difference in Hy as [Hy Hn].
        apply elem_of_difference. split; [done|].
        intros Hv. apply Hn. apply elem_of_union. by left.
      - intros Hsub. specialize (Hsub c).
        assert (c ∈ dom adjacency ∖ visited) as Hin.
        { apply elem_of_difference. split; [|done]. apply elem_of_dom. by eexists. }
        apply Hsub in Hin. apply elem_of_difference in Hin as [_ Hn].
        apply Hn. apply elem_of_union. right. by apply elem_of_singleton. }
    nia.
  - assert (size (dom adjacency ∖ (visited ∪ {[c]})) ≤ size (dom adjacency ∖ visited)).
    { apply subseteq_size. intros y Hy. apply elem_of_difference in Hy as [Hy Hn].
      apply elem_of_difference. split; [done|].
      intros Hv. apply Hn. apply elem_of_union. by left. }
    unfold neighbors_of in Hlen. rewrite Hl in Hlen. simpl in Hlen. nia.
Qed.

(** The loop, started in a state of the invariant with enough fuel, returns
    a shortest route when there is a route and [None] when there is none. *)
Lemma bfs_loop_spec (fuel : nat) (queue : list (list Z)) (visited : gset Z) :
  bfs_inv queue visited →
  work_left adjacency queue visited < fuel →
  match bfs_loop fuel adjacency destination queue visited with
  | ReturnPath p =>
    route edge origin destination p
    ∧ ∀ w, route edge origin destination w → length p ≤ length w
  | ReturnNone => ∀ w, ¬ route edge origin destination w
  | RaiseIndexError | OutOfFuel => False
  end.
Proof.
  revert queue visited.
  induction fuel as [|fuel IH]; intros queue visited Hinv Hfuel; [lia|].
  destruct queue as [|h rest]; simpl.
  - intros w Hroute.
    destruct (inv_frontier _ _ _ _ _ Hinv w Hroute) as (? & ? & q & ? & _ & Hq & _).
    by apply elem_of_nil in Hq.
  - destruct (inv_walks _ _ _ _ _ Hinv h) as [Hwalk Hhead]; [by left|].
    destruct (last h) as [c|] eqn:Hlast;
      [|apply last_None in Hlast; by apply is_walk_nonempty in Hwalk].
    case_bool_decide as Hdest.
    + subst c. split; [done|]. intros w Hroute.
      destruct (inv_frontier _ _ _ _ _ Hinv w Hroute)
        as (pre & suf & q & x & -> & Hq & Hx & _ & Hlen & _).
      destruct (levels_head_least h rest q (inv_levels _ _ _ _ _ Hinv) Hq) as [Hle _].
      destruct suf; [done|]. rewrite length_app. simpl. lia.
    + case_bool_decide as Hvisited.
      * apply IH; [by eapply bfs_inv_skip|].
        unfold work_left in *. simpl in Hfuel. lia.
      * apply IH; [by apply bfs_inv_visit|].
        eapply Nat.lt_le_trans; [apply (work_left_visit h)|]; try done.
        -- apply length_filter.
        -- lia.
Qed.

End BfsFacts.

Section GraphFacts.
Import Routes MetroViews.
Variable net : Network.

Lemma is_walk_mono (edge1 edge2 : Z → Z → Prop) (w : list Z) :
  (∀ u v, edge1 u v → edge2 u v) → is_walk edge1 w → is_walk edge2 w.
Proof.
  intros Hsub. induction w as [|x [|y w] IH]; [done..|].
  intros [Hxy Hw]. split; [by apply Hsub|by apply IH].
Qed.

Lemma first_active_at_Some (objects : list Station.t) (l p : Z) (s : Station.t) :
  Station.first_active_at objects l p = Some s →
  s ∈ objects ∧ Station.line s = l ∧ Station.position s = p
  ∧ Station.is_active s = true.
Proof.
  unfold Station.first_active_at. intros Hfind.
  apply find_some in Hfind as [Hin Hs].
  apply andb_true_iff in Hs as [Hs Hact]. apply andb_true_iff in Hs as [Hl Hp].
  split_and!; [by apply list_elem_of_In|lia|lia|done].
Qed.

Lemma line_neighbors_elem (station : Station.t) (v : Z) :
  v ∈ line_neighbors net station ↔
  (∃ n, Station.get_next_station (stations net) station = Some n ∧ Station.pk n = v)
  ∨ (∃ p, Station.get_previous_station (stations net) station = Some p
          ∧ Station.pk p = v).
Proof.
  unfold line_neighbors.
  destruct (Station.get_next_station (stations net) station) as [n|],
           (Station.get_previous_station (stations net) station) as [p|]; simpl.
  - rewrite elem_of_cons, list_elem_of_singleton. split.
    + intros [->| ->]; [left; by exists n|right; by exists p].
    + intros [(? & ? & ?)|(? & ? & ?)]; simplify_eq; [by left|by right].
  - rewrite list_elem_of_singleton. split.
    + intros ->. left. by exists n.
    + intros [(? & ? & ?)|(? & ? & ?)]; by simplify_eq.
  - rewrite list_elem_of_singleton. split.
    + intros ->. right. by exists p.
    + intros [(? & ? & ?)|(? & ? & ?)]; by simplify_eq.
  - rewrite elem_of_nil. split; [done|].
    intros [(? & ? & ?)|(? & ? & ?)]; by simplify_eq.
Qed.

Lemma line_neighbors_active (station : Station.t) (v : Z) :
  v ∈ line_neighbors net station → active_station net v.
Proof.
  intros [(n & Hn & <-)|(p & Hp & <-)]%line_neighbors_elem.
  - apply first_active_at_Some in Hn as (Hin & _ & _ & Hact). by exists n.
  - apply first_active_at_Some in Hp as (Hin & _ & _ & Hact). by exists p.
Qed.

Lemma add_interchange_elem (cs : list StationConnection.t) (acc : list Z) (v : Z) :
  v ∈ fold_left add_interchange cs acc ↔
  v ∈ acc ∨ ∃ c, c ∈ cs ∧ StationConnection.to_station c = v.
Proof.
  revert acc. induction cs as [|c cs IH]; intros acc; simpl.
  - split; [by left|]. intros [?|(c & Hc & _)]; [done|]. by apply elem_of_nil in Hc.
  - rewrite IH. unfold add_interchange. split.
    + intros [Hacc|(c' & Hc' & Hv)].
      * case_bool_decide; [by left|].
        apply elem_of_app in Hacc as [?|Hv%list_elem_of_singleton]; [by left|].
        right. exists c. split; [by left|done].
      * right. exists c'. split; [by right|done].
    + intros [Hacc|(c' & Hc' & Hv)].
      * left. case_bool_decide; [done|]. apply elem_of_app. by left.
      * apply elem_of_cons in Hc' as [->|Hc'].
        -- left. case_bool_decide; [by subst v|].
           apply elem_of_app. right. by apply list_elem_of_singleton.
        -- right. by exists c'.
Qed.

Lemma station_neighbors_elem (station : Station.t) (v : Z) :
  v ∈ station_neighbors net station ↔
  v ∈ line_neighbors net station
  ∨ ∃ c, c ∈ connections net
         ∧ StationConnection.from_station c = Station.pk station
         ∧ StationConnection.connection_type c = StationConnection.interchange
         ∧ StationConnection.to_station c = v.
Proof.
  unfold station_neighbors, interchange_connections. rewrite add_interchange_elem.
  split; (intros [?|(c & Hc & Hv)]; [by left|right; exists c]).
  - apply list_elem_of_filter in Hc as [[? ?] ?]. done.
  - destruct Hv as (? & ? & ?). split; [|done]. by apply list_elem_of_filter.
Qed.

Section FoldInsert.
Variable f : Station.t → list Z.

Local Abbreviation fill := (fold_left (λ (adjacency : gmap Z (list Z)) station,
                                    <[Station.pk station := f station]> adjacency)).

Lemma fill_lookup_other (l : list Station.t) (m : gmap Z (list Z)) (k : Z) :
  (∀ s, s ∈ l → Station.pk s ≠ k) → fill l m !! k = m !! k.
Proof.
  revert m. induction l as [|a l IH]; intros m Hne; [done|]. simpl.
  rewrite IH by (intros s Hs; apply Hne; by right).
  apply lookup_insert_ne. apply Hne. by left.
Qed.

Lemma fill_lookup_Some (l : list Station.t) (m : gmap Z (list Z)) (k : Z)
      (ns : list Z) :
  fill l m !! k = Some ns →
  m !! k = Some ns ∨ ∃ s, s ∈ l ∧ Station.pk s = k ∧ ns = f s.
Proof.
  revert m. induction l as [|a l IH]; intros m Hk; [by left|]. simpl in Hk.
  apply IH in Hk as [Hk|(s & Hs & Hpk & Hns)].
  - destruct (decide (Station.pk a = k)) as [Heq|Hne].
    + rewrite <- Heq, lookup_insert_eq in Hk. simplify_eq.
      right. exists a. split; [by left|done].
    + rewrite lookup_insert_ne in Hk by done. by left.
  - right. exists s. split; [by right|done].
Qed.

Lemma fill_lookup_in (l : list Station.t) (m : gmap Z (list Z)) (s : Station.t) :
  NoDup (Station.pk <$> l) → s ∈ l → fill l m !! Station.pk s = Some (f s).
Proof.
  revert m. induction l as [|a l IH]; intros m Hnd Hs; [by apply elem_of_nil in Hs|].
  simpl in *. apply NoDup_cons in Hnd as [Ha Hnd].
  apply elem_of_cons in Hs as [->|Hs]; [|by apply IH].
  rewrite fill_lookup_other; [apply lookup_insert_eq|].
  intros s Hs Heq. apply Ha. rewrite <- Heq. by apply list_elem_of_fmap_2.
Qed.

End FoldInsert.

Lemma active_stations_elem (s : Station.t) :
  s ∈ active_stations net ↔ s ∈ stations net ∧ Station.is_active s = true.
Proof. unfold active_stations. rewrite list_elem_of_filter. tauto. Qed.

Lemma build_adjacency_Some (k : Z) (ns : list Z) :
  build_adjacency net !! k = Some ns →
  ∃ s, s ∈ stations net ∧ Station.is_active s = true ∧ Station.pk s = k
       ∧ ns = station_neighbors net s.
Proof.
  unfold build_adjacency. intros [Hk|(s & Hs & Hpk & Hns)]%fill_lookup_Some.
  - by rewrite lookup_empty in Hk.
  - apply active_stations_elem in Hs as [Hs Hact]. by exists s.
Qed.

Lemma build_adjacency_station (s : Station.t) :
  NoDup (Station.pk <$> stations net) →
  s ∈ stations net → Station.is_active s = true →
  build_adjacency net !! Station.pk s = Some (station_neighbors net s).
Proof.
  intros Hnd Hs Hact. unfold build_adjacency.
  apply (fill_lookup_in (station_neighbors net)).
  - apply (sublist_NoDup _ (Station.pk <$> stations net)); [done|].
    apply fmap_sublist. unfold active_stations. apply sublist_filter.
  - by apply active_stations_elem.
Qed.

Lemma in_graph_source (u v : Z) :
  in_graph (build_adjacency net) u v → active_station net u.
Proof.
  unfold in_graph, neighbors_of.
  destruct (build_adjacency net !! u) as [ns|] eqn:Hu; simpl;
    [|by intros ?%elem_of_nil].
  apply build_adjacency_Some in Hu as (s & Hs & Hact & Hpk & _). intros _. by exists s.
Qed.

Lemma in_graph_adjacent (u v : Z) :
  in_graph (build_adjacency net) u v → adjacent net u v.
Proof.
  unfold in_graph, neighbors_of.
  destruct (build_adjacency net !! u) as [ns|] eqn:Hu; simpl;
    [|by intros ?%elem_of_nil].
  apply build_adjacency_Some in Hu as (s & Hs & Hact & Hpk & ->).
  intros [Hline|(c & Hc & Hfrom & Hkind & Hto)]%station_neighbors_elem.
  - apply line_neighbors_elem in Hline as [(n & Hn & Hv)|(p & Hp & Hv)].
    + by eapply adjacent_next.
    + by eapply adjacent_previous.
  - eapply adjacent_interchange; try done. congruence.
Qed.

Lemma adjacent_in_graph (u v : Z) :
  NoDup (Station.pk <$> stations net) →
  adjacent net u v → in_graph (build_adjacency net) u v.
Proof.
  intros Hnd Hadj. unfold in_graph, neighbors_of.
  destruct Hadj as [s n Hs Hact <- Hn Hv|s p Hs Hact <- Hp Hv
                   |s c Hs Hact <- Hc Hfrom Hkind Hto];
    rewrite (build_adjacency_station s Hnd Hs Hact); simpl;
    apply station_neighbors_elem.
  - left. apply line_neighbors_elem. left. by exists n.
  - left. apply line_neighbors_elem. right. by exists p.
  - right. by exists c.
Qed.

End GraphFacts.

Section RouteSearchFacts.
Import Routes MetroViews.
Variable net : Network.

Local Abbreviation graph := (in_graph (build_adjacency net)).

(** What [find_shortest_path] returns, on the dictionary it builds: a
    shortest route, or [None] when there is no route; it neither raises nor
    runs out of iterations. *)
Lemma find_shortest_path_spec (origin destination : Z) :
  match find_shortest_path net origin destination with
  | ReturnPath p =>
    route graph origin destination p
    ∧ ∀ w, route graph origin destination w → length p ≤ length w
  | ReturnNone => origin ≠ destination ∧ ∀ w, ¬ route graph origin destination w
  | RaiseIndexError | OutOfFuel => False
  end.
Proof.
  unfold find_shortest_path. case_bool_decide as Heq.
  - subst destination. split; [by split|].
    intros w [Hw _ _]. destruct w; [done|]. simpl. lia.
  - pose proof (bfs_loop_spec (build_adjacency net) origin destination
                  (bfs_fuel (build_adjacency net)) [[origin]] ∅
                  (bfs_inv_initial _ _ _)) as Hspec.
    destruct (bfs_loop _ _ _ _ _); try split; try done; apply Hspec;
      unfold work_left, bfs_fuel; simpl;
      pose proof (subseteq_size (dom (build_adjacency net) ∖ ∅)
                    (dom (build_adjacency net))) as Hsize;
      (assert (dom (build_adjacency net) ∖ ∅ ⊆ dom (build_adjacency net)) as Hsub
          by (intros y Hy; by apply elem_of_difference in Hy as [Hy _]));
      specialize (Hsize Hsub); nia.
Qed.

Lemma route_first_edge (edge : Z → Z → Prop) (origin destination : Z) (w : list Z) :
  route edge origin destination w → origin ≠ destination → ∃ v, edge origin v.
Proof.
  intros [Hw Hhead Hlast] Hne. destruct w as [|x [|y w]]; simpl in *; simplify_eq.
  exists y. by destruct Hw.
Qed.

Lemma route_last_edge (edge : Z → Z → Prop) (origin destination : Z) (w : list Z) :
  route edge origin destination w → origin ≠ destination → ∃ u, edge u destination.
Proof.
  intros [Hw Hhead Hlast] Hne. apply last_Some in Hlast as [w' ->].
  destruct w' as [|u w'] using rev_ind; [simpl in *; by simplify_eq|].
  exists u. apply (is_walk_middle _ w' []). by rewrite <- app_assoc in Hw.
Qed.

Lemma route_mono (edge1 edge2 : Z → Z → Prop) (origin destination : Z) (w : list Z) :
  (∀ u v, edge1 u v → edge2 u v) →
  route edge1 origin destination w → route edge2 origin destination w.
Proof. intros Hsub [Hw Hhead Hlast]. split; [by eapply is_walk_mono|done..]. Qed.

Lemma adjacent_target (u v : Z) :
  adjacent net u v →
  active_station net v
  ∨ ∃ c, c ∈ connections net
         ∧ StationConnection.connection_type c = StationConnection.interchange
         ∧ StationConnection.to_station c = v.
Proof.
  intros [s n _ _ _ Hn <-|s p _ _ _ Hp <-|s c _ _ _ Hc _ Hkind Hto].
  - left. apply first_active_at_Some in Hn as (Hin & _ & _ & Hact). by exists n.
  - left. apply first_active_at_Some in Hp as (Hin & _ & _ & Hact). by exists p.
  - right. by exists c.
Qed.

End RouteSearchFacts.

(** C1: on station data with unique primary keys, whenever the adjacency
    rules (next and previous active station on the line of an active
    station, and the interchange connections that start at it) allow a walk
    from the origin to the destination, [find_shortest_path] returns a
    path; this path is such a walk; no walk between the two stations has
    fewer hops; and the call returns the same path each time it is made on
    the same station data. *)
Theorem find_shortest_path_minimal (net : Network) (origin destination : Z)
        (w : list Z) :
  NoDup (Station.pk <$> stations net) →
  Routes.route (Routes.adjacent net) origin destination w →
  ∃ p,
    MetroViews.find_shortest_path net origin destination = MetroViews.ReturnPath p
    ∧ Routes.route (Routes.adjacent net) origin destination p
    ∧ (∀ w', Routes.route (Routes.adjacent net) origin destination w' →
             Routes.hops p ≤ Routes.hops w')
    ∧ (∀ p1 p2,
          MetroViews.find_shortest_path net origin destination
          = MetroViews.ReturnPath p1 →
          MetroViews.find_shortest_path net origin destination
          = MetroViews.ReturnPath p2 →
          p1 = p2).
Proof.
  intros Hnd Hw.
  pose proof (find_shortest_path_spec net origin destination) as Hspec.
  destruct (MetroViews.find_shortest_path net origin destination) as [p| | |];
    [|exfalso..]; try done.
  - destruct Hspec as [Hp Hmin]. exists p. split_and!; [done| | |congruence].
    + eapply route_mono; [|done]. apply in_graph_adjacent.
    + intros w' Hw'. unfold Routes.hops.
      assert (length p ≤ length w'); [|lia].
      apply Hmin. eapply route_mono; [|done]. intros u v. by apply adjacent_in_graph.
  - destruct Hspec as [_ Hnone]. apply (Hnone w).
    eapply route_mono; [|done]. intros u v. by apply adjacent_in_graph.
Qed.

Lemma find_shortest_path_minimal_witness :
  ∃ p,
    MetroViews.find_shortest_path Examples.diamond 1 4 = MetroViews.ReturnPath p
    ∧ Routes.route (Routes.adjacent Examples.diamond) 1 4 p
    ∧ (∀ w', Routes.route (Routes.adjacent Examples.diamond) 1 4 w' →
             Routes.hops p ≤ Routes.hops w')
    ∧ (∀ p1 p2,
          MetroViews.find_shortest_path Examples.diamond 1 4
          = MetroViews.ReturnPath p1 →
          MetroViews.find_shortest_path Examples.diamond 1 4
          = MetroViews.ReturnPath p2 →
          p1 = p2).
Proof.
  apply (find_shortest_path_minimal Examples.diamond 1 4 [1; 3; 4]%Z).
  - apply (bool_decide_unpack _). vm_compute. exact I.
  - split; [|reflexivity..]. simpl. split_and!; [| |exact I].
    + apply in_graph_adjacent. vm_compute. right. left.
    + apply in_graph_adjacent. vm_compute. left.
Defined.

(** Of the two routes of two hops in [diamond], the search returns the one
    that first stays on the line. *)
Example find_shortest_path_diamond :
  MetroViews.find_shortest_path Examples.diamond 1 4 = MetroViews.ReturnPath [1; 2; 4]%Z.
Proof. vm_compute. reflexivity. Qed.

(** Membership of a station key among the active rows of a sample network,
    settled row by row. *)
Local Ltac no_active_row :=
  let s := fresh "s" in
  let Hs := fresh "Hs" in
  let Hpk := fresh "Hpk" in
  let Hact := fresh "Hact" in
  intros (s & Hs & Hpk & Hact);
  repeat (apply elem_of_cons in Hs as [->|Hs]; [by simpl in *|]);
  by apply elem_of_nil in Hs.

(** C5, as the code has it: [find_shortest_path] raises no error for a
    station that is not a known active one.  With origin and destination
    different, it returns [None] when the origin is not an active station,
    and [None] when the destination is not an active station and no
    interchange connection leads to it; in every case the call returns
    [None] or a path. *)
Theorem find_shortest_path_unknown_station (net : Network) (origin destination : Z) :
  origin ≠ destination →
  (¬ Routes.active_station net origin →
   MetroViews.find_shortest_path net origin destination = MetroViews.ReturnNone)
  ∧ (¬ Routes.active_station net destination →
     (∀ c, c ∈ connections net →
           StationConnection.connection_type c = StationConnection.interchange →
           StationConnection.to_station c ≠ destination) →
     MetroViews.find_shortest_path net origin destination = MetroViews.ReturnNone)
  ∧ (MetroViews.find_shortest_path net origin destination = MetroViews.ReturnNone
     ∨ ∃ p, MetroViews.find_shortest_path net origin destination
            = MetroViews.ReturnPath p).
Proof.
  intros Hne.
  pose proof (find_shortest_path_spec net origin destination) as Hspec.
  destruct (MetroViews.find_shortest_path net origin destination) as [p| | |];
    [|split_and!; by try left|done..].
  destruct Hspec as [Hp _]. split_and!; [| |right; by exists p].
  - intros Hinactive. destruct Hinactive.
    destruct (route_first_edge _ _ _ _ Hp Hne) as [v Hv].
    by eapply in_graph_source.
  - intros Hinactive Hnoconn.
    destruct (route_last_edge _ _ _ _ Hp Hne) as [u Hu].
    apply in_graph_adjacent, adjacent_target in Hu as [Hact|(c & Hc & Hkind & Hto)].
    + by destruct Hinactive.
    + by destruct (Hnoconn c Hc Hkind).
Qed.

Lemma find_shortest_path_unknown_station_witness :
  MetroViews.find_shortest_path Examples.city 8 1 = MetroViews.ReturnNone.
Proof.
  destruct (find_shortest_path_unknown_station Examples.city 8 1) as (Horigin & _ & _).
  - discriminate.
  - apply Horigin. no_active_row.
Defined.

(** C5 as written fails: with the closed station 8 as origin the call
    returns [None], and with it as destination the call returns a path; in
    neither case is an error raised. *)
Lemma closed_station_raises_no_error :
  ¬ Routes.active_station Examples.city 8
  ∧ MetroViews.find_shortest_path Examples.city 8 1 = MetroViews.ReturnNone
  ∧ MetroViews.find_shortest_path Examples.city 1 8
    = MetroViews.ReturnPath [1; 2; 3; 8]%Z
  ∧ MetroViews.find_shortest_path Examples.city 8 1 ≠ MetroViews.RaiseIndexError
  ∧ MetroViews.find_shortest_path Examples.city 1 8 ≠ MetroViews.RaiseIndexError.
Proof.
  split; [no_active_row|]. split_and!; by vm_compute.
Qed.

(** C6, as the code has it: a station whose own [is_active] flag is off is
    not a key of the graph, is not the next or previous neighbour of any
    station, and lies on a returned path only as its destination.  The
    [is_active] flag of the owning line is not read. *)
Theorem inactive_station_not_in_graph (net : Network) (k : Z) :
  ¬ Routes.active_station net k →
  MetroViews.build_adjacency net !! k = None
  ∧ (∀ station, k ∉ MetroViews.line_neighbors net station)
  ∧ (∀ origin destination p,
        MetroViews.find_shortest_path net origin destination = MetroViews.ReturnPath p →
        k ∈ p → k = destination).
Proof.
  intros Hinactive. split_and!.
  - destruct (MetroViews.build_adjacency net !! k) as [ns|] eqn:Hk; [|done].
    apply build_adjacency_Some in Hk as (s & Hs & Hact & Hpk & _).
    destruct Hinactive. by exists s.
  - intros station Hin. by apply line_neighbors_active in Hin.
  - intros origin destination p Hfind Hin.
    pose proof (find_shortest_path_spec net origin destination) as Hspec.
    rewrite Hfind in Hspec. destruct Hspec as [[Hw Hhead Hlast] _].
    destruct (decide (k = destination)) as [|Hne]; [done|].
    destruct (is_walk_source _ p k Hw Hin) as [v Hv]; [congruence|].
    destruct Hinactive. by eapply in_graph_source.
Qed.

Lemma inactive_station_not_in_graph_witness :
  MetroViews.build_adjacency Examples.city !! 8%Z = None
  ∧ (∀ station, 8%Z ∉ MetroViews.line_neighbors Examples.city station)
  ∧ (∀ origin destination p,
        MetroViews.find_shortest_path Examples.city origin destination
        = MetroViews.ReturnPath p →
        8%Z ∈ p → 8%Z = destination).
Proof.
  apply (inactive_station_not_in_graph Examples.city 8). no_active_row.
Defined.

(** C6 as written fails for lines out of service: station 5 is open on a
    line that is not active, and it is a key of the graph, a neighbour of
    station 4, and the middle of the path returned from 4 to 6. *)
Lemma inactive_line_station_in_graph :
  Routes.on_inactive_line Examples.city 5
  ∧ MetroViews.build_adjacency Examples.city !! 5%Z = Some [6; 4]%Z
  ∧ 5%Z ∈ MetroViews.neighbors_of (MetroViews.build_adjacency Examples.city) 4
  ∧ MetroViews.find_shortest_path Examples.city 4 6
    = MetroViews.ReturnPath [4; 5; 6]%Z.
Proof.
  split_and!.
  - exists (Station.mk 5 "B1" "B1" 2 1 false true), (MetroLine.mk 2 "Blue" false true).
    split_and!; try reflexivity.
    + do 5 right. left.
    + right. left.
  - by vm_compute.
  - vm_compute. left.
  - by vm_compute.
Qed.

(** ** Two exit scans of one ticket *)

Section ExitScans.
Import Ticket TicketsViews.
Variable H : Z.

Lemma scan_exit_accepts (self : t) (station : Station.t) (now : Z) (db : Database) :
  status self = in_use → Station.eqb station (destination self) = true →
  TicketModel.scan_exit self station now db
  = ((true, "Exit successful"),
     set_exit_time (set_status self used) now,
     with_footfall
       (TicketModel.save (set_exit_time (set_status self used) now) db)
       (DailyFootfall.record_exit (Station.pk station, date_of now)
          (DailyFootfall.get_or_create (DailyFootfall_objects db)
             (Station.pk station, date_of now)).1
          (DailyFootfall.get_or_create (DailyFootfall_objects db)
             (Station.pk station, date_of now)).2)).
Proof.
  intros Hst Heq. unfold TicketModel.scan_exit.
  rewrite bool_decide_eq_false_2 by (rewrite Hst; intros Hne; by apply Hne).
  rewrite Heq. simpl.
  by destruct (DailyFootfall.get_or_create _ _).
Qed.

Lemma scan_exit_refuses_used (self : t) (station : Station.t) (now : Z)
      (db : Database) :
  status self = used →
  TicketModel.scan_exit self station now db = ((false, "Ticket is used"), self, db).
Proof.
  intros Hst. unfold TicketModel.scan_exit.
  rewrite bool_decide_eq_true_2 by (by rewrite Hst). by rewrite Hst.
Qed.

Lemma step_start (req : scan_request) (db : Database) (ticket : t) :
  Ticket_objects db !! req_ticket_id req = Some ticket →
  scan_step H req Start db = (Loaded ticket, db).
Proof. intros Hget. simpl. by rewrite Hget. Qed.

Lemma step_exit_refused (req : scan_request) (db : Database) (ticket : t) :
  req_scan_type req = TicketScan.exit → status ticket = used →
  scan_step H req (Loaded ticket) db = (Scanned ticket false "Ticket is used", db).
Proof.
  intros Hexit Hused. simpl. unfold perform_scan.
  by rewrite Hexit, scan_exit_refuses_used.
Qed.

Lemma step_audit (req : scan_request) (db : Database) (ticket : t)
      (success : bool) (message : string) :
  scan_step H req (Scanned ticket success message) db
  = (Finished (Some (success, message)), record_scan req ticket success message db).
Proof. reflexivity. Qed.

Lemma interleave_first (req1 req2 : scan_request) (schedule : list bool)
      (p1 p2 : progress) (db : Database) :
  interleave H req1 req2 (false :: schedule) p1 p2 db
  = interleave H req1 req2 schedule (scan_step H req1 p1 db).1 p2
               (scan_step H req1 p1 db).2.
Proof. simpl. by destruct (scan_step H req1 p1 db). Qed.

Lemma interleave_second (req1 req2 : scan_request) (schedule : list bool)
      (p1 p2 : progress) (db : Database) :
  interleave H req1 req2 (true :: schedule) p1 p2 db
  = interleave H req1 req2 schedule p1 (scan_step H req2 p2 db).1
               (scan_step H req2 p2 db).2.
Proof. simpl. by destruct (scan_step H req2 p2 db). Qed.

End ExitScans.

(** C9, as the code has it: of two exit scans at the destination of a
    ticket in status [in_use], when one has run its scan before the other
    fetches the ticket, the first succeeds and moves the ticket to [used],
    the second is refused with the ticket and the footfall left as the
    first wrote them, and each request appends its own audit row.  The view
    takes no lock on the ticket. *)
Theorem exit_scans_one_after_the_other (H : Z)
        (req1 req2 : TicketsViews.scan_request) (db : Database)
        (ticket : Ticket.t) (schedule : list bool) :
  Ticket_objects db !! TicketsViews.req_ticket_id req1 = Some ticket →
  Ticket.ticket_id ticket = TicketsViews.req_ticket_id req1 →
  TicketsViews.req_ticket_id req2 = TicketsViews.req_ticket_id req1 →
  Ticket.status ticket = Ticket.in_use →
  TicketsViews.req_scan_type req1 = TicketScan.exit →
  TicketsViews.req_scan_type req2 = TicketScan.exit →
  Station.eqb (TicketsViews.req_station req1) (Ticket.destination ticket) = true →
  Station.eqb (TicketsViews.req_station req2) (Ticket.destination ticket) = true →
  schedule ∈ Guards.write_before_read →
  ∃ db1 db',
    TicketsViews.scan_ticket H req1 db = (Some (true, "Exit successful"), db1)
    ∧ TicketsViews.interleave H req1 req2 schedule
        TicketsViews.Start TicketsViews.Start db
      = (TicketsViews.Finished (Some (true, "Exit successful")),
         TicketsViews.Finished (Some (false, "Ticket is used")), db')
    ∧ Ticket_objects db' !! TicketsViews.req_ticket_id req1
      = Some (Ticket.set_exit_time (Ticket.set_status ticket Ticket.used)
                                   (TicketsViews.req_now req1))
    ∧ Ticket_objects db' = Ticket_objects db1
    ∧ DailyFootfall_objects db' = DailyFootfall_objects db1
    ∧ TicketScan_objects db'
      ≡ₚ TicketScan_objects db
         ++ [Guards.audit_row req1 true "Exit successful";
             Guards.audit_row req2 false "Ticket is used"].
Proof.
  intros Hget Hid Hid2 Hst Hexit1 Hexit2 Hdest1 Hdest2 Hsched.
  pose proof (scan_exit_accepts ticket (TicketsViews.req_station req1)
                (TicketsViews.req_now req1) db Hst Hdest1) as Hfirst.
  set (ticket' := Ticket.set_exit_time (Ticket.set_status ticket Ticket.used)
                                       (TicketsViews.req_now req1)) in *.
  set (footfall' := DailyFootfall.record_exit _ _ _) in *.
  assert (Ticket.status ticket' = Ticket.used) as Hused by done.
  assert (Ticket.ticket_id ticket' = TicketsViews.req_ticket_id req1) as Hid' by done.
  clearbody ticket' footfall'.
  assert (TicketsViews.scan_step H req1 (TicketsViews.Loaded ticket) db
          = (TicketsViews.Scanned ticket' true "Exit successful",
             with_footfall (TicketModel.save ticket' db) footfall')) as Hscan.
  { simpl. unfold TicketsViews.perform_scan. by rewrite Hexit1, Hfirst. }
  assert (TicketsViews.scan_ticket H req1 db
          = (Some (true, "Exit successful"),
             TicketsViews.record_scan req1 ticket' true "Exit successful"
               (with_footfall (TicketModel.save ticket' db) footfall'))) as Hserial.
  { unfold TicketsViews.scan_ticket, TicketsViews.perform_scan.
    by rewrite Hget, Hexit1, Hfirst. }
  assert (∀ db0, Ticket_objects db0
                 = <[TicketsViews.req_ticket_id req1 := ticket']> (Ticket_objects db) →
                 TicketsViews.scan_step H req2 TicketsViews.Start db0
                 = (TicketsViews.Loaded ticket', db0)) as Hload.
  { intros db0 Hdb0. apply step_start. rewrite Hid2, Hdb0. apply lookup_insert_eq. }
  unfold Guards.write_before_read in Hsched.
  repeat (apply elem_of_cons in Hsched as [->|Hsched]);
    [..|by apply elem_of_nil in Hsched];
    (eexists _, _; split; [exact Hserial|]);
    rewrite !interleave_first, (step_start H req1 db ticket Hget); cbn [fst snd];
    rewrite Hscan; cbn [fst snd];
    repeat first
           [ rewrite interleave_first, step_audit; cbn [fst snd]
           | rewrite interleave_second, step_audit; cbn [fst snd]
           | rewrite interleave_second, Hload by (simpl; by rewrite Hid'); cbn [fst snd]
           | rewrite interleave_second, (step_exit_refused H req2 _ ticket' Hexit2 Hused);
             cbn [fst snd] ];
    (split; [reflexivity|]); simpl; rewrite Hid'.
  all: split_and!; [apply lookup_insert_eq|done|done|].
  all: unfold Guards.audit_row; rewrite Hid2, <- app_assoc; simpl.
  all: apply Permutation_app; [done|]; first [done|apply perm_swap].
Qed.

Lemma exit_scans_one_after_the_other_witness :
  ∃ db1 db',
    TicketsViews.scan_ticket Examples.two_hours (Examples.exit_at_c 100 100)
      (Examples.db_of (Examples.ticket_ac Ticket.in_use))
    = (Some (true, "Exit successful"), db1)
    ∧ TicketsViews.interleave Examples.two_hours
        (Examples.exit_at_c 100 100) (Examples.exit_at_c 101 101)
        [false; false; true; false; true; true]
        TicketsViews.Start TicketsViews.Start
        (Examples.db_of (Examples.ticket_ac Ticket.in_use))
      = (TicketsViews.Finished (Some (true, "Exit successful")),
         TicketsViews.Finished (Some (false, "Ticket is used")), db')
    ∧ Ticket_objects db' !! 7%Z
      = Some (Ticket.set_exit_time
                (Ticket.set_status (Examples.ticket_ac Ticket.in_use) Ticket.used) 100)
    ∧ Ticket_objects db' = Ticket_objects db1
    ∧ DailyFootfall_objects db' = DailyFootfall_objects db1
    ∧ TicketScan_objects db'
      ≡ₚ [Guards.audit_row (Examples.exit_at_c 100 100) true "Exit successful";
          Guards.audit_row (Examples.exit_at_c 101 101) false "Ticket is used"].
Proof.
  apply (exit_scans_one_after_the_other Examples.two_hours
           (Examples.exit_at_c 100 100) (Examples.exit_at_c 101 101)
           (Examples.db_of (Examples.ticket_ac Ticket.in_use))
           (Examples.ticket_ac Ticket.in_use)
           [false; false; true; false; true; true]);
    try reflexivity.
  right. left.
Defined.

(** C9 as written fails when the two requests overlap: if both fetch the
    ticket before either scans it, both exit scans succeed, and the exit is
    counted twice in the footfall of the station. *)
Lemma overlapping_exit_scans_both_succeed :
  Ticket.status (Examples.ticket_ac Ticket.in_use) = Ticket.in_use
  ∧ (TicketsViews.interleave Examples.two_hours
       (Examples.exit_at_c 100 100) (Examples.exit_at_c 101 101)
       [false; true; false; true; false; true]
       TicketsViews.Start TicketsViews.Start
       (Examples.db_of (Examples.ticket_ac Ticket.in_use))).1
    = (TicketsViews.Finished (Some (true, "Exit successful")),
       TicketsViews.Finished (Some (true, "Exit successful")))
  ∧ DailyFootfall_objects
      (TicketsViews.interleave Examples.two_hours
         (Examples.exit_at_c 100 100) (Examples.exit_at_c 101 101)
         [false; true; false; true; false; true]
         TicketsViews.Start TicketsViews.Start
         (Examples.db_of (Examples.ticket_ac Ticket.in_use))).2
    !! (3%Z, 0%Z)
    = Some (DailyFootfall.mk 0 2).
Proof. split_and!; by vm_compute. Qed.

(** ** A journey from A to C on a single line *)

(** The route, its fare under the default constants, and the outcomes of
    an entry scan at A, an exit scan at C and a second exit scan at C. *)
Example journey_a_to_c :
  MetroViews.find_shortest_path Examples.line_abc 1 3
  = MetroViews.ReturnPath [1; 2; 3]%Z
  ∧ MetroViews.calculate_fare 10 5 [1; 2; 3]%Z = 20%Z
  ∧ (TicketsViews.scan_ticket Examples.two_hours Examples.entry_at_a
       (Examples.db_of (Examples.ticket_ac Ticket.active))).1
    = Some (true, "Entry successful")
  ∧ (TicketsViews.scan_ticket Examples.two_hours (Examples.exit_at_c 100 20)
       (TicketsViews.scan_ticket Examples.two_hours Examples.entry_at_a
          (Examples.db_of (Examples.ticket_ac Ticket.active))).2).1
    = Some (true, "Exit successful")
  ∧ (TicketsViews.scan_ticket Examples.two_hours (Examples.exit_at_c 100 30)
       (TicketsViews.scan_ticket Examples.two_hours (Examples.exit_at_c 100 20)
          (TicketsViews.scan_ticket Examples.two_hours Examples.entry_at_a
             (Examples.db_of (Examples.ticket_ac Ticket.active))).2).2).1
    = Some (false, "Ticket is used").
Proof. split_and!; by vm_compute. Qed.

(** * Further properties *)

(** ** Scans of one ticket *)

Section ScanFacts.
Import Ticket Trace.
Variable H : Z.

Lemma apply_call_leaves_active (s : t * Database) (c : call) :
  status s.1 ≠ active → status (apply_call H s c).1 ≠ active.
Proof.
  intros Hst. destruct (apply_call_status H s c) as [Heq|Hstep].
  - by rewrite Heq.
  - by inversion Hstep.
Qed.

Lemma apply_call_keeps_terminal (s : t * Database) (c : call) :
  status s.1 = used ∨ status s.1 = expired →
  status (apply_call H s c).1 = used ∨ status (apply_call H s c).1 = expired.
Proof.
  intros Hterm. destruct (apply_call_status H s c) as [Heq|Hstep].
  - by rewrite Heq.
  - destruct Hterm as [Hu|He]; rewrite ?Hu, ?He in Hstep; inversion Hstep.
Qed.

Lemma granted_entry_status (s : t * Database) (c : call) :
  Journal.granted H TicketScan.entry s c = true →
  status s.1 = active ∧ status (apply_call H s c).1 = in_use.
Proof.
  destruct s as [self db], c as [station now|station now|now]; simpl; [|done..].
  unfold TicketModel.scan_entry.
  case_bool_decide as Hst; [done|].
  assert (status self = active) as Ha by (destruct (status self); congruence).
  destruct (TicketModel.is_expired H self now); [done|].
  destruct (Station.eqb station (origin self)); simpl; [|done].
  by destruct (DailyFootfall.get_or_create _ _).
Qed.

Lemma granted_exit_status (s : t * Database) (c : call) :
  Journal.granted H TicketScan.exit s c = true →
  status s.1 = in_use ∧ status (apply_call H s c).1 = used.
Proof.
  destruct s as [self db], c as [station now|station now|now]; simpl; [done| |done].
  unfold TicketModel.scan_exit.
  case_bool_decide as Hst; [done|].
  assert (status self = in_use) as Ha by (destruct (status self); congruence).
  destruct (Station.eqb station (destination self)); simpl; [|done].
  by destruct (DailyFootfall.get_or_create _ _).
Qed.

Lemma no_entry_once_left (calls : list call) (s : t * Database) :
  status s.1 ≠ active → Journal.count_granted H TicketScan.entry calls s = 0.
Proof.
  revert s. induction calls as [|c calls IH]; intros s Hst; [done|]. cbn [Journal.count_granted].
  rewrite IH by by apply apply_call_leaves_active.
  destruct (Journal.granted H TicketScan.entry s c) eqn:Hg; [|done].
  apply granted_entry_status in Hg as [Ha _]. done.
Qed.

Lemma no_exit_once_terminal (calls : list call) (s : t * Database) :
  status s.1 = used ∨ status s.1 = expired →
  Journal.count_granted H TicketScan.exit calls s = 0.
Proof.
  revert s. induction calls as [|c calls IH]; intros s Hst; [done|]. cbn [Journal.count_granted].
  rewrite IH by by apply apply_call_keeps_terminal.
  destruct (Journal.granted H TicketScan.exit s c) eqn:Hg; [|done].
  apply granted_exit_status in Hg as [Ha _].
  destruct Hst as [Hst|Hst]; congruence.
Qed.

End ScanFacts.

(** X1: along any sequence of [scan_entry], [scan_exit] and
    [check_and_update_expiry] calls on a ticket, at most one entry scan and
    at most one exit scan return [True], whatever the stations and
    instants of the calls. *)
Theorem one_entry_one_exit (H : Z) (calls : list Trace.call)
        (s : Ticket.t * Database) :
  Journal.count_granted H TicketScan.entry calls s ≤ 1
  ∧ Journal.count_granted H TicketScan.exit calls s ≤ 1.
Proof.
  split.
  - revert s. induction calls as [|c calls IH]; intros s; cbn [Journal.count_granted]; [lia|].
    destruct (Journal.granted H TicketScan.entry s c) eqn:Hg; [|apply IH].
    apply granted_entry_status in Hg as [_ Hin].
    rewrite no_entry_once_left; [lia|]. by rewrite Hin.
  - revert s. induction calls as [|c calls IH]; intros s; cbn [Journal.count_granted]; [lia|].
    destruct (Journal.granted H TicketScan.exit s c) eqn:Hg; [|apply IH].
    apply granted_exit_status in Hg as [_ Hused].
    rewrite no_exit_once_terminal; [lia|]. by left.
Qed.

Section FootfallFacts.
Import Ticket Trace.
Variable H : Z.

Lemma footfall_le_refl (row : option DailyFootfall.t) : Journal.footfall_le row row.
Proof. destruct row as [row|]; [|done]. exists row. split; [done|lia]. Qed.

Lemma footfall_le_trans (a b c : option DailyFootfall.t) :
  Journal.footfall_le a b → Journal.footfall_le b c → Journal.footfall_le a c.
Proof.
  destruct a as [ra|]; [|done]. intros (rb & -> & ? & ?) (rc & -> & ? & ?).
  exists rc. split; [done|lia].
Qed.

Lemma record_entry_le (objects : DailyFootfall.table) (key key' : Z * Z) :
  Journal.footfall_le
    (objects !! key')
    (DailyFootfall.record_entry key (DailyFootfall.get_or_create objects key).1
                                (DailyFootfall.get_or_create objects key).2 !! key').
Proof.
  unfold DailyFootfall.record_entry, DailyFootfall.get_or_create, DailyFootfall.save.
  destruct (decide (key = key')) as [<-|Hne].
  - destruct (objects !! key) as [row|] eqn:Hrow; simpl; [|done].
    rewrite lookup_insert_eq. eexists. split; [done|]. simpl. lia.
  - destruct (objects !! key) as [row|] eqn:Hrow; simpl;
      rewrite !lookup_insert_ne by done; apply footfall_le_refl.
Qed.

Lemma record_exit_le (objects : DailyFootfall.table) (key key' : Z * Z) :
  Journal.footfall_le
    (objects !! key')
    (DailyFootfall.record_exit key (DailyFootfall.get_or_create objects key).1
                               (DailyFootfall.get_or_create objects key).2 !! key').
Proof.
  unfold DailyFootfall.record_exit, DailyFootfall.get_or_create, DailyFootfall.save.
  destruct (decide (key = key')) as [<-|Hne].
  - destruct (objects !! key) as [row|] eqn:Hrow; simpl; [|done].
    rewrite lookup_insert_eq. eexists. split; [done|]. simpl. lia.
  - destruct (objects !! key) as [row|] eqn:Hrow; simpl;
      rewrite !lookup_insert_ne by done; apply footfall_le_refl.
Qed.

Lemma apply_call_footfall (s : t * Database) (c : call) (key : Z * Z) :
  Journal.footfall_le (DailyFootfall_objects s.2 !! key)
                      (DailyFootfall_objects (apply_call H s c).2 !! key).
Proof.
  destruct s as [self db], c as [station now|station now|now]; simpl.
  - unfold TicketModel.scan_entry.
    case_bool_decide; [apply footfall_le_refl|].
    destruct (TicketModel.is_expired H self now); [apply footfall_le_refl|].
    destruct (Station.eqb station (origin self)); simpl; [|apply footfall_le_refl].
    pose proof (record_entry_le (DailyFootfall_objects db)
                  (Station.pk station, date_of now) key) as Hle.
    by destruct (DailyFootfall.get_or_create _ _).
  - unfold TicketModel.scan_exit.
    case_bool_decide; [apply footfall_le_refl|].
    destruct (Station.eqb station (destination self)); simpl; [|apply footfall_le_refl].
    pose proof (record_exit_le (DailyFootfall_objects db)
                  (Station.pk station, date_of now) key) as Hle.
    by destruct (DailyFootfall.get_or_create _ _).
  - unfold TicketModel.check_and_update_expiry.
    destruct (bool_decide _ && _); apply footfall_le_refl.
Qed.

End FootfallFacts.

(** X2: along any sequence of [scan_entry], [scan_exit] and
    [check_and_update_expiry] calls, no footfall row is removed and neither
    counter of any row decreases. *)
Theorem footfall_never_decreases (H : Z) (calls : list Trace.call)
        (s : Ticket.t * Database) (key : Z * Z) :
  Journal.footfall_le (DailyFootfall_objects s.2 !! key)
                      (DailyFootfall_objects (Trace.run H calls s).2 !! key).
Proof.
  revert s. induction calls as [|c calls IH]; intros s; [apply footfall_le_refl|].
  eapply footfall_le_trans; [apply (apply_call_footfall H s c)|apply IH].
Qed.

(** X3: [scan_ticket] of an unknown ticket id changes nothing and writes no
    audit row.  For a known ticket it appends exactly one audit row, which
    carries the outcome of the scan, keeps all earlier audit rows, and
    leaves every other ticket and every footfall row other than that of
    (station, today) as they were. *)
Theorem scan_ticket_frame (H : Z) (req : TicketsViews.scan_request) (db : Database) :
  match Ticket_objects db !! TicketsViews.req_ticket_id req with
  | None => TicketsViews.scan_ticket H req db = (None, db)
  | Some ticket =>
    ∃ success message db',
      TicketsViews.scan_ticket H req db = (Some (success, message), db')
      ∧ TicketScan_objects db'
        = TicketScan_objects db
          ++ [TicketScan.mk (Ticket.ticket_id ticket)
                            (Station.pk (TicketsViews.req_station req))
                            (TicketsViews.req_scan_type req)
                            (TicketsViews.req_user req)
                            (TicketsViews.req_now req) success message]
      ∧ (∀ id, id ≠ Ticket.ticket_id ticket →
               Ticket_objects db' !! id = Ticket_objects db !! id)
      ∧ (∀ key, key ≠ (Station.pk (TicketsViews.req_station req),
                       date_of (TicketsViews.req_now req)) →
                DailyFootfall_objects db' !! key = DailyFootfall_objects db !! key)
  end.
Proof.
  unfold TicketsViews.scan_ticket.
  destruct (Ticket_objects db !! TicketsViews.req_ticket_id req) as [ticket|]; [|done].
  assert (∃ success message ticket' db1,
            TicketsViews.perform_scan H req ticket db = ((success, message), ticket', db1)
            ∧ Ticket.ticket_id ticket' = Ticket.ticket_id ticket
            ∧ TicketScan_objects db1 = TicketScan_objects db
            ∧ (∀ id, id ≠ Ticket.ticket_id ticket →
                     Ticket_objects db1 !! id = Ticket_objects db !! id)
            ∧ (∀ key, key ≠ (Station.pk (TicketsViews.req_station req),
                             date_of (TicketsViews.req_now req)) →
                      DailyFootfall_objects db1 !! key = DailyFootfall_objects db !! key))
    as (success & message & ticket' & db1 & Hscan & Hid & Hscans & Htickets & Hfoot).
  { unfold TicketsViews.perform_scan.
    destruct (TicketsViews.req_scan_type req).
    - unfold TicketModel.scan_entry.
      case_bool_decide; [by eexists _, _, _, _|].
      destruct (TicketModel.is_expired H ticket _).
      { eexists _, _, _, _. split; [done|]. split_and!; try done.
        intros id Hid. simpl. by rewrite lookup_insert_ne. }
      destruct (Station.eqb _ _); simpl; [|by eexists _, _, _, _].
      unfold DailyFootfall.get_or_create.
      destruct (DailyFootfall_objects _ !! _) eqn:Hrow;
        (eexists _, _, _, _; split; [done|]; split_and!; try done;
         [intros id Hid; simpl; by rewrite lookup_insert_ne
         |intros key Hkey; simpl;
          unfold DailyFootfall.record_entry, DailyFootfall.save;
          by rewrite !lookup_insert_ne]).
    - unfold TicketModel.scan_exit.
      case_bool_decide; [by eexists _, _, _, _|].
      destruct (Station.eqb _ _); simpl; [|by eexists _, _, _, _].
      unfold DailyFootfall.get_or_create.
      destruct (DailyFootfall_objects _ !! _) eqn:Hrow;
        (eexists _, _, _, _; split; [done|]; split_and!; try done;
         [intros id Hid; simpl; by rewrite lookup_insert_ne
         |intros key Hkey; simpl;
          unfold DailyFootfall.record_exit, DailyFootfall.save;
          by rewrite !lookup_insert_ne]). }
  rewrite Hscan. eexists success, message, _. split; [done|].
  unfold TicketsViews.record_scan. simpl. rewrite Hid, Hscans. done.
Qed.

(** X4: an exit scan at the destination of a ticket in status [in_use]
    succeeds at any instant, however long after the purchase: it sets the
    status to [used] and [exit_time] to [now], keeps [entry_time], saves
    the ticket, and adds exactly one to [exit_count] of the footfall row of
    (station, today), which starts from zero counts when absent. *)
Theorem scan_exit_success (self : Ticket.t) (station : Station.t) (now : Z)
        (db : Database) :
  Ticket.status self = Ticket.in_use →
  Station.pk station = Station.pk (Ticket.destination self) →
  ∃ self' db',
    TicketModel.scan_exit self station now db
    = ((true, "Exit successful"), self', db')
    ∧ Ticket.status self' = Ticket.used
    ∧ Ticket.exit_time self' = Some now
    ∧ Ticket.entry_time self' = Ticket.entry_time self
    ∧ Ticket_objects db' !! Ticket.ticket_id self = Some self'
    ∧ DailyFootfall_objects db' !! (Station.pk station, date_of now)
      = Some (DailyFootfall.mk
                (DailyFootfall.entry_count
                   (default (DailyFootfall.mk 0 0)
                      (DailyFootfall_objects db !! (Station.pk station, date_of now))))
                (DailyFootfall.exit_count
                   (default (DailyFootfall.mk 0 0)
                      (DailyFootfall_objects db !! (Station.pk station, date_of now)))
                 + 1))
    ∧ ∀ key, key ≠ (Station.pk station, date_of now) →
             DailyFootfall_objects db' !! key = DailyFootfall_objects db !! key.
Proof.
  intros Hst Hdest.
  unfold TicketModel.scan_exit.
  rewrite bool_decide_eq_false_2 by (rewrite Hst; intros Hne; by apply Hne).
  unfold Station.eqb. rewrite Hdest, Z.eqb_refl. simpl negb. cbv iota.
  unfold DailyFootfall.get_or_create, TicketModel.save. simpl DailyFootfall_objects.
  rewrite <- Hdest.
  destruct (DailyFootfall_objects db !! (Station.pk station, date_of now))
    as [row|] eqn:Hrow;
    (eexists _, _; split; [reflexivity|]; split_and!; try done;
     [simpl; apply lookup_insert_eq
     |simpl; unfold DailyFootfall.record_exit, DailyFootfall.save;
      by rewrite lookup_insert_eq
     |intros key Hkey; simpl;
      unfold DailyFootfall.record_exit, DailyFootfall.save;
      by rewrite !lookup_insert_ne]).
Qed.

Lemma scan_exit_success_witness :
  ∃ self' db',
    TicketModel.scan_exit (Examples.ticket_ac Ticket.in_use) Examples.station_c
      1000000 (Examples.db_of (Examples.ticket_ac Ticket.in_use))
    = ((true, "Exit successful"), self', db')
    ∧ Ticket.status self' = Ticket.used
    ∧ Ticket.exit_time self' = Some 1000000%Z
    ∧ Ticket.entry_time self' = None
    ∧ Ticket_objects db' !! 7%Z = Some self'
    ∧ DailyFootfall_objects db' !! (3%Z, 11%Z) = Some (DailyFootfall.mk 0 1)
    ∧ ∀ key, key ≠ (3%Z, 11%Z) → DailyFootfall_objects db' !! key = None.
Proof.
  apply (scan_exit_success (Examples.ticket_ac Ticket.in_use) Examples.station_c
           1000000 (Examples.db_of (Examples.ticket_ac Ticket.in_use)));
    reflexivity.
Defined.

(** ** Returned routes *)

Section SimplePathFacts.
Import Routes MetroViews.
Variable edge : Z → Z → Prop.

Lemma is_walk_prefix (l1 l2 : list Z) (x : Z) :
  is_walk edge (l1 ++ x :: l2) → is_walk edge (l1 ++ [x]).
Proof.
  induction l1 as [|a [|b l1] IH]; simpl; [done| |].
  - destruct l2; [done|]. by intros [? _].
  - intros [Hab Hw]. split; [done|]. by apply IH.
Qed.

Lemma is_walk_suffix (l1 l2 : list Z) (x : Z) :
  is_walk edge (l1 ++ x :: l2) → is_walk edge (x :: l2).
Proof.
  induction l1 as [|a l1 IH]; [done|]. simpl.
  destruct (l1 ++ x :: l2) eqn:Heq; [by destruct l1|]. intros [_ Hw]. by apply IH.
Qed.

Lemma is_walk_join (l1 l2 : list Z) (x : Z) :
  is_walk edge (l1 ++ [x]) → is_walk edge (x :: l2) → is_walk edge (l1 ++ x :: l2).
Proof.
  intros H1 H2. induction l1 as [|a [|b l1] IH]; simpl in *; [done| |].
  - by destruct H1.
  - destruct H1 as [Hab H1]. split; [done|]. by apply IH.
Qed.

Lemma repeated_station_split (l : list Z) :
  ¬ NoDup l → ∃ x l1 l2 l3, l = l1 ++ x :: l2 ++ x :: l3.
Proof.
  induction l as [|a l IH]; intros Hdup; [destruct Hdup; constructor|].
  destruct (decide (a ∈ l)) as [Hin|Hnotin].
  - apply list_elem_of_split in Hin as (l2 & l3 & ->). by exists a, [], l2, l3.
  - destruct IH as (x & l1 & l2 & l3 & ->).
    { intros Hnd. apply Hdup. by constructor. }
    by exists x, (a :: l1), l2, l3.
Qed.

(** A walk that visits a station twice can be cut to a shorter walk between
    the same two stations. *)
Lemma route_cut (origin destination : Z) (w : list Z) :
  route edge origin destination w → ¬ NoDup w →
  ∃ w', route edge origin destination w' ∧ length w' < length w.
Proof.
  intros [Hw Hhead Hlast] (x & l1 & l2 & l3 & ->)%repeated_station_split.
  exists (l1 ++ x :: l3). split; [split|].
  - apply is_walk_join; [by eapply is_walk_prefix|].
    apply (is_walk_suffix (l1 ++ x :: l2)). by rewrite <- app_assoc.
  - by destruct l1.
  - rewrite last_app in Hlast |- *. simpl in *.
    rewrite last_cons in Hlast |- *.
    rewrite last_app in Hlast. simpl in Hlast. rewrite last_cons in Hlast.
    by destruct (last l3).
  - rewrite !length_app. simpl. rewrite length_app. simpl. lia.
Qed.

End SimplePathFacts.

Section ReturnedRouteFacts.
Import Routes MetroViews.
Variable net : Network.

Lemma returned_path_NoDup (origin destination : Z) (p : list Z) :
  find_shortest_path net origin destination = ReturnPath p → NoDup p.
Proof.
  intros Hfind.
  pose proof (find_shortest_path_spec net origin destination) as Hspec.
  rewrite Hfind in Hspec. destruct Hspec as [Hp Hmin].
  destruct (decide (NoDup p)) as [|Hdup]; [done|].
  destruct (route_cut _ _ _ _ Hp Hdup) as (w' & Hw' & Hlen).
  apply Hmin in Hw'. lia.
Qed.

Lemma graph_key_active (k : Z) :
  is_Some (build_adjacency net !! k) → k ∈ Station.pk <$> active_stations net.
Proof.
  intros [ns (s & Hs & Hact & <- & _)%build_adjacency_Some].
  apply list_elem_of_fmap_2. by apply active_stations_elem.
Qed.

Lemma returned_path_length (origin destination : Z) (p : list Z) :
  find_shortest_path net origin destination = ReturnPath p →
  length p ≤ S (length (active_stations net)).
Proof.
  intros Hfind. pose proof (returned_path_NoDup _ _ _ Hfind) as Hnd.
  pose proof (find_shortest_path_spec net origin destination) as Hspec.
  rewrite Hfind in Hspec. destruct Hspec as [[Hw Hhead Hlast] _].
  apply last_Some in Hlast as [init ->].
  apply NoDup_app in Hnd as (Hinit & Hfresh & _).
  rewrite length_app. simpl.
  assert (length init ≤ length (Station.pk <$> active_stations net)) as Hle.
  { apply submseteq_length, NoDup_submseteq; [done|]. intros x Hx.
    apply graph_key_active.
    destruct (is_walk_source _ (init ++ [destination]) x Hw) as [v Hv].
    - apply elem_of_app. by left.
    - rewrite last_snoc. intros Heq. injection Heq as Heq.
      apply (Hfresh x Hx). rewrite Heq. by left.
    - unfold in_graph, neighbors_of in Hv.
      destruct (build_adjacency net !! x); [done|]. by apply elem_of_nil in Hv. }
  rewrite length_fmap in Hle. lia.
Qed.

Lemma route_fare (base per : Z) (edge : Z → Z → Prop) (origin destination : Z)
      (w : list Z) :
  route edge origin destination w → origin ≠ destination →
  2 ≤ length w
  ∧ calculate_fare base per w = (base + per * Z.of_nat (hops w))%Z.
Proof.
  intros [Hw Hhead Hlast] Hne. destruct w as [|x [|y w]]; simpl in *; simplify_eq.
  split; [lia|]. unfold calculate_fare, hops.
  rewrite bool_decide_eq_false_2 by discriminate.
  rewrite bool_decide_eq_false_2 by (simpl; lia). simpl orb. cbv iota.
  simpl length. lia.
Qed.

Lemma returned_fare_least (base per : Z) (origin destination : Z) (p w : list Z) :
  NoDup (Station.pk <$> stations net) → origin ≠ destination → (0 ≤ per)%Z →
  find_shortest_path net origin destination = ReturnPath p →
  route (adjacent net) origin destination w →
  (calculate_fare base per p ≤ calculate_fare base per w)%Z.
Proof.
  intros Hnd Hne Hper Hfind Hw.
  pose proof (find_shortest_path_spec net origin destination) as Hspec.
  rewrite Hfind in Hspec. destruct Hspec as [Hp Hmin].
  assert (route (in_graph (build_adjacency net)) origin destination w) as Hw'.
  { eapply route_mono; [|done]. intros u v. by apply adjacent_in_graph. }
  destruct (route_fare base per _ _ _ _ Hp Hne) as [? ->].
  destruct (route_fare base per _ _ _ _ Hw' Hne) as [? ->].
  specialize (Hmin w Hw'). unfold hops. nia.
Qed.

End ReturnedRouteFacts.

(** X5: every call of [find_shortest_path] returns: either a path, which is
    then a walk of the adjacency rules from the origin to the destination,
    or [None], and then the two stations differ and, primary keys being
    unique, no such walk exists.  The search neither raises nor loops. *)
Theorem find_shortest_path_returns (net : Network) (origin destination : Z) :
  (∃ p, MetroViews.find_shortest_path net origin destination = MetroViews.ReturnPath p
        ∧ Routes.route (Routes.adjacent net) origin destination p)
  ∨ (MetroViews.find_shortest_path net origin destination = MetroViews.ReturnNone
     ∧ origin ≠ destination
     ∧ (NoDup (Station.pk <$> stations net) →
        ∀ w, ¬ Routes.route (Routes.adjacent net) origin destination w)).
Proof.
  pose proof (find_shortest_path_spec net origin destination) as Hspec.
  destruct (MetroViews.find_shortest_path net origin destination) as [p| | |];
    [left|right|done..].
  - destruct Hspec as [Hp _]. exists p. split; [done|].
    eapply route_mono; [|done]. apply in_graph_adjacent.
  - destruct Hspec as [Hne Hnone]. split_and!; [done..|].
    intros Hnd w Hw. apply (Hnone w).
    eapply route_mono; [|done]. intros u v. by apply adjacent_in_graph.
Qed.

(** X6: a path returned by [find_shortest_path] passes through no station
    twice, and has at most as many hops as there are active stations. *)
Theorem returned_path_is_simple (net : Network) (origin destination : Z)
        (p : list Z) :
  MetroViews.find_shortest_path net origin destination = MetroViews.ReturnPath p →
  NoDup p ∧ Routes.hops p ≤ length (MetroViews.active_stations net).
Proof.
  intros Hfind. split; [by eapply returned_path_NoDup|].
  pose proof (returned_path_length net _ _ _ Hfind). unfold Routes.hops. lia.
Qed.

Lemma returned_path_is_simple_witness :
  NoDup [1; 2; 4; 5; 6]%Z
  ∧ Routes.hops [1; 2; 4; 5; 6]%Z ≤ length (MetroViews.active_stations Examples.city).
Proof.
  apply (returned_path_is_simple Examples.city 1 6). by vm_compute.
Defined.

(** X7: the fare of a path returned by [find_shortest_path] between two
    different stations is the base fare plus the per-station fare for each
    hop, at least one hop; and when the per-station fare is not negative it
    is the least fare of any walk between the two stations, and at most the
    base fare plus the per-station fare for each active station. *)
Theorem fare_of_returned_path (net : Network) (base per : Z)
        (origin destination : Z) (p : list Z) :
  NoDup (Station.pk <$> stations net) →
  origin ≠ destination →
  MetroViews.find_shortest_path net origin destination = MetroViews.ReturnPath p →
  1 ≤ Routes.hops p
  ∧ MetroViews.calculate_fare base per p = (base + per * Z.of_nat (Routes.hops p))%Z
  ∧ ((0 ≤ per)%Z →
     (∀ w, Routes.route (Routes.adjacent net) origin destination w →
           (MetroViews.calculate_fare base per p ≤ MetroViews.calculate_fare base per w)%Z)
     ∧ (MetroViews.calculate_fare base per p
        ≤ base + per * Z.of_nat (length (MetroViews.active_stations net)))%Z).
Proof.
  intros Hnd Hne Hfind.
  pose proof (find_shortest_path_spec net origin destination) as Hspec.
  rewrite Hfind in Hspec. destruct Hspec as [Hp _].
  pose proof (returned_path_length net _ _ _ Hfind) as Hbound.
  destruct (route_fare base per _ _ _ _ Hp Hne) as [Hlen Hfare].
  unfold Routes.hops in *. split_and!; [lia|done|]. intros Hper. split.
  - intros w Hw. by eapply returned_fare_least.
  - rewrite Hfare. nia.
Qed.

Lemma fare_of_returned_path_witness :
  1 ≤ Routes.hops [1; 2; 4]%Z
  ∧ MetroViews.calculate_fare 10 5 [1; 2; 4]%Z
    = (10 + 5 * Z.of_nat (Routes.hops [1; 2; 4]%Z))%Z
  ∧ ((0 ≤ 5)%Z →
     (∀ w, Routes.route (Routes.adjacent Examples.diamond) 1 4 w →
           (MetroViews.calculate_fare 10 5 [1; 2; 4]%Z
            ≤ MetroViews.calculate_fare 10 5 w)%Z)
     ∧ (MetroViews.calculate_fare 10 5 [1; 2; 4]%Z
        ≤ 10 + 5 * Z.of_nat (length (MetroViews.active_stations Examples.diamond)))%Z).
Proof.
  apply (fare_of_returned_path Examples.diamond 10 5 1 4 [1; 2; 4]%Z).
  - apply (bool_decide_unpack _). vm_compute. exact I.
  - discriminate.
  - by vm_compute.
Defined.

(** ** Buying tickets *)

Section SalesFacts.
Import TicketSales.
Variable net : Network.

Lemma clean_station_Some (k : Z) (s : Station.t) :
  clean_station net k = Some s →
  s ∈ stations net ∧ Station.pk s = k ∧ Station.is_active s = true.
Proof.
  unfold clean_station. intros Hfind. apply find_some in Hfind as [Hin Hs].
  apply andb_true_iff in Hs as [Hpk Hact]. apply bool_decide_eq_true in Hpk.
  split_and!; [by apply list_elem_of_In|done..].
Qed.

Lemma clean_journey_Some (origin destination : Z) (o d : Station.t) :
  clean_journey net origin destination = Some (o, d) →
  clean_station net origin = Some o ∧ clean_station net destination = Some d
  ∧ origin ≠ destination.
Proof.
  unfold clean_journey.
  destruct (clean_station net origin) as [o'|] eqn:Ho; [|done].
  destruct (clean_station net destination) as [d'|] eqn:Hd; [|done].
  destruct (Station.eqb o' d') eqn:Heq; [done|]. intros [= -> ->].
  split_and!; [done..|].
  apply clean_station_Some in Ho as (_ & <- & _).
  apply clean_station_Some in Hd as (_ & <- & _).
  unfold Station.eqb in Heq. lia.
Qed.

Lemma clean_journey_pks (origin destination : Z) (o d : Station.t) :
  clean_journey net origin destination = Some (o, d) →
  Station.pk o = origin ∧ Station.pk d = destination.
Proof.
  intros (Ho & Hd & _)%clean_journey_Some.
  apply clean_station_Some in Ho as (_ & ? & _).
  apply clean_station_Some in Hd as (_ & ? & _). done.
Qed.

End SalesFacts.

Lemma purchase_ticket_inv (base per : Z) (net : Network)
      (req : TicketSales.purchase_request) (user user' : User.t)
      (site site' : Site) (ticket : Ticket.t) :
  TicketSales.purchase_ticket base per net req user site
  = (TicketSales.Purchased ticket, user', site') →
  ∃ origin destination line path,
    TicketSales.clean_station net (TicketSales.pur_origin req) = Some origin
    ∧ TicketSales.clean_station net (TicketSales.pur_destination req) = Some destination
    ∧ TicketSales.pur_origin req ≠ TicketSales.pur_destination req
    ∧ TicketSales.line_of net origin = Some line
    ∧ MetroLine.is_active line = true
    ∧ MetroLine.ticket_booking_enabled line = true
    ∧ MetroViews.find_shortest_path net (TicketSales.pur_origin req)
                                    (TicketSales.pur_destination req)
      = MetroViews.ReturnPath path
    ∧ ticket = Ticket.mk (TicketSales.pur_ticket_id req) (User.pk user)
                         origin destination
                         (MetroViews.calculate_fare base per path)
                         Ticket.active (TicketSales.pur_now req) None None path
    ∧ (Ticket.price ticket ≤ User.balance user)%Z
    ∧ user' = User.set_balance user (User.balance user - Ticket.price ticket)
    ∧ User_objects site' = <[User.pk user := user']> (User_objects site)
    ∧ Ticket_objects (site_db site) !! TicketSales.pur_ticket_id req = None
    ∧ site_db site'
      = with_tickets (site_db site)
          (<[TicketSales.pur_ticket_id req := ticket]> (Ticket_objects (site_db site))).
Proof.
  unfold TicketSales.purchase_ticket.
  destruct (TicketSales.clean_journey net _ _) as [[origin destination]|] eqn:Hclean;
    [|done].
  destruct (clean_journey_pks _ _ _ _ _ Hclean) as [Ho Hd].
  apply clean_journey_Some in Hclean as (Horigin & Hdest & Hne).
  rewrite Ho, Hd.
  destruct (TicketSales.line_of net origin) as [line|] eqn:Hline; [|done].
  destruct (MetroLine.is_active line) eqn:Hactive; [|done].
  destruct (MetroLine.ticket_booking_enabled line) eqn:Hbooking; [|done].
  simpl orb. cbv iota.
  destruct (MetroViews.find_shortest_path net _ _) as [path| | |] eqn:Hfind;
    [|done..].
  destruct path as [|x path]; [done|].
  case_bool_decide as Hbalance; [done|].
  unfold TicketSales.create_ticket. simpl Ticket.ticket_id.
  destruct (Ticket_objects (site_db site) !! TicketSales.pur_ticket_id req) eqn:Hfresh;
    [done|].
  unfold User.deduct_balance.
  rewrite bool_decide_eq_true_2 by lia.
  intros [= <- <- <-].
  exists origin, destination, line, (x :: path).
  split_and!; try done. simpl. lia.
Qed.

(** X8: when [purchase_ticket] sells a ticket, the two stations are
    different active stations, the line of the origin is in service with
    booking enabled, the ticket is new, in status [active], carries the
    path [find_shortest_path] returns and its fare as price, and the buyer
    had at least the price and is charged exactly the price; nothing else
    in the accounts or the ticket tables changes. *)
Theorem purchase_ticket_purchased (base per : Z) (net : Network)
        (req : TicketSales.purchase_request) (user user' : User.t)
        (site site' : Site) (ticket : Ticket.t) :
  TicketSales.purchase_ticket base per net req user site
  = (TicketSales.Purchased ticket, user', site') →
  ∃ origin destination line path,
    TicketSales.clean_station net (TicketSales.pur_origin req) = Some origin
    ∧ TicketSales.clean_station net (TicketSales.pur_destination req) = Some destination
    ∧ TicketSales.pur_origin req ≠ TicketSales.pur_destination req
    ∧ TicketSales.line_of net origin = Some line
    ∧ MetroLine.is_active line = true
    ∧ MetroLine.ticket_booking_enabled line = true
    ∧ MetroViews.find_shortest_path net (TicketSales.pur_origin req)
                                    (TicketSales.pur_destination req)
      = MetroViews.ReturnPath path
    ∧ ticket = Ticket.mk (TicketSales.pur_ticket_id req) (User.pk user)
                         origin destination
                         (MetroViews.calculate_fare base per path)
                         Ticket.active (TicketSales.pur_now req) None None path
    ∧ (Ticket.price ticket ≤ User.balance user)%Z
    ∧ user' = User.set_balance user (User.balance user - Ticket.price ticket)
    ∧ User_objects site' = <[User.pk user := user']> (User_objects site)
    ∧ Ticket_objects (site_db site) !! TicketSales.pur_ticket_id req = None
    ∧ site_db site'
      = with_tickets (site_db site)
          (<[TicketSales.pur_ticket_id req := ticket]> (Ticket_objects (site_db site))).
Proof. apply purchase_ticket_inv. Qed.

Lemma purchase_ticket_purchased_witness :
  (Ticket.price (Ticket.mk 7 1 Examples.station_a Examples.station_c 2000
                           Ticket.active 5 None None [1; 2; 3]%Z)
   ≤ User.balance Samples.alice)%Z
  ∧ User.mk 1 "alice" User.passenger 3000
    = User.set_balance Samples.alice (User.balance Samples.alice - 2000).
Proof.
  destruct (purchase_ticket_purchased Samples.base_fare Samples.per_station_fare
              Examples.line_abc Samples.a_to_c Samples.alice
              (User.mk 1 "alice" User.passenger 3000)
              (Samples.site_of Samples.alice)
              {| User_objects := {[ 1%Z := User.mk 1 "alice" User.passenger 3000 ]};
                 site_db :=
                   with_tickets (site_db (Samples.site_of Samples.alice))
                     (<[7%Z := Ticket.mk 7 1 Examples.station_a Examples.station_c 2000
                                         Ticket.active 5 None None [1; 2; 3]%Z]> ∅) |}
              (Ticket.mk 7 1 Examples.station_a Examples.station_c 2000 Ticket.active 5
                         None None [1; 2; 3]%Z))
    as (origin & destination & line & path & _ & _ & _ & _ & _ & _ & _ & _
        & Hprice & Huser & _).
  - vm_compute. reflexivity.
  - split; [exact Hprice|exact Huser].
Defined.

Lemma purchase_ticket_refusal (base per : Z) (net : Network)
      (req : TicketSales.purchase_request) (user : User.t) (site : Site) :
  match TicketSales.purchase_ticket base per net req user site with
  | (TicketSales.Purchased _, _, _) => True
  | (_, user', site') => user' = user ∧ site' = site
  end.
Proof.
  unfold TicketSales.purchase_ticket.
  destruct (TicketSales.clean_journey net _ _) as [[origin destination]|]; [|done].
  destruct (TicketSales.line_of net origin) as [line|]; [|done].
  destruct (negb _ || negb _); [done|].
  destruct (MetroViews.find_shortest_path net _ _) as [[|x path]| | |]; try done.
  case_bool_decide; [done|].
  destruct (TicketSales.create_ticket _ _); [|done].
  by destruct (User.deduct_balance _ _ _) as [[? ?] ?].
Qed.

(** X9: a purchase that is not completed (invalid form, line out of service
    or closed for booking, no route, balance below the fare, ticket
    identifier taken) leaves the buyer, the accounts and the ticket tables
    exactly as they were. *)
Theorem purchase_ticket_refused (base per : Z) (net : Network)
        (req : TicketSales.purchase_request) (user : User.t) (site : Site) :
  match TicketSales.purchase_ticket base per net req user site with
  | (TicketSales.Purchased _, _, _) => True
  | (_, user', site') => user' = user ∧ site' = site
  end.
Proof. apply purchase_ticket_refusal. Qed.

(** X10: a passenger can buy: when the form is valid, the line of the
    origin is in service with booking enabled, the adjacency rules allow
    some walk between the two stations, the balance covers the fare of
    that walk, the per-station fare is not negative and the ticket
    identifier is free, [purchase_ticket] sells a ticket, at a price no
    higher than the fare of that walk. *)
Theorem purchase_ticket_succeeds (base per : Z) (net : Network)
        (req : TicketSales.purchase_request) (user : User.t) (site : Site)
        (origin destination : Station.t) (line : MetroLine.t) (w : list Z) :
  NoDup (Station.pk <$> stations net) →
  TicketSales.clean_journey net (TicketSales.pur_origin req)
                            (TicketSales.pur_destination req)
  = Some (origin, destination) →
  TicketSales.line_of net origin = Some line →
  MetroLine.is_active line = true →
  MetroLine.ticket_booking_enabled line = true →
  Routes.route (Routes.adjacent net) (TicketSales.pur_origin req)
               (TicketSales.pur_destination req) w →
  (0 ≤ per)%Z →
  (MetroViews.calculate_fare base per w ≤ User.balance user)%Z →
  Ticket_objects (site_db site) !! TicketSales.pur_ticket_id req = None →
  ∃ ticket user' site',
    TicketSales.purchase_ticket base per net req user site
    = (TicketSales.Purchased ticket, user', site')
    ∧ (Ticket.price ticket ≤ MetroViews.calculate_fare base per w)%Z.
Proof.
  intros Hnd Hclean Hline Hactive Hbooking Hw Hper Hbalance Hfresh.
  destruct (clean_journey_pks _ _ _ _ _ Hclean) as [Ho Hd].
  pose proof (clean_journey_Some _ _ _ _ _ Hclean) as (_ & _ & Hne).
  unfold TicketSales.purchase_ticket.
  rewrite Hclean, Hline, Hactive, Hbooking, Ho, Hd. simpl orb. cbv iota.
  pose proof (find_shortest_path_spec net (TicketSales.pur_origin req)
                (TicketSales.pur_destination req)) as Hspec.
  destruct (MetroViews.find_shortest_path net _ _) as [path| | |] eqn:Hfind;
    [|exfalso..]; try done.
  - pose proof (returned_fare_least net base per _ _ _ _ Hnd Hne Hper Hfind Hw)
      as Hleast.
    destruct Hspec as [[Hp _ _] _].
    destruct path as [|x path]; [done|].
    rewrite bool_decide_eq_false_2 by lia.
    unfold TicketSales.create_ticket. simpl Ticket.ticket_id. rewrite Hfresh.
    destruct (User.deduct_balance _ _ _) as [[? user'] accounts].
    eexists _, _, _. split; [done|]. done.
  - destruct Hspec as [_ Hnone]. apply (Hnone w).
    eapply route_mono; [|done]. intros u v. by apply adjacent_in_graph.
Qed.

Lemma purchase_ticket_succeeds_witness :
  ∃ ticket user' site',
    TicketSales.purchase_ticket Samples.base_fare Samples.per_station_fare
      Examples.line_abc Samples.a_to_c Samples.alice (Samples.site_of Samples.alice)
    = (TicketSales.Purchased ticket, user', site')
    ∧ (Ticket.price ticket
       ≤ MetroViews.calculate_fare Samples.base_fare Samples.per_station_fare
           [1; 2; 3]%Z)%Z.
Proof.
  apply (purchase_ticket_succeeds Samples.base_fare Samples.per_station_fare
           Examples.line_abc Samples.a_to_c Samples.alice
           (Samples.site_of Samples.alice)
           Examples.station_a Examples.station_c (MetroLine.mk 1 "L" true true)
           [1; 2; 3]%Z).
  - apply (bool_decide_unpack _). vm_compute. exact I.
  - reflexivity.
  - reflexivity.
  - reflexivity.
  - reflexivity.
  - split; [|reflexivity..]. simpl. split_and!; [| |exact I].
    + apply in_graph_adjacent. vm_compute. left.
    + apply in_graph_adjacent. vm_compute. left.
  - vm_compute. discriminate.
  - vm_compute. discriminate.
  - reflexivity.
Defined.

Section LineServiceFacts.
Import LineService.

Lemma get_line_Some (objects : list MetroLine.t) (line_id : Z) (line : MetroLine.t) :
  get_line objects line_id = Some line →
  line ∈ objects ∧ MetroLine.pk line = line_id.
Proof.
  unfold get_line. intros Hfind. apply find_some in Hfind as [Hin Hpk].
  apply bool_decide_eq_true in Hpk. split; [by apply list_elem_of_In|done].
Qed.

Lemma get_line_save (objects : list MetroLine.t) (line self : MetroLine.t) :
  get_line objects (MetroLine.pk self) = Some line →
  get_line (save self objects) (MetroLine.pk self) = Some self.
Proof.
  unfold get_line, save. induction objects as [|row objects IH]; [done|]. simpl.
  case_bool_decide as Hrow.
  - intros _. by rewrite bool_decide_eq_true_2.
  - rewrite bool_decide_eq_false_2 by done. apply IH.
Qed.




End LineServiceFacts.

(** X11: ending the service of a line with [toggle_line_service] closes the
    sale of tickets from every station of that line, and changes nothing
    for the buyer who is turned away; the routes [find_shortest_path]
    returns, through that line included, stay the same. *)
Theorem ended_service_blocks_purchase (base per : Z) (net : Network) (line_id : Z)
        (line : MetroLine.t) (req : TicketSales.purchase_request)
        (user : User.t) (site : Site) (origin destination : Station.t) :
  LineService.get_line (lines net) line_id = Some line →
  MetroLine.is_active line = true →
  TicketSales.clean_journey (LineService.toggle_line_service line_id net).2
                            (TicketSales.pur_origin req)
                            (TicketSales.pur_destination req)
  = Some (origin, destination) →
  Station.line origin = line_id →
  (LineService.toggle_line_service line_id net).1
  = Some (MetroLine.name line +:+ " Line service ended.")
  ∧ TicketSales.purchase_ticket base per
      (LineService.toggle_line_service line_id net).2 req user site
    = (TicketSales.LineUnavailable, user, site)
  ∧ ∀ o d,
      MetroViews.find_shortest_path (LineService.toggle_line_service line_id net).2 o d
      = MetroViews.find_shortest_path net o d.
Proof.
  intros Hget Hactive.
  pose proof (get_line_Some _ _ _ Hget) as [_ Hpk]. rewrite <- Hpk in *. clear Hpk.
  unfold LineService.toggle_line_service.
  rewrite Hget, Hactive. simpl. intros Hclean Hline. split_and!; [done| |done].
  pose proof (get_line_save (lines net) line (LineService.set_is_active line false) Hget)
    as Hsaved.
  simpl in Hsaved.
  unfold TicketSales.purchase_ticket. rewrite Hclean.
  unfold TicketSales.line_of. simpl lines. rewrite Hline.
  unfold LineService.end_service. by rewrite Hsaved.
Qed.

Lemma ended_service_blocks_purchase_witness :
  (LineService.toggle_line_service 1 Examples.line_abc).1
  = Some ("L" +:+ " Line service ended.")
  ∧ TicketSales.purchase_ticket Samples.base_fare Samples.per_station_fare
      (LineService.toggle_line_service 1 Examples.line_abc).2
      Samples.a_to_c Samples.alice (Samples.site_of Samples.alice)
    = (TicketSales.LineUnavailable, Samples.alice, Samples.site_of Samples.alice)
  ∧ ∀ o d,
      MetroViews.find_shortest_path
        (LineService.toggle_line_service 1 Examples.line_abc).2 o d
      = MetroViews.find_shortest_path Examples.line_abc o d.
Proof.
  apply (ended_service_blocks_purchase Samples.base_fare Samples.per_station_fare
           Examples.line_abc 1 (MetroLine.mk 1 "L" true true) Samples.a_to_c
           Samples.alice (Samples.site_of Samples.alice)
           Examples.station_a Examples.station_c); reflexivity.
Defined.



(** X13: a ticket sold by [purchase_ticket] is let in at its origin: an
    entry scan of it at the origin station, no later than the expiry
    period after the purchase, succeeds and puts the ticket in use. *)
Theorem purchased_ticket_passes_entry (base per H : Z) (net : Network)
        (preq : TicketSales.purchase_request) (user user' : User.t)
        (site site' : Site) (ticket : Ticket.t)
        (sreq : TicketsViews.scan_request) :
  TicketSales.purchase_ticket base per net preq user site
  = (TicketSales.Purchased ticket, user', site') →
  TicketsViews.req_ticket_id sreq = TicketSales.pur_ticket_id preq →
  TicketsViews.req_scan_type sreq = TicketScan.entry →
  Station.pk (TicketsViews.req_station sreq) = TicketSales.pur_origin preq →
  (TicketsViews.req_now sreq ≤ TicketSales.pur_now preq + H * 3600)%Z →
  ∃ db',
    TicketsViews.scan_ticket H sreq (site_db site')
    = (Some (true, "Entry successful"), db')
    ∧ Ticket.status <$> (Ticket_objects db' !! TicketSales.pur_ticket_id preq)
      = Some Ticket.in_use.
Proof.
  intros Hbuy Hid Hentry Hstation Hnow.
  apply purchase_ticket_inv in Hbuy
    as (origin & destination & line & path & Horigin & _ & _ & _ & _ & _ & _
        & -> & _ & _ & _ & _ & ->).
  apply clean_station_Some in Horigin as (_ & Hpk & _).
  unfold TicketsViews.scan_ticket. rewrite Hid. simpl Ticket_objects.
  rewrite lookup_insert_eq.
  unfold TicketsViews.perform_scan. rewrite Hentry.
  unfold TicketModel.scan_entry. simpl Ticket.status.
  rewrite bool_decide_eq_false_2 by (intros Hne; by apply Hne).
  unfold TicketModel.is_expired. simpl Ticket.purchased_at.
  replace (_ >? _)%Z with false by (symmetry; rewrite Z.gtb_ltb; apply Z.ltb_ge; lia).
  unfold Station.eqb. simpl Ticket.origin. rewrite Hstation, Hpk, Z.eqb_refl.
  simpl negb. cbv iota.
  destruct (DailyFootfall.get_or_create _ _) as [row objects].
  eexists. split; [done|]. simpl. by rewrite lookup_insert_eq.
Qed.

Lemma purchased_ticket_passes_entry_witness :
  ∃ db',
    TicketsViews.scan_ticket Examples.two_hours Examples.entry_at_a
      (site_db
         {| User_objects := {[ 1%Z := User.mk 1 "alice" User.passenger 3000 ]};
            site_db :=
              with_tickets (site_db (Samples.site_of Samples.alice))
                (<[7%Z := Ticket.mk 7 1 Examples.station_a Examples.station_c 2000
                                    Ticket.active 5 None None [1; 2; 3]%Z]> ∅) |})
    = (Some (true, "Entry successful"), db')
    ∧ Ticket.status <$> (Ticket_objects db' !! 7%Z) = Some Ticket.in_use.
Proof.
  apply (purchased_ticket_passes_entry Samples.base_fare Samples.per_station_fare
           Examples.two_hours Examples.line_abc Samples.a_to_c Samples.alice
           (User.mk 1 "alice" User.passenger 3000)
           (Samples.site_of Samples.alice)
           {| User_objects := {[ 1%Z := User.mk 1 "alice" User.passenger 3000 ]};
              site_db :=
                with_tickets (site_db (Samples.site_of Samples.alice))
                  (<[7%Z := Ticket.mk 7 1 Examples.station_a Examples.station_c 2000
                                      Ticket.active 5 None None [1; 2; 3]%Z]> ∅) |}
           (Ticket.mk 7 1 Examples.station_a Examples.station_c 2000 Ticket.active 5
                      None None [1; 2; 3]%Z)
           Examples.entry_at_a).
  - vm_compute. reflexivity.
  - reflexivity.
  - reflexivity.
  - reflexivity.
  - vm_compute. discriminate.
Defined.

(** X14: a ticket created by [create_offline_ticket] is new and in status
    [used]; the view appends an entry row at the origin and an exit row at
    the destination to the audit trail, both successful, and leaves the
    footfall counters as they were; every later scan of that ticket is
    refused with ['Ticket is used'] and changes neither the tickets nor the
    footfall. *)
Theorem offline_ticket_is_used (base per H : Z) (net : Network)
        (req : TicketSales.offline_request) (db db' : Database) (ticket : Ticket.t) :
  TicketSales.create_offline_ticket base per net req db
  = (TicketSales.Purchased ticket, db') →
  Ticket.status ticket = Ticket.used
  ∧ Ticket.ticket_id ticket = TicketSales.off_ticket_id req
  ∧ Ticket_objects db !! TicketSales.off_ticket_id req = None
  ∧ Ticket_objects db' = <[TicketSales.off_ticket_id req := ticket]> (Ticket_objects db)
  ∧ DailyFootfall_objects db' = DailyFootfall_objects db
  ∧ TicketScan_objects db'
    = TicketScan_objects db
      ++ [TicketScan.mk (TicketSales.off_ticket_id req)
                        (Station.pk (Ticket.origin ticket)) TicketScan.entry
                        (TicketSales.off_operator req) (TicketSales.off_now req)
                        true "Offline ticket - Entry recorded";
          TicketScan.mk (TicketSales.off_ticket_id req)
                        (Station.pk (Ticket.destination ticket)) TicketScan.exit
                        (TicketSales.off_operator req) (TicketSales.off_now req)
                        true "Offline ticket - Exit recorded"]
  ∧ ∀ sreq, TicketsViews.req_ticket_id sreq = TicketSales.off_ticket_id req →
            ∃ db'',
              TicketsViews.scan_ticket H sreq db' = (Some (false, "Ticket is used"), db'')
              ∧ Ticket_objects db'' = Ticket_objects db'
              ∧ DailyFootfall_objects db'' = DailyFootfall_objects db'.
Proof.
  unfold TicketSales.create_offline_ticket.
  destruct (TicketSales.clean_journey net _ _) as [[origin destination]|]; [|done].
  destruct (MetroViews.find_shortest_path net _ _) as [[|x path]| | |]; try done.
  unfold TicketSales.create_ticket. simpl Ticket.ticket_id.
  destruct (Ticket_objects db !! TicketSales.off_ticket_id req) eqn:Hfresh; [done|].
  intros [= <- <-]. split_and!; try done.
  intros sreq Hid. unfold TicketsViews.scan_ticket. rewrite Hid. simpl Ticket_objects.
  rewrite lookup_insert_eq. unfold TicketsViews.perform_scan.
  destruct (TicketsViews.req_scan_type sreq).
  - unfold TicketModel.scan_entry. simpl Ticket.status.
    rewrite bool_decide_eq_true_2 by done. by eexists.
  - unfold TicketModel.scan_exit. simpl Ticket.status.
    rewrite bool_decide_eq_true_2 by done. by eexists.
Qed.

Lemma offline_ticket_is_used_witness :
  Ticket.status (Ticket.mk 7 9 Examples.station_a Examples.station_c 2000
                           Ticket.used 5 None None [1; 2; 3]%Z)
  = Ticket.used.
Proof.
  destruct (offline_ticket_is_used Samples.base_fare Samples.per_station_fare
              Examples.two_hours Examples.line_abc Samples.a_to_c_offline
              (site_db (Samples.site_of Samples.alice))
              (with_scans
                 (with_tickets (site_db (Samples.site_of Samples.alice))
                    (<[7%Z := Ticket.mk 7 9 Examples.station_a Examples.station_c 2000
                                        Ticket.used 5 None None [1; 2; 3]%Z]> ∅))
                 [TicketScan.mk 7 1 TicketScan.entry 100 5 true
                                "Offline ticket - Entry recorded";
                  TicketScan.mk 7 3 TicketScan.exit 100 5 true
                                "Offline ticket - Exit recorded"])
              (Ticket.mk 7 9 Examples.station_a Examples.station_c 2000
                         Ticket.used 5 None None [1; 2; 3]%Z))
    as [Hused _].
  - vm_compute. reflexivity.
  - exact Hused.
Defined.

(** ** Accounts *)

Section WalletFacts.
Variables base per : Z.



End WalletFacts.



(** ** The ticket list of a user *)

Section SweepFacts.
Import TicketSales.
Variable H : Z.
Variable now : Z.

Local Abbreviation step :=
  (λ (db : Database) (ticket : Ticket.t),
     (TicketModel.check_and_update_expiry H ticket now db).2).

Local Abbreviation lapsed :=
  (λ ticket : Ticket.t,
     bool_decide (Ticket.status ticket = Ticket.active)
     && TicketModel.is_expired H ticket now).

Lemma step_unfold (db : Database) (ticket : Ticket.t) :
  step db ticket
  = if lapsed ticket
    then TicketModel.save (Ticket.set_status ticket Ticket.expired) db
    else db.
Proof.
  unfold TicketModel.check_and_update_expiry. by destruct (_ && _).
Qed.

Lemma sweep_keeps (l : list Ticket.t) (db : Database) :
  DailyFootfall_objects (fold_left step l db) = DailyFootfall_objects db
  ∧ TicketScan_objects (fold_left step l db) = TicketScan_objects db.
Proof.
  revert db. induction l as [|a l IH]; intros db; [done|].
  cbn [fold_left]. destruct (IH (step db a)) as [Hfoot Hscans].
  cbn beta in *. rewrite Hfoot, Hscans, step_unfold. by destruct (_ && _).
Qed.

Lemma sweep_other (l : list Ticket.t) (db : Database) (k : Z) :
  (∀ t, t ∈ l → Ticket.ticket_id t = k → lapsed t = false) →
  Ticket_objects (fold_left step l db) !! k = Ticket_objects db !! k.
Proof.
  revert db. induction l as [|a l IH]; intros db Hl; [done|].
  cbn [fold_left]. rewrite IH by (intros t Ht; apply Hl; by right).
  rewrite step_unfold. pose proof (Hl a) as Ha. cbn beta in Ha.
  destruct (_ && _); [|done].
  simpl. apply lookup_insert_ne. intros Hk.
  by discriminate Ha; [left|].
Qed.

Lemma sweep_hit (l : list Ticket.t) (db : Database) (t : Ticket.t) :
  NoDup (Ticket.ticket_id <$> l) → t ∈ l → lapsed t = true →
  Ticket_objects (fold_left step l db) !! Ticket.ticket_id t
  = Some (Ticket.set_status t Ticket.expired).
Proof.
  revert db. induction l as [|a l IH]; intros db Hnd Ht Hlapsed;
    [by apply elem_of_nil in Ht|].
  simpl in Hnd. apply NoDup_cons in Hnd as [Ha Hnd]. cbn [fold_left].
  apply elem_of_cons in Ht as [->|Ht]; [|by apply IH].
  rewrite sweep_other.
  - rewrite step_unfold. cbn beta in Hlapsed. rewrite Hlapsed. simpl.
    apply lookup_insert_eq.
  - intros t Ht Hid. destruct Ha. rewrite <- Hid. by apply list_elem_of_fmap_2.
Qed.

Lemma tickets_where_elem (P : Ticket.t → Prop) `{∀ x, Decision (P x)}
      (db : Database) (t : Ticket.t) :
  t ∈ tickets_where P db ↔ P t ∧ ∃ k, Ticket_objects db !! k = Some t.
Proof.
  unfold tickets_where. rewrite merge_sort_Permutation, list_elem_of_filter.
  apply and_iff_compat_l. rewrite list_elem_of_fmap. split.
  - intros ([k t'] & -> & Hin). exists k. by apply elem_of_map_to_list.
  - intros [k Hk]. exists (k, t). split; [done|]. by apply elem_of_map_to_list.
Qed.

Lemma tickets_where_NoDup (P : Ticket.t → Prop) `{∀ x, Decision (P x)}
      (db : Database) :
  (∀ k t, Ticket_objects db !! k = Some t → Ticket.ticket_id t = k) →
  NoDup (Ticket.ticket_id <$> tickets_where P db).
Proof.
  intros Hkeyed. unfold tickets_where. rewrite merge_sort_Permutation.
  apply (sublist_NoDup _ (Ticket.ticket_id <$> (snd <$> map_to_list (Ticket_objects db)))).
  - rewrite <- list_fmap_compose.
    rewrite (list_fmap_ext _ fst).
    + apply NoDup_fst_map_to_list.
    + intros i [k t] Hin%list_elem_of_lookup_2. simpl.
      apply Hkeyed. by apply elem_of_map_to_list.
  - apply fmap_sublist, sublist_filter.
Qed.

Lemma newest_first_total : Total newest_first.
Proof. intros a b. unfold newest_first. lia. Qed.

End SweepFacts.

(** X16: on a ticket table keyed by the tickets' identifiers, [my_tickets]
    sets to [expired] exactly the tickets of the user that are [active] and
    past their expiry, and changes no other ticket, no footfall row and no
    audit row; the list it shows holds the tickets of the user, newest
    first, and none of them is an active ticket past its expiry. *)
Theorem my_tickets_brings_up_to_date (H : Z) (user now : Z) (db : Database) :
  (∀ k t, Ticket_objects db !! k = Some t → Ticket.ticket_id t = k) →
  (∀ k, Ticket_objects (TicketSales.my_tickets H user now db).2 !! k
        = TicketSales.brought_up_to_date H user now <$> Ticket_objects db !! k)
  ∧ DailyFootfall_objects (TicketSales.my_tickets H user now db).2
    = DailyFootfall_objects db
  ∧ TicketScan_objects (TicketSales.my_tickets H user now db).2 = TicketScan_objects db
  ∧ (∀ t, t ∈ (TicketSales.my_tickets H user now db).1 ↔
          Ticket.user t = user
          ∧ ∃ k, Ticket_objects (TicketSales.my_tickets H user now db).2 !! k = Some t)
  ∧ Sorted TicketSales.newest_first (TicketSales.my_tickets H user now db).1
  ∧ Forall (λ t, TicketSales.due H user now t = false)
           (TicketSales.my_tickets H user now db).1.
Proof.
  intros Hkeyed. unfold TicketSales.my_tickets. cbn [fst snd].
  set (active_tickets := TicketSales.tickets_where _ db).
  assert (∀ k, Ticket_objects
                 (fold_left (λ db ticket,
                    (TicketModel.check_and_update_expiry H ticket now db).2)
                    active_tickets db) !! k
               = TicketSales.brought_up_to_date H user now <$> Ticket_objects db !! k)
    as Htable.
  { intros k. destruct (Ticket_objects db !! k) as [t|] eqn:Hk; simpl.
    - pose proof (Hkeyed k t Hk) as Hid.
      unfold TicketSales.brought_up_to_date.
      destruct (TicketSales.due H user now t) eqn:Hdue.
      + unfold TicketSales.due in Hdue.
        apply andb_true_iff in Hdue as [Hmine Hexp].
        apply andb_true_iff in Hmine as [Huser Hactive].
        apply bool_decide_eq_true in Huser. apply bool_decide_eq_true in Hactive.
        rewrite <- Hid. apply sweep_hit.
        * by apply tickets_where_NoDup.
        * apply tickets_where_elem. split; [done|]. by exists k.
        * by rewrite bool_decide_eq_true_2.
      + rewrite sweep_other; [done|]. intros t' Ht' Hid'.
        apply tickets_where_elem in Ht' as [[Huser Hactive] [k' Hk']].
        pose proof (Hkeyed k' t' Hk') as Hid''.
        assert (t' = t) as -> by congruence.
        unfold TicketSales.due in Hdue.
        rewrite (bool_decide_eq_true_2 _ Huser) in Hdue. done.
    - rewrite <- Hk. apply sweep_other. intros t' Ht' Hid'.
      apply tickets_where_elem in Ht' as [_ [k' Hk']].
      pose proof (Hkeyed k' t' Hk') as Hid''. congruence. }
  destruct (sweep_keeps H now active_tickets db) as [Hfoot Hscans].
  split_and!; [done..| | |].
  - intros t. apply tickets_where_elem.
  - apply Sorted_merge_sort. apply newest_first_total.
  - apply Forall_forall. intros t Ht.
    apply tickets_where_elem in Ht as [Huser [k Hk]].
    rewrite Htable in Hk. destruct (Ticket_objects db !! k) as [t0|]; [|done].
    simpl in Hk. injection Hk as <-. unfold TicketSales.brought_up_to_date.
    destruct (TicketSales.due H user now t0) eqn:Hdue; [|done].
    unfold TicketSales.due. simpl Ticket.status.
    rewrite (bool_decide_eq_false_2 (Ticket.expired = Ticket.active)) by done.
    by rewrite andb_false_r.
Qed.

Lemma my_tickets_brings_up_to_date_witness :
  Ticket_objects
    (TicketSales.my_tickets Examples.two_hours 1 7201
       (Examples.db_of (Examples.ticket_ac Ticket.active))).2 !! 7%Z
  = TicketSales.brought_up_to_date Examples.two_hours 1 7201
      <$> Ticket_objects (Examples.db_of (Examples.ticket_ac Ticket.active)) !! 7%Z.
Proof.
  apply (my_tickets_brings_up_to_date Examples.two_hours 1 7201
           (Examples.db_of (Examples.ticket_ac Ticket.active))).
  intros k t Hk. simpl in Hk. apply lookup_singleton_Some in Hk as [<- <-]. reflexivity.
Defined.

(** ** The route search of [main.py] *)

Section TwoLevelFacts.
Context {A : Type}.

Lemma two_level_head (h : list A) (rest : list (list A)) (q : list A) :
  (∃ k short long,
      h :: rest = short ++ long
      ∧ Forall (λ q, length q = k) short
      ∧ Forall (λ q, length q = S k) long) →
  q ∈ h :: rest → length h ≤ length q ∧ length q ≤ S (length h).
Proof.
  intros (k & short & long & Heq & Hs & Hl) Hq.
  assert (length q = k ∨ length q = S k) as Hlen.
  { rewrite Heq in Hq. apply elem_of_app in Hq as [Hq|Hq].
    - left. by eapply Forall_forall in Hs.
    - right. by eapply Forall_forall in Hl. }
  destruct short as [|s short]; simpl in Heq.
  - subst long. apply Forall_cons in Hl as [Hh Hl].
    assert (length q = S k); [|lia].
    apply elem_of_cons in Hq as [->|Hq]; [done|]. by eapply Forall_forall in Hl.
  - simplify_eq. apply Forall_cons in Hs as [Hh Hs]. lia.
Qed.

Lemma two_level_pop (h : list A) (rest new : list (list A)) :
  (∃ k short long,
      h :: rest = short ++ long
      ∧ Forall (λ q, length q = k) short
      ∧ Forall (λ q, length q = S k) long) →
  Forall (λ q, length q = S (length h)) new →
  ∃ k short long,
      rest ++ new = short ++ long
      ∧ Forall (λ q, length q = k) short
      ∧ Forall (λ q, length q = S k) long.
Proof.
  intros (k & short & long & Heq & Hs & Hl) Hnew.
  destruct short as [|s short]; simpl in Heq.
  - subst long. apply Forall_cons in Hl as [Hh Hl]. rewrite Hh in Hnew.
    exists (S k), rest, new. done.
  - simplify_eq. apply Forall_cons in Hs as [Hh Hs]. rewrite Hh in Hnew.
    exists k, short, (long ++ new).
    split; [by rewrite app_assoc|]. split; [done|]. by apply Forall_app.
Qed.

End TwoLevelFacts.

Section MainWalkFacts.
Import MainRoutes.
Variable edge : string → string → Prop.

Lemma main_walk_nonempty (w : list string) : is_walk edge w → w ≠ [].
Proof. by destruct w. Qed.

Lemma main_walk_snoc (w : list string) (x y : string) :
  is_walk edge w → last w = Some x → edge x y → is_walk edge (w ++ [y]).
Proof.
  induction w as [|a [|b w] IH]; intros Hw Hlast Hedge; [done| |].
  - simpl in *. by simplify_eq.
  - destruct Hw as [Hab Hw]. split; [done|]. apply IH; [done| |done].
    by rewrite last_cons_cons in Hlast.
Qed.

Lemma main_walk_middle (l1 l2 : list string) (x y : string) :
  is_walk edge (l1 ++ x :: y :: l2) → edge x y.
Proof.
  induction l1 as [|a l1 IH]; simpl.
  - by intros [? _].
  - destruct (l1 ++ x :: y :: l2) eqn:Heq; [by destruct l1|]. intros [_ Hw]. by apply IH.
Qed.

(** The end of a walk of two stations or more is the target of an edge. *)
Lemma main_walk_last_edge (w : list string) (o c : string) :
  is_walk edge w → head w = Some o → last w = Some c → o = c ∨ ∃ u, edge u c.
Proof.
  intros Hw Hhead Hlast. apply last_Some in Hlast as [w' ->].
  destruct w' as [|u w' _] using rev_ind; [left; simpl in *; by simplify_eq|].
  right. exists u. apply (main_walk_middle w' []). by rewrite <- app_assoc in Hw.
Qed.

End MainWalkFacts.

Section PendingFacts.
Import MainRoutes.

(** The ends of the paths of a queue. *)
Local Abbreviation ends := (λ queue : list (list string),
                              (list_to_set (omap last queue) : gset string)).

Lemma pending_elem (queue : list (list string)) (seen : gset string) (q : list string) :
  q ∈ pending queue seen → q ∈ queue ∧ ∃ x, last q = Some x ∧ x ∉ seen.
Proof.
  revert seen. induction queue as [|a queue IH]; intros seen; simpl;
    [by intros ?%elem_of_nil|].
  destruct (last a) as [x|] eqn:Hlast.
  - case_bool_decide as Hseen.
    + intros [? ?]%IH. split; [by right|done].
    + intros [->|Hq]%elem_of_cons; [split; [by left|by exists x]|].
      apply IH in Hq as [? (y & ? & Hy)]. split; [by right|].
      exists y. split; [done|]. intros ?. apply Hy. apply elem_of_union. by left.
  - intros [? ?]%IH. split; [by right|done].
Qed.

Lemma ends_cons_Some (a : list string) (queue : list (list string)) (y : string) :
  last a = Some y → ends (a :: queue) = {[y]} ∪ ends queue.
Proof. intros Ha. simpl. by rewrite Ha. Qed.

Lemma ends_cons_None (a : list string) (queue : list (list string)) :
  last a = None → ends (a :: queue) = ends queue.
Proof. intros Ha. simpl. by rewrite Ha. Qed.

Lemma ends_elem (queue : list (list string)) (x : string) :
  x ∈ ends queue ↔ ∃ q, q ∈ queue ∧ last q = Some x.
Proof. rewrite elem_of_list_to_set, list_elem_of_omap. done. Qed.

Lemma pending_snoc (queue : list (list string)) (seen : gset string) (p : list string) :
  pending (queue ++ [p]) seen
  = pending queue seen
    ++ match last p with
       | Some x => if bool_decide (x ∈ seen ∪ ends queue) then [] else [p]
       | None => []
       end.
Proof.
  revert seen. induction queue as [|a queue IH]; intros seen.
  - simpl. destruct (last p) as [x|]; [|done].
    rewrite (bool_decide_ext (x ∈ seen ∪ ∅) (x ∈ seen)); [done|].
    rewrite elem_of_union. split; [|by left].
    intros [?|?%elem_of_empty]; done.
  - cbn [app pending]. destruct (last a) as [y|] eqn:Ha.
    + rewrite (ends_cons_Some _ _ _ Ha). case_bool_decide as Hy.
      * rewrite IH. f_equal. destruct (last p) as [x|]; [|done].
        rewrite (bool_decide_ext (x ∈ seen ∪ ({[y]} ∪ ends queue))
                                 (x ∈ seen ∪ ends queue)); [done|].
        rewrite !elem_of_union, elem_of_singleton. split; [|tauto].
        intros [?|[->|?]]; tauto.
      * rewrite IH. cbn [app]. f_equal. f_equal. destruct (last p) as [x|]; [|done].
        rewrite (bool_decide_ext (x ∈ seen ∪ ({[y]} ∪ ends queue))
                                 (x ∈ seen ∪ {[y]} ∪ ends queue)); [done|].
        rewrite !elem_of_union. tauto.
    + rewrite (ends_cons_None _ _ Ha). apply IH.
Qed.

Lemma pending_covers (queue : list (list string)) (seen : gset string)
      (q : list string) (x : string) :
  q ∈ queue → last q = Some x → x ∉ seen →
  ∃ q', q' ∈ pending queue seen ∧ last q' = Some x.
Proof.
  revert seen. induction queue as [|a queue IH]; intros seen Hq Hx Hseen;
    [by apply elem_of_nil in Hq|].
  simpl. destruct (last a) as [y|] eqn:Ha.
  - case_bool_decide as Hy.
    + apply elem_of_cons in Hq as [->|Hq]; [congruence|]. by apply IH.
    + destruct (decide (x = y)) as [->|Hne].
      * exists a. split; [by left|done].
      * apply elem_of_cons in Hq as [->|Hq]; [congruence|].
        destruct (IH (seen ∪ {[y]}) Hq Hx) as (q' & Hq' & Hlast).
        { intros [?|?%elem_of_singleton]%elem_of_union; done. }
        exists q'. split; [by right|done].
  - apply elem_of_cons in Hq as [->|Hq]; [congruence|]. by apply IH.
Qed.

End PendingFacts.

Section MainBfsFacts.
Import MainRoutes.
Variable stations : gmap string Main.Station.t.
Variables origin destination : string.

Local Abbreviation edge := (connected stations).
Local Abbreviation ends := (λ queue : list (list string),
                              (list_to_set (omap last queue) : gset string)).

(** A path that is a walk from the origin and ends at a station that is
    visited or the end of a queued path. *)
Local Abbreviation covered :=
  (λ (queue : list (list string)) (visited : gset string) (p : list string),
     is_walk edge p ∧ head p = Some origin
     ∧ ∃ x, last p = Some x ∧ (x ∈ visited ∨ ∃ q, q ∈ queue ∧ last q = Some x)).

Lemma extend_queue_spec (h : list string) (c : string) (visited : gset string)
      (ns : list string) (queue : list (list string))
      (new_path : option (list string)) :
  is_walk edge h → head h = Some origin → last h = Some c →
  (∀ n, n ∈ ns → edge c n) →
  match new_path with
  | Some p => covered queue visited p
  | None => ∀ n, head ns = Some n → n ∉ visited
  end →
  ∃ adds new_path',
    Main.extend_queue h visited ns queue new_path = Some (queue ++ adds, new_path')
    ∧ length adds = length ns
    ∧ (∀ a, a ∈ adds → is_walk edge a ∧ head a = Some origin)
    ∧ (∃ news, pending (queue ++ adds) visited = pending queue visited ++ news
               ∧ Forall (λ q, length q = S (length h)) news)
    ∧ (∀ n, n ∈ ns → n ∉ visited → ∃ q, q ∈ queue ++ adds ∧ last q = Some n)
    ∧ match new_path' with
      | Some p => covered (queue ++ adds) visited p
      | None => new_path = None ∧ ns = []
      end.
Proof.
  intros Hh Hhead Hlast. revert queue new_path.
  induction ns as [|n ns IH]; intros queue new_path Hedges Hnp.
  - exists [], new_path. rewrite app_nil_r. split_and!; try done.
    + intros a Ha. by apply elem_of_nil in Ha.
    + exists []. by rewrite app_nil_r.
    + intros n Hn. by apply elem_of_nil in Hn.
    + by destruct new_path.
  - assert (∀ n', n' ∈ ns → edge c n') as Hedges' by (intros ??; apply Hedges; by right).
    cbn [Main.extend_queue]. case_bool_decide as Hn.
    + set (p := h ++ [n]).
      assert (is_walk edge p ∧ head p = Some origin) as [Hp Hphead].
      { split; [eapply main_walk_snoc; [done..|apply Hedges; by left]|].
        unfold p. by destruct h. }
      destruct (IH (queue ++ [p]) (Some p) Hedges')
        as (adds & np' & Hext & Hlen & Hwalks & (news & Hpend & Hnews) & Hcov & Hnp').
      { split_and!; [done..|]. exists n. split; [apply last_snoc|].
        right. exists p. split; [|apply last_snoc]. apply elem_of_app. right. by left. }
      exists (p :: adds), np'. rewrite <- app_assoc in Hext, Hpend, Hcov, Hnp'. cbn [app] in Hext, Hpend, Hcov, Hnp'.
      split_and!; [done|simpl; lia| | | |].
      * intros a [->|Ha]%elem_of_cons; [done|by apply Hwalks].
      * rewrite Hpend, pending_snoc, <- app_assoc. eexists. split; [done|].
        apply Forall_app. split; [|done]. unfold p. rewrite last_snoc.
        case_bool_decide; [done|]. apply Forall_singleton.
        rewrite length_app. simpl. lia.
      * intros n' [->|Hn']%elem_of_cons Hfresh; [|by apply Hcov].
        exists p. split; [|apply last_snoc]. apply elem_of_app. right. by left.
      * destruct np' as [p'|]; [done|by destruct Hnp'].
    + destruct new_path as [p|]; [|by destruct (Hnp n eq_refl)].
      destruct Hnp as (Hp & Hphead & x & Hx & Hcovered).
      destruct (IH (queue ++ [p]) (Some p) Hedges')
        as (adds & np' & Hext & Hlen & Hwalks & (news & Hpend & Hnews) & Hcov & Hnp').
      { split_and!; [done..|]. exists x. split; [done|].
        destruct Hcovered as [?|(q & Hq & Hqx)]; [by left|right].
        exists q. split; [|done]. apply elem_of_app. by left. }
      exists (p :: adds), np'. rewrite <- app_assoc in Hext, Hpend, Hcov, Hnp'. cbn [app] in Hext, Hpend, Hcov, Hnp'.
      split_and!; [done|simpl; lia| | | |].
      * intros a [->|Ha]%elem_of_cons; [done|by apply Hwalks].
      * rewrite Hpend, pending_snoc, Hx. exists news. split; [|done].
        rewrite bool_decide_eq_true_2; [by rewrite app_nil_r|].
        apply elem_of_union. destruct Hcovered as [?|Hq]; [by left|right].
        by apply ends_elem.
      * intros n' [->|Hn']%elem_of_cons Hfresh; [|by apply Hcov].
        done.
      * destruct np' as [p'|]; [done|by destruct Hnp'].
Qed.

Lemma main_degree_le_max (c : string) (station : Main.Station.t) :
  stations !! c = Some station →
  length (Main.Station.neighbors station) ≤ Main.max_degree stations.
Proof.
  intros Hc. unfold Main.max_degree. apply max_list_elem_of_le.
  apply list_elem_of_fmap. exists (c, station). split; [done|].
  by apply elem_of_map_to_list.
Qed.

Lemma main_work_left_visit (h : list string) (rest adds : list (list string))
      (visited : gset string) (c : string) (station : Main.Station.t) :
  c ∉ visited → stations !! c = Some station →
  length adds = length (Main.Station.neighbors station) →
  work_left stations (rest ++ adds) (visited ∪ {[c]})
  < work_left stations (h :: rest) visited.
Proof.
  intros Hc Hstation Hlen. unfold work_left. rewrite length_app, Hlen. simpl.
  pose proof (main_degree_le_max c station Hstation) as Hdeg.
  assert (size (dom stations ∖ (visited ∪ {[c]})) < size (dom stations ∖ visited)).
  { apply subset_size. split.
    - intros y Hy. apply elem_of_difference in Hy as [Hy Hn].
      apply elem_of_difference. split; [done|].
      intros Hv. apply Hn. apply elem_of_union. by left.
    - intros Hsub. specialize (Hsub c).
      assert (c ∈ dom stations ∖ visited) as Hin.
      { apply elem_of_difference. split; [|done]. apply elem_of_dom. by eexists. }
      apply Hsub in Hin. apply elem_of_difference in Hin as [_ Hn].
      apply Hn. apply elem_of_union. right. by apply elem_of_singleton. }
  nia.
Qed.

Hypothesis Hclosed : closed stations.
Hypothesis Horigin : is_Some (stations !! origin).
Hypothesis Hfirst :
  ∀ station, stations !! origin = Some station →
             head (Main.Station.neighbors station) ≠ Some origin.

Lemma queued_end_known (q : list string) (c : string) :
  is_walk edge q → head q = Some origin → last q = Some c → is_Some (stations !! c).
Proof.
  intros Hq Hhead Hlast.
  destruct (main_walk_last_edge _ _ _ _ Hq Hhead Hlast) as [<-|[u Hu]]; [done|].
  by eapply Hclosed.
Qed.

Lemma main_bfs_inv_initial :
  origin ≠ destination → bfs_inv stations origin destination [[origin]] ∅ None.
Proof.
  intros Hne. split.
  - intros q Hq. apply list_elem_of_singleton in Hq as ->. by split.
  - apply not_elem_of_empty.
  - exists 1, [[origin]], []. simpl. rewrite bool_decide_eq_false_2
      by apply not_elem_of_empty. by repeat constructor.
  - intros w [Hw Hhead Hlast]. exists [], w, [origin], origin.
    split_and!; [done| |done|done|simpl; lia|].
    + simpl. rewrite bool_decide_eq_false_2 by apply not_elem_of_empty. by left.
    + apply Forall_forall. intros y _. apply not_elem_of_empty.
  - by left.
Qed.

Lemma main_bfs_inv_skip (h : list string) (rest : list (list string))
      (visited : gset string) (new_path : option (list string)) (c : string) :
  bfs_inv stations origin destination (h :: rest) visited new_path →
  last h = Some c → c ∈ visited →
  bfs_inv stations origin destination rest visited new_path.
Proof.
  intros [Hwalks Hdest Hlevels Hfront Hnp] Hlast Hc.
  assert (pending (h :: rest) visited = pending rest visited) as Hpend.
  { simpl. rewrite Hlast. by rewrite bool_decide_eq_true_2. }
  rewrite Hpend in Hlevels, Hfront. split; try done.
  - intros q Hq. apply Hwalks. by right.
  - destruct new_path as [p|].
    + destruct Hnp as (Hp & Hhead & x & Hx & Hcov). split_and!; [done..|].
      exists x. split; [done|]. destruct Hcov as [?|(q & Hq & Hqx)]; [by left|].
      apply elem_of_cons in Hq as [->|Hq]; [left; congruence|right; by exists q].
    + destruct Hnp as [[Hq ->]|Hq]; [by apply elem_of_empty in Hc|done].
Qed.

Lemma main_bfs_inv_visit (h : list string) (rest adds : list (list string))
      (visited : gset string) (new_path new_path' : option (list string))
      (c : string) (station : Main.Station.t) :
  bfs_inv stations origin destination (h :: rest) visited new_path →
  last h = Some c → c ≠ destination → c ∉ visited →
  stations !! c = Some station →
  Main.extend_queue h (visited ∪ {[c]}) (Main.Station.neighbors station) rest new_path
  = Some (rest ++ adds, new_path') →
  (∃ news, pending (rest ++ adds) (visited ∪ {[c]})
           = pending rest (visited ∪ {[c]}) ++ news
           ∧ Forall (λ q, length q = S (length h)) news) →
  (∀ a, a ∈ adds → is_walk edge a ∧ head a = Some origin) →
  (∀ n, n ∈ Main.Station.neighbors station → n ∉ visited ∪ {[c]} →
        ∃ q, q ∈ rest ++ adds ∧ last q = Some n) →
  match new_path' with
  | Some p => covered (rest ++ adds) (visited ∪ {[c]}) p
  | None => new_path = None ∧ Main.Station.neighbors station = []
  end →
  bfs_inv stations origin destination (rest ++ adds) (visited ∪ {[c]}) new_path'.
Proof.
  intros [Hwalks Hdest Hlevels Hfront Hnp] Hlast Hne Hc Hstation Hext
         (news & Hpend & Hnews) Hadds Hcov Hnp'.
  assert (pending (h :: rest) visited = h :: pending rest (visited ∪ {[c]})) as Hold.
  { simpl. rewrite Hlast. by rewrite bool_decide_eq_false_2. }
  rewrite Hold in Hlevels, Hfront.
  assert (∀ q, q ∈ pending (rest ++ adds) (visited ∪ {[c]}) →
               length q ≤ S (length h)) as Hshort.
  { intros q. rewrite Hpend. intros [Hq|Hq]%elem_of_app.
    - apply (two_level_head h (pending rest (visited ∪ {[c]})) q Hlevels). by right.
    - rewrite Forall_forall in Hnews. rewrite (Hnews q Hq). lia. }
  split.
  - intros q [Hq|Hq]%elem_of_app; [apply Hwalks; by right|by apply Hadds].
  - intros [?|?%elem_of_singleton]%elem_of_union; done.
  - rewrite Hpend. by apply (two_level_pop h).
  - intros w Hroute.
    destruct (Hfront w Hroute) as (pre & suf & q & x & -> & Hq & Hx & Hqx & Hlen & Hfresh).
    destruct (decide (c ∈ suf)) as [Hin|Hnotin].
    + apply list_elem_of_split_r in Hin as (s1 & s2 & -> & Hc2).
      destruct Hroute as [Hw Hhead Hend].
      destruct s2 as [|n s2].
      { rewrite !app_assoc, last_snoc in Hend. by simplify_eq. }
      assert (edge c n) as Hedge.
      { apply (main_walk_middle _ (pre ++ s1) s2). by rewrite <- app_assoc. }
      apply Forall_app in Hfresh as [_ Hfresh].
      apply Forall_cons in Hfresh as [_ Hfresh].
      assert (n ∉ visited ∪ {[c]}) as Hn.
      { apply Forall_cons in Hfresh as [Hn _].
        intros [?|Heq%elem_of_singleton]%elem_of_union; [done|].
        subst n. apply Hc2. by left. }
      destruct Hedge as (station' & Hstation' & Hnin). simplify_eq.
      destruct (Hcov n Hnin Hn) as (q0 & Hq0 & Hq0n).
      destruct (pending_covers _ _ _ _ Hq0 Hq0n Hn) as (q' & Hq' & Hq'n).
      exists (pre ++ s1 ++ [c]), (n :: s2), q', n. split_and!; [|done..| |].
      * by rewrite <- !app_assoc.
      * pose proof (Hshort q' Hq') as Hle.
        destruct (two_level_head h (pending rest (visited ∪ {[c]})) q Hlevels Hq)
          as [Hhq _].
        rewrite !length_app. simpl. lia.
      * apply Forall_forall. intros y Hy.
        rewrite Forall_forall in Hfresh. specialize (Hfresh y Hy).
        intros [?|Heq%elem_of_singleton]%elem_of_union; [done|].
        subst y. by apply Hc2.
    + exists pre, suf, q, x. split_and!; try done.
      * rewrite Hpend. apply elem_of_app. left.
        apply elem_of_cons in Hq as [->|Hq]; [|done].
        destruct suf as [|y suf]; [done|]. simpl in Hx. simplify_eq.
        destruct Hnotin. by left.
      * apply Forall_forall. intros y Hy.
        rewrite Forall_forall in Hfresh. specialize (Hfresh y Hy).
        intros [?|Heq%elem_of_singleton]%elem_of_union; [done|]. by subst y.
  - destruct new_path' as [p|]; [done|]. destruct Hnp' as [-> Hnone].
    right. rewrite Hnone in Hext. simpl in Hext. injection Hext as Hext.
    destruct Hnp as [[Hq _]|Hq]; [|done]. injection Hq as _ ->. by rewrite <- Hext.
Qed.

(** The loop of [main.py], started in a state of the invariant with enough
    fuel, returns a shortest route when there is one and [None] when there
    is none: appending a stale [new_path] does not change the result. *)
Lemma main_bfs_loop_spec (fuel : nat) (queue : list (list string))
      (visited : gset string) (new_path : option (list string)) :
  bfs_inv stations origin destination queue visited new_path →
  work_left stations queue visited < fuel →
  match Main.bfs_loop fuel stations destination queue visited new_path with
  | Main.ReturnPath p =>
    route edge origin destination p
    ∧ ∀ w, route edge origin destination w → length p ≤ length w
  | Main.ReturnNone => ∀ w, ¬ route edge origin destination w
  | _ => False
  end.
Proof.
  revert queue visited new_path.
  induction fuel as [|fuel IH]; intros queue visited new_path Hinv Hfuel; [lia|].
  destruct queue as [|h rest]; simpl.
  - intros w Hroute.
    destruct (inv_frontier _ _ _ _ _ _ Hinv w Hroute) as (? & ? & q & ? & _ & Hq & _).
    by apply elem_of_nil in Hq.
  - destruct (inv_walks _ _ _ _ _ _ Hinv h) as [Hwalk Hhead]; [by left|].
    destruct (last h) as [c|] eqn:Hlast;
      [|apply last_None in Hlast; by apply main_walk_nonempty in Hwalk].
    case_bool_decide as Hdest.
    + subst c. split; [done|]. intros w Hroute.
      destruct (inv_frontier _ _ _ _ _ _ Hinv w Hroute)
        as (pre & suf & q & x & -> & Hq & Hx & _ & Hlen & _).
      pose proof (inv_levels _ _ _ _ _ _ Hinv) as Hlevels.
      assert (pending (h :: rest) visited
              = h :: pending rest (visited ∪ {[destination]})) as Hold.
      { simpl. rewrite Hlast.
        by rewrite bool_decide_eq_false_2 by apply (inv_destination _ _ _ _ _ _ Hinv). }
      rewrite Hold in Hlevels, Hq.
      destruct (two_level_head h _ q Hlevels Hq) as [Hle _].
      destruct suf; [done|]. rewrite length_app. simpl. lia.
    + case_bool_decide as Hvisited.
      * apply IH; [by eapply main_bfs_inv_skip|].
        unfold work_left in *. simpl in Hfuel. lia.
      * destruct (queued_end_known h c Hwalk Hhead Hlast) as [station Hstation].
        rewrite Hstation.
        destruct (extend_queue_spec h c (visited ∪ {[c]})
                    (Main.Station.neighbors station) rest new_path)
          as (adds & np' & Hext & Hlen & Hadds & Hpend & Hcov & Hnp'); try done.
        { intros n Hn. by exists station. }
        { pose proof (inv_new_path _ _ _ _ _ _ Hinv) as Hnp.
          destruct new_path as [p|].
          - destruct Hnp as (Hp & Hphead & x & Hx & Hcovered). split_and!; [done..|].
            exists x. split; [done|].
            destruct Hcovered as [?|(q & Hq & Hqx)].
            + left. apply elem_of_union. by left.
            + apply elem_of_cons in Hq as [->|Hq].
              * left. apply elem_of_union. right. apply elem_of_singleton. congruence.
              * right. by exists q.
          - destruct Hnp as [[Hq ->]|Hq]; [|done]. injection Hq as -> ->.
            simpl in Hlast. injection Hlast as <-.
            intros n Hn [?%elem_of_empty|Heq%elem_of_singleton]%elem_of_union; [done|].
            subst n. by apply (Hfirst station). }
        rewrite Hext. apply IH.
        -- by eapply main_bfs_inv_visit.
        -- pose proof (main_work_left_visit h rest adds visited c station
                         Hvisited Hstation Hlen). lia.
Qed.

End MainBfsFacts.

Section MainSearchFacts.
Import MainRoutes.

(** The neighbours of every row are stations: a sufficient check for
    [closed], row by row. *)
Lemma closed_by_rows (stations : gmap string Main.Station.t) :
  map_Forall (λ _ station,
                Forall (λ v, is_Some (stations !! v)) (Main.Station.neighbors station))
             stations →
  closed stations.
Proof.
  intros Hrows u v (station & Hu & Hv).
  specialize (Hrows u station Hu). rewrite Forall_forall in Hrows. by apply Hrows.
Qed.

Lemma main_find_shortest_path_spec (stations : gmap string Main.Station.t)
      (origin destination : string) :
  closed stations →
  stations !! origin ≫= (λ station, head (Main.Station.neighbors station)) ≠ Some origin →
  match Main.find_shortest_path stations origin destination with
  | Main.ReturnPath p =>
    route (connected stations) origin destination p
    ∧ ∀ w, route (connected stations) origin destination w → length p ≤ length w
  | Main.ReturnNone =>
    origin ∉ dom stations ∨ destination ∉ dom stations
    ∨ ∀ w, ¬ route (connected stations) origin destination w
  | _ => False
  end.
Proof.
  intros Hclosed Hfirst. unfold Main.find_shortest_path.
  case_bool_decide as Hknown; [destruct Hknown; [by left|right; by left]|].
  assert (origin ∈ dom stations) as Ho.
  { destruct (decide (origin ∈ dom stations)); [done|]. destruct Hknown. by left. }
  assert (destination ∈ dom stations) as Hd.
  { destruct (decide (destination ∈ dom stations)); [done|]. destruct Hknown. by right. }
  case_bool_decide as Heq.
  - subst destination. split; [by split|].
    intros w [Hw _ _]. destruct w; [done|simpl; lia].
  - pose proof (main_bfs_loop_spec stations origin destination Hclosed) as Hloop.
    specialize (Hloop ltac:(by apply elem_of_dom)).
    specialize (Hloop ltac:(intros station Hst; by rewrite Hst in Hfirst)).
    specialize (Hloop (Main.bfs_fuel stations) [[origin]] ∅ None
                      (main_bfs_inv_initial stations origin destination Heq)).
    destruct (Main.bfs_loop _ _ _ _ _ _); try (apply Hloop; fail).
    + apply Hloop. unfold work_left, Main.bfs_fuel.
      rewrite difference_empty_L. simpl. lia.
    + right. right. apply Hloop. unfold work_left, Main.bfs_fuel.
      rewrite difference_empty_L. simpl. lia.
    + apply Hloop. unfold work_left, Main.bfs_fuel.
      rewrite difference_empty_L. simpl. lia.
    + apply Hloop. unfold work_left, Main.bfs_fuel.
      rewrite difference_empty_L. simpl. lia.
    + apply Hloop. unfold work_left, Main.bfs_fuel.
      rewrite difference_empty_L. simpl. lia.
    + apply Hloop. unfold work_left, Main.bfs_fuel.
      rewrite difference_empty_L. simpl. lia.
Qed.

End MainSearchFacts.

(** X17: the search of [main.py] appends [new_path] for every neighbour,
    also for a visited one, for which it is the path of an earlier
    neighbour.  In a network whose neighbours are all stations, and where
    the first neighbour listed for the origin is not the origin itself,
    this changes nothing of the result: the call raises no error; a path
    it returns is a route from origin to destination that no route
    undercuts in length; and when it returns [None], a station is unknown
    or there is no route. *)
Theorem main_find_shortest_path_minimal (stations : gmap string Main.Station.t)
        (origin destination : string) :
  MainRoutes.closed stations →
  stations !! origin ≫= (λ station, head (Main.Station.neighbors station)) ≠ Some origin →
  match Main.find_shortest_path stations origin destination with
  | Main.ReturnPath p =>
    MainRoutes.route (MainRoutes.connected stations) origin destination p
    ∧ ∀ w, MainRoutes.route (MainRoutes.connected stations) origin destination w →
           length p ≤ length w
  | Main.ReturnNone =>
    origin ∉ dom stations ∨ destination ∉ dom stations
    ∨ ∀ w, ¬ MainRoutes.route (MainRoutes.connected stations) origin destination w
  | _ => False
  end.
Proof. apply main_find_shortest_path_spec. Qed.

Lemma main_find_shortest_path_minimal_witness :
  Main.find_shortest_path MainSamples.small "A" "D" = Main.ReturnPath ["A"; "B"; "D"]
  ∧ ∀ w, MainRoutes.route (MainRoutes.connected MainSamples.small) "A" "D" w →
         3 ≤ length w.
Proof.
  assert (Main.find_shortest_path MainSamples.small "A" "D"
          = Main.ReturnPath ["A"; "B"; "D"]) as Hrun by (vm_compute; reflexivity).
  split; [exact Hrun|].
  pose proof (main_find_shortest_path_minimal MainSamples.small "A" "D") as Hmin.
  rewrite Hrun in Hmin. apply Hmin.
  - apply closed_by_rows. apply (bool_decide_unpack _). vm_compute. exact I.
  - vm_compute. discriminate.
Defined.

(** X18: when origin and destination are different stations and the first
    neighbour listed for the origin is the origin itself, the search of
    [main.py] raises [UnboundLocalError]: the neighbour is visited, so
    [new_path] is appended before it was ever assigned. *)
Theorem main_find_shortest_path_unbound (stations : gmap string Main.Station.t)
        (origin destination : string) :
  origin ≠ destination →
  destination ∈ dom stations →
  stations !! origin ≫= (λ station, head (Main.Station.neighbors station)) = Some origin →
  Main.find_shortest_path stations origin destination = Main.RaiseUnboundLocalError.
Proof.
  intros Hne Hd Hfirst. unfold Main.find_shortest_path.
  destruct (stations !! origin) as [station|] eqn:Hstation; [|done].
  simpl in Hfirst.
  rewrite bool_decide_eq_false_2.
  2:{ intros [Ho|Ho]; [|done]. apply Ho. apply elem_of_dom. by eexists. }
  rewrite bool_decide_eq_false_2 by done.
  unfold Main.bfs_fuel. simpl.
  rewrite bool_decide_eq_false_2 by done.
  rewrite bool_decide_eq_false_2 by apply not_elem_of_empty.
  rewrite Hstation.
  destruct (Main.Station.neighbors station) as [|n ns]; [done|].
  simpl in Hfirst. injection Hfirst as ->. simpl.
  rewrite bool_decide_eq_false_2; [done|].
  intros Hn. apply Hn. apply elem_of_union. right. by apply elem_of_singleton.
Qed.

Lemma main_find_shortest_path_unbound_witness :
  Main.find_shortest_path MainSamples.looped "A" "B" = Main.RaiseUnboundLocalError.
Proof.
  apply (main_find_shortest_path_unbound MainSamples.looped "A" "B").
  - discriminate.
  - apply (bool_decide_unpack _). vm_compute. exact I.
  - vm_compute. reflexivity.
Defined.

(** ** Travel instructions, purchases and saved tickets of [main.py] *)

Section InstructionFacts.
Import MainRoutes.
Variable stations : gmap string Main.Station.t.

Lemma connection_line_neighbor (station : Main.Station.t) (v : string) :
  v ∈ Main.Station.neighbors station →
  is_Some (Main.Station.connection_line station v).
Proof.
  unfold Main.Station.neighbors, Main.Station.connection_line.
  induction (Main.Station.connections station) as [|[n l] items IH]; simpl.
  - intros Hv. by apply elem_of_nil in Hv.
  - intros [->|Hv]%elem_of_cons.
    + rewrite bool_decide_eq_true_2 by done. by eexists.
    + case_bool_decide; [by eexists|by apply IH].
Qed.

Lemma line_of_hop_connected (u v : string) :
  connected stations u v → is_Some (line_of_hop stations u v).
Proof.
  intros (station & Hu & Hv). unfold line_of_hop. rewrite Hu. simpl.
  by apply connection_line_neighbor.
Qed.

Lemma travel_loop_hop (first from to : string) (rest : list string)
      (current_line : option string) (boarding_station : string)
      (instructions : list string) :
  Main.travel_loop stations first (from :: to :: rest) current_line
                   boarding_station instructions
  = match stations !! from with
    | None => None
    | Some from_station =>
      let line := Main.Station.connection_line from_station to in
      if bool_decide (line ≠ current_line) then
        match current_line with
        | Some _ =>
          Main.travel_loop stations first (to :: rest) line from
            (instructions
               ++ ["Get off at " +:+ from;
                   "Change to " +:+ Main.show_line line +:+ " Line at " +:+ from])
        | None =>
          Main.travel_loop stations first (to :: rest) line boarding_station
            (instructions
               ++ ["Board " +:+ Main.show_line line +:+ " Line at " +:+ first])
        end
      else Main.travel_loop stations first (to :: rest) current_line
                            boarding_station instructions
    end.
Proof. reflexivity. Qed.

(** Once a line is boarded, the loop over a walk raises nothing, keeps the
    instructions it has, and ends on the line of the last hop. *)
Lemma travel_loop_walk (first : string) (path : list string) (l : string)
      (boarding_station : string) (instructions : list string) :
  is_walk (connected stations) path →
  ∃ more l' boarding_station',
    Main.travel_loop stations first path (Some l) boarding_station instructions
    = Some (instructions ++ more, Some l', boarding_station')
    ∧ (boarding_station' = boarding_station ∨ boarding_station' ∈ path)
    ∧ match reverse path with
      | v :: u :: _ => line_of_hop stations u v = Some l'
      | _ => l' = l
      end.
Proof.
  revert l boarding_station instructions.
  induction path as [|from rest IH]; intros l bs instr Hwalk; [done|].
  destruct rest as [|to rest'].
  { exists [], l, bs. rewrite app_nil_r. split_and!; [done|by left|done]. }
  destruct Hwalk as [Hedge Hwalk].
  destruct (line_of_hop_connected from to Hedge) as [line Hline].
  destruct Hedge as (station & Hfrom & Hto).
  unfold line_of_hop in Hline. rewrite Hfrom in Hline. simpl in Hline.
  rewrite travel_loop_hop, Hfrom. cbn zeta. rewrite Hline.
  assert (match reverse (from :: to :: rest') with
          | v :: u :: _ =>
            ∀ l', match reverse (to :: rest') with
                  | v' :: u' :: _ => line_of_hop stations u' v' = Some l'
                  | _ => l' = line
                  end → line_of_hop stations u v = Some l'
          | _ => False
          end) as Hlast.
  { rewrite (reverse_cons (to :: rest') from).
    destruct (reverse (to :: rest')) as [|v [|u tl]] eqn:Hrev.
    - apply (f_equal length) in Hrev. rewrite length_reverse in Hrev. done.
    - simpl. intros l' ->.
      assert (to :: rest' = [v]) as Heq.
      { rewrite <- (reverse_involutive (to :: rest')), Hrev. done. }
      injection Heq as -> ->. unfold line_of_hop. by rewrite Hfrom.
    - simpl. done. }
  case_bool_decide as Hchange.
  - destruct (IH line from
                (instr ++ ["Get off at " +:+ from;
                           "Change to " +:+ Main.show_line (Some line)
                                        +:+ " Line at " +:+ from]) Hwalk)
      as (more & l' & bs' & Hrun & Hbs & Hl').
    eexists (_ :: _ :: more), l', bs'. split_and!.
    + rewrite Hrun. by rewrite <- app_assoc.
    + right. destruct Hbs as [->|Hbs]; [by left|by right].
    + destruct (reverse (from :: to :: rest')) as [|v [|u tl]]; try done.
      by apply Hlast.
  - assert (line = l) as ->.
    { destruct (decide (line = l)) as [|Hne]; [done|].
      exfalso. first [congruence|apply Hchange; congruence]. }
    destruct (IH l bs instr Hwalk) as (more & l' & bs' & Hrun & Hbs & Hl').
    exists more, l', bs'. split_and!; [done| |].
    + destruct Hbs as [->|Hbs]; [by left|right; by right].
    + destruct (reverse (from :: to :: rest')) as [|v [|u tl]]; try done.
      by apply Hlast.
Qed.

Lemma generate_on_walk (origin destination next : string) (rest : list string) :
  is_walk (connected stations) (origin :: next :: rest) →
  last (origin :: next :: rest) = Some destination →
  ∃ l0 middle ln boarding_station,
    line_of_hop stations origin next = Some l0
    ∧ Main.generate_travel_instructions stations (origin :: next :: rest)
      = Some (("Board " +:+ l0 +:+ " Line at " +:+ origin)
                :: middle
                ++ ["Travel on " +:+ ln +:+ " Line from " +:+ boarding_station
                      +:+ " to " +:+ destination;
                    "Get off at " +:+ destination +:+ " (Destination)"])
    ∧ boarding_station ∈ origin :: next :: rest
    ∧ match reverse (origin :: next :: rest) with
      | v :: u :: _ => line_of_hop stations u v = Some ln
      | _ => False
      end.
Proof.
  intros Hwalk Hlast.
  unfold Main.generate_travel_instructions.
  rewrite bool_decide_eq_false_2 by done.
  rewrite bool_decide_eq_false_2 by (simpl; lia).
  rewrite Hlast. cbn [orb head].
  destruct Hwalk as [Hedge Hwalk].
  destruct (line_of_hop_connected origin next Hedge) as [l0 Hl0].
  pose proof Hl0 as Hline.
  destruct Hedge as (station & Hfrom & Hto).
  unfold line_of_hop in Hline. rewrite Hfrom in Hline. simpl in Hline.
  rewrite travel_loop_hop, Hfrom. cbn zeta. rewrite Hline.
  rewrite bool_decide_eq_true_2 by done.
  destruct (travel_loop_walk origin (next :: rest) l0 origin
              ([] ++ ["Board " +:+ Main.show_line (Some l0) +:+ " Line at " +:+ origin])
              Hwalk)
    as (more & ln & bs & Hrun & Hbs & Hln).
  rewrite Hrun. exists l0, more, ln, bs. split_and!; [done|done| |].
  - destruct Hbs as [->|Hbs]; [by left|by right].
  - rewrite (reverse_cons (next :: rest) origin).
    destruct (reverse (next :: rest)) as [|v [|u tl]] eqn:Hrev.
    + apply (f_equal length) in Hrev. rewrite length_reverse in Hrev. done.
    + simpl. subst ln.
      assert (next :: rest = [v]) as Heq.
      { rewrite <- (reverse_involutive (next :: rest)), Hrev. done. }
      by injection Heq as -> ->.
    + done.
Qed.

(** On one line there is nothing to change. *)
Lemma travel_loop_one_line (l first : string) (path : list string)
      (boarding_station : string) (instructions : list string) :
  is_walk (λ u v, line_of_hop stations u v = Some l) path →
  Main.travel_loop stations first path (Some l) boarding_station instructions
  = Some (instructions, Some l, boarding_station).
Proof.
  induction path as [|from rest IH]; intros Hwalk; [done|].
  destruct rest as [|to rest']; [done|].
  destruct Hwalk as [Hline Hwalk]. rewrite travel_loop_hop.
  unfold line_of_hop in Hline.
  destruct (stations !! from) as [station|]; [|done]. simpl in Hline.
  cbn zeta. rewrite Hline. rewrite bool_decide_eq_false_2 by (by intros []).
  by apply IH.
Qed.

End InstructionFacts.

(** X19: for a route of two stations or more in the network,
    [generate_travel_instructions] raises no [KeyError]; its first
    instruction boards the line of the first hop at the origin, and its
    last two travel on the line of the last hop, from a station of the
    path, to the destination and get off there. *)
Theorem instructions_of_route (stations : gmap string Main.Station.t)
        (origin destination next : string) (rest : list string) :
  MainRoutes.is_walk (MainRoutes.connected stations) (origin :: next :: rest) →
  last (origin :: next :: rest) = Some destination →
  ∃ l0 middle ln boarding_station,
    MainRoutes.line_of_hop stations origin next = Some l0
    ∧ Main.generate_travel_instructions stations (origin :: next :: rest)
      = Some (("Board " +:+ l0 +:+ " Line at " +:+ origin)
                :: middle
                ++ ["Travel on " +:+ ln +:+ " Line from " +:+ boarding_station
                      +:+ " to " +:+ destination;
                    "Get off at " +:+ destination +:+ " (Destination)"])
    ∧ boarding_station ∈ origin :: next :: rest
    ∧ match reverse (origin :: next :: rest) with
      | v :: u :: _ => MainRoutes.line_of_hop stations u v = Some ln
      | _ => False
      end.
Proof. apply generate_on_walk. Qed.

Lemma instructions_of_route_witness :
  ∃ l0 middle ln boarding_station,
    MainRoutes.line_of_hop MainSamples.small "A" "B" = Some l0
    ∧ Main.generate_travel_instructions MainSamples.small ["A"; "B"; "D"]
      = Some (("Board " +:+ l0 +:+ " Line at " +:+ "A")
                :: middle
                ++ ["Travel on " +:+ ln +:+ " Line from " +:+ boarding_station
                      +:+ " to " +:+ "D";
                    "Get off at " +:+ "D" +:+ " (Destination)"])
    ∧ boarding_station ∈ ["A"; "B"; "D"]
    ∧ match reverse ["A"; "B"; "D"] with
      | v :: u :: _ => MainRoutes.line_of_hop MainSamples.small u v = Some ln
      | _ => False
      end.
Proof.
  apply (instructions_of_route MainSamples.small "A" "D" "B" ["D"]).
  - simpl. split_and!; [| |exact I].
    + exists (Main.Station.mk "A" ["Red"] [("B", "Red")]).
      split; [vm_compute; reflexivity|]. vm_compute. left.
    + exists (Main.Station.mk "B" ["Red"; "Blue"]
                              [("A", "Red"); ("C", "Red"); ("D", "Blue")]).
      split; [vm_compute; reflexivity|]. vm_compute. right. right. left.
  - reflexivity.
Defined.

(** The instructions of that sample route, with the change at "B". *)
Example instructions_a_to_d :
  Main.generate_travel_instructions MainSamples.small ["A"; "B"; "D"]
  = Some ["Board Red Line at A"; "Get off at B"; "Change to Blue Line at B";
          "Travel on Blue Line from B to D"; "Get off at D (Destination)"].
Proof. vm_compute. reflexivity. Qed.

(** X20: when every hop of a path of two stations or more is on one line,
    the instructions are exactly three: board the line at the origin,
    travel on it from the origin to the destination, get off. *)
Theorem instructions_on_one_line (stations : gmap string Main.Station.t)
        (l origin destination next : string) (rest : list string) :
  MainRoutes.is_walk (λ u v, MainRoutes.line_of_hop stations u v = Some l)
                     (origin :: next :: rest) →
  last (origin :: next :: rest) = Some destination →
  Main.generate_travel_instructions stations (origin :: next :: rest)
  = Some ["Board " +:+ l +:+ " Line at " +:+ origin;
          "Travel on " +:+ l +:+ " Line from " +:+ origin +:+ " to " +:+ destination;
          "Get off at " +:+ destination +:+ " (Destination)"].
Proof.
  intros [Hline Hwalk] Hlast.
  unfold Main.generate_travel_instructions.
  rewrite bool_decide_eq_false_2 by done.
  rewrite bool_decide_eq_false_2 by (simpl; lia).
  rewrite Hlast. cbn [orb head].
  rewrite travel_loop_hop.
  unfold MainRoutes.line_of_hop in Hline.
  destruct (stations !! origin) as [station|]; [|done]. simpl in Hline.
  cbn zeta. rewrite Hline. rewrite bool_decide_eq_true_2 by done.
  by rewrite travel_loop_one_line.
Qed.

Lemma instructions_on_one_line_witness :
  Main.generate_travel_instructions MainSamples.small ["A"; "B"; "C"]
  = Some ["Board Red Line at A"; "Travel on Red Line from A to C";
          "Get off at C (Destination)"].
Proof.
  apply (instructions_on_one_line MainSamples.small "Red" "A" "C" "B" ["C"]).
  - simpl. split_and!; [vm_compute; reflexivity..|exact I].
  - reflexivity.
Defined.

Section MainPurchaseFacts.
Import MainRoutes.

Lemma main_fare_mono (p w : list string) :
  length p ≤ length w →
  (MetroSystem.calculate_fare p ≤ MetroSystem.calculate_fare w)%Z.
Proof.
  intros Hle. unfold MetroSystem.calculate_fare,
                MetroSystem.BASE_FARE, MetroSystem.PER_STATION_FARE.
  destruct p as [|x [|y p]], w as [|x' [|y' w]]; simpl in *; try lia.
Qed.

Lemma generate_is_Some (stations : gmap string Main.Station.t) (p : list string) :
  is_walk (connected stations) p →
  is_Some (Main.generate_travel_instructions stations p).
Proof.
  intros Hwalk. destruct p as [|x [|y p]]; [done|by eexists|].
  destruct (last (x :: y :: p)) as [d|] eqn:Hlast; [|by apply last_None in Hlast].
  destruct (generate_on_walk stations x d y p Hwalk Hlast)
    as (? & ? & ? & ? & _ & -> & _). by eexists.
Qed.

End MainPurchaseFacts.

(** X21: in a network whose neighbours are all stations, and where the
    first neighbour listed for the origin is not the origin itself,
    [purchase_ticket] of [main.py] raises no error.  Either it returns no
    ticket and leaves the system as it was, and then a station is unknown
    or there is no route; or it returns a ticket for a route from origin to
    destination that no route undercuts in length or fare, with the
    instructions of that route, appended to the tickets of the system and
    to the file, and last of the tickets of its user. *)
Theorem main_purchase_ticket_spec (self : Main.State)
        (user_name origin destination uuid : string) :
  MainRoutes.closed (Main.stations self) →
  Main.stations self !! origin ≫= (λ station, head (Main.Station.neighbors station))
  ≠ Some origin →
  match Main.purchase_ticket self user_name origin destination uuid with
  | (self', Main.ReturnTicket ticket) =>
    MainRoutes.route (MainRoutes.connected (Main.stations self)) origin destination
                     (Main.Ticket.path ticket)
    ∧ (∀ w, MainRoutes.route (MainRoutes.connected (Main.stations self))
                             origin destination w →
            length (Main.Ticket.path ticket) ≤ length w
            ∧ (Main.Ticket.price ticket ≤ MetroSystem.calculate_fare w)%Z)
    ∧ Main.generate_travel_instructions (Main.stations self) (Main.Ticket.path ticket)
      = Some (Main.Ticket.instructions ticket)
    ∧ Main.tickets self' = Main.tickets self ++ [ticket]
    ∧ Main.tickets_csv self' = Main.tickets_csv self ++ [Main.row_of_ticket ticket]
    ∧ ∃ user, Main.users self' !! user_name = Some user
              ∧ last (Main.User.tickets user) = Some uuid
  | (self', Main.ReturnNoTicket why) =>
    self' = self
    ∧ (origin ∉ dom (Main.stations self) ∨ destination ∉ dom (Main.stations self)
       ∨ ∀ w, ¬ MainRoutes.route (MainRoutes.connected (Main.stations self))
                                 origin destination w)
  | _ => False
  end.
Proof.
  intros Hclosed Hfirst. unfold Main.purchase_ticket.
  case_bool_decide as Ho; [split; [done|by left]|].
  case_bool_decide as Hd; [split; [done|right; by left]|].
  pose proof (main_find_shortest_path_spec (Main.stations self) origin destination
                Hclosed Hfirst) as Hspec.
  destruct (Main.find_shortest_path (Main.stations self) origin destination)
    as [p| | | | |]; try done.
  destruct Hspec as [Hroute Hmin].
  destruct p as [|x p]; [by destruct Hroute|].
  destruct (generate_is_Some (Main.stations self) (x :: p)) as [instructions Hgen];
    [by destruct Hroute|].
  assert (∀ w, MainRoutes.route (MainRoutes.connected (Main.stations self))
                               origin destination w →
               length (x :: p) ≤ length w
               ∧ (MetroSystem.calculate_fare (x :: p) ≤ MetroSystem.calculate_fare w)%Z)
    as Hleast.
  { intros w Hw. split; [by apply Hmin|]. apply main_fare_mono. by apply Hmin. }
  case_bool_decide as Huser;
    cbn [Main.stations Main.tickets Main.users Main.users_csv Main.tickets_csv
         Main.save_user Main.save_ticket];
    rewrite Hgen;
    cbn [Main.stations Main.tickets Main.users Main.users_csv Main.tickets_csv
         Main.save_user Main.save_ticket].
  - rewrite lookup_insert_eq.
    cbn [Main.stations Main.tickets Main.users Main.users_csv Main.tickets_csv
         Main.Ticket.path Main.Ticket.price Main.Ticket.instructions].
    split_and!; try done.
    eexists. split; [apply lookup_insert_eq|]. done.
  - assert (is_Some (Main.users self !! user_name)) as [user Hlookup].
    { apply elem_of_dom.
      destruct (decide (user_name ∈ dom (Main.users self))) as [|Hnew]; [done|].
      exfalso. first [by apply Huser|done]. }
    rewrite Hlookup.
    cbn [Main.stations Main.tickets Main.users Main.users_csv Main.tickets_csv
         Main.Ticket.path Main.Ticket.price Main.Ticket.instructions].
    split_and!; try done.
    eexists. split; [apply lookup_insert_eq|]. simpl. apply last_snoc.
Qed.

Lemma main_purchase_ticket_spec_witness :
  ∃ self' ticket,
    Main.purchase_ticket MainSamples.fresh "asha" "A" "D" "t-1"
    = (self', Main.ReturnTicket ticket)
    ∧ Main.Ticket.path ticket = ["A"; "B"; "D"]
    ∧ Main.Ticket.price ticket = 20%Z
    ∧ Main.tickets self' = [ticket]
    ∧ ∀ w, MainRoutes.route (MainRoutes.connected MainSamples.small) "A" "D" w →
           3 ≤ length w ∧ (20 ≤ MetroSystem.calculate_fare w)%Z.
Proof.
  pose proof (main_purchase_ticket_spec MainSamples.fresh "asha" "A" "D" "t-1")
    as Hspec.
  destruct (Main.purchase_ticket MainSamples.fresh "asha" "A" "D" "t-1")
    as [self' r] eqn:Hrun.
  vm_compute in Hrun. injection Hrun as <- <-.
  cbv beta iota in Hspec.
  destruct Hspec as (_ & Hleast & _ & Htickets & _).
  - apply closed_by_rows. apply (bool_decide_unpack _). vm_compute. exact I.
  - vm_compute. discriminate.
  - eexists _, _. split_and!; [reflexivity..|exact Hleast].
Defined.

Section SavedTicketFacts.
Import MainRoutes.
Variable sep : Ascii.ascii.

Local Abbreviation sep_string := (String sep EmptyString).

Lemma split_free (item : string) :
  occurrences sep item = 0 → Main.split sep item = [item].
Proof.
  induction item as [|c item IH]; [done|]. simpl.
  case_bool_decide; [done|]. intros Hfree. by rewrite IH.
Qed.

Lemma split_app_sep (item s : string) :
  occurrences sep item = 0 →
  Main.split sep (item +:+ String sep s) = item :: Main.split sep s.
Proof.
  induction item as [|c item IH]; simpl.
  - intros _. by rewrite bool_decide_eq_true_2.
  - case_bool_decide; [done|]. intros Hfree. by rewrite IH.
Qed.

Lemma length_split (s : string) :
  length (Main.split sep s) = S (occurrences sep s).
Proof.
  induction s as [|c s IH]; [done|]. simpl.
  case_bool_decide; simpl; [by rewrite IH|].
  destruct (Main.split sep s); [done|]. simpl in *. lia.
Qed.

Lemma occurrences_app (a b : string) :
  occurrences sep (a +:+ b) = occurrences sep a + occurrences sep b.
Proof. induction a as [|c a IH]; [done|]. simpl. rewrite IH. lia. Qed.

Lemma join_cons (item next : string) (items : list string) :
  Main.join sep_string (item :: next :: items)
  = item +:+ String sep (Main.join sep_string (next :: items)).
Proof. reflexivity. Qed.

Lemma occurrences_join (item : string) (items : list string) :
  occurrences sep (Main.join sep_string (item :: items))
  = sum_list (occurrences sep <$> (item :: items)) + length items.
Proof.
  revert item. induction items as [|next items IH]; intros item.
  - simpl. lia.
  - rewrite join_cons, occurrences_app. cbn [occurrences].
    rewrite bool_decide_eq_true_2 by done. rewrite IH. simpl. lia.
Qed.

Lemma join_not_empty (items : list string) :
  items ≠ [] → items ≠ [""] → Main.join sep_string items ≠ "".
Proof.
  destruct items as [|item [|next items]]; [done| |].
  - simpl. intros _ Hne ->. done.
  - intros _ _. rewrite join_cons. by destruct item.
Qed.

Lemma split_join (item : string) (items : list string) :
  Forall (λ item, occurrences sep item = 0) (item :: items) →
  Main.split sep (Main.join sep_string (item :: items)) = item :: items.
Proof.
  revert item. induction items as [|next items IH]; intros item Hfree.
  - apply split_free. by apply Forall_cons in Hfree as [? _].
  - apply Forall_cons in Hfree as [Hitem Hfree].
    rewrite join_cons, split_app_sep by done. by rewrite IH.
Qed.

Lemma sum_list_zero (ns : list nat) : sum_list ns = 0 → Forall (λ n, n = 0) ns.
Proof.
  induction ns as [|n ns IH]; [done|]. simpl. intros Hsum.
  apply Forall_cons. split; [lia|apply IH; lia].
Qed.

(** The text that [join] makes of a list is split back into the list
    exactly when the list is separable. *)
Lemma read_join (items : list string) :
  Main.read_list sep (Some (Main.join sep_string items)) = items
  ↔ separable sep items.
Proof.
  unfold Main.read_list. split.
  - destruct items as [|item items]; [by split|].
    case_bool_decide as Hempty; [done|]. intros Hread.
    assert (sum_list (occurrences sep <$> (item :: items)) = 0) as Hsum.
    { apply (f_equal length) in Hread.
      rewrite length_split, occurrences_join in Hread. simpl in *. lia. }
    split.
    + apply sum_list_zero in Hsum. by apply Forall_fmap in Hsum.
    + intros [= -> ->]. by apply Hempty.
  - intros [Hfree Hne]. destruct items as [|item items]; [done|].
    rewrite bool_decide_eq_false_2 by (by apply join_not_empty).
    by apply split_join.
Qed.

(** Splitting a text and joining the pieces gives the text back. *)
Lemma join_split (text : string) :
  Main.join sep_string (Main.split sep text) = text.
Proof.
  induction text as [|c text IH]; [done|]. simpl.
  pose proof (length_split text) as Hlen.
  destruct (Main.split sep text) as [|piece pieces]; [done|].
  case_bool_decide as Hc.
  - rewrite join_cons, IH. simpl. by rewrite Hc.
  - destruct pieces as [|next pieces].
    + simpl in *. by rewrite IH.
    + rewrite join_cons. rewrite join_cons in IH. by rewrite <- IH.
Qed.

Lemma split_pieces_free (text : string) :
  Forall (λ item, occurrences sep item = 0) (Main.split sep text).
Proof.
  induction text as [|c text IH]; simpl.
  - by apply Forall_singleton.
  - case_bool_decide as Hc.
    + by apply Forall_cons.
    + destruct (Main.split sep text) as [|piece pieces].
      * apply Forall_singleton. simpl. by rewrite bool_decide_eq_false_2.
      * apply Forall_cons in IH as [Hpiece Hpieces]. apply Forall_cons.
        split; [|done]. simpl. by rewrite bool_decide_eq_false_2.
Qed.

Lemma split_not_empty_string (text : string) :
  text ≠ "" → Main.split sep text ≠ [""].
Proof.
  destruct text as [|c text]; [done|]. intros _. simpl.
  pose proof (length_split text) as Hlen.
  case_bool_decide.
  - intros [= Hnil]. by rewrite Hnil in Hlen.
  - by destruct (Main.split sep text).
Qed.

(** What [read_list] makes of a field, for every value of the field. *)
Lemma read_list_spec (field : option string) (items : list string) :
  Main.read_list sep field = items
  ↔ default "" field = Main.join sep_string items ∧ separable sep items.
Proof.
  split.
  - intros <-. destruct field as [text|]; simpl; [|by split].
    case_bool_decide as Hempty; [by subst|].
    split; [by rewrite join_split|].
    split; [apply split_pieces_free|by apply split_not_empty_string].
  - intros [Hfield Hsep]. destruct field as [text|]; simpl in Hfield.
    + subst text. by apply read_join.
    + destruct Hsep as [_ Hne]. destruct items as [|item items]; [done|].
      exfalso. by apply (join_not_empty (item :: items)).
Qed.

End SavedTicketFacts.

(** X22: for every value of a path field that [load_tickets] gets from the
    csv reader (a text, or [None] for a row too short to have the field),
    [row['path'].split(';') if row.get('path') else []] is a given path
    exactly when the text is [';'.join(path)], which is what [save_ticket]
    hands to the csv writer for that path ([None] counting as the empty
    text), no station of the path has a ";" and the path is not the one
    empty string; and likewise for the instructions and "|".  So splitting
    undoes joining for such lists and for no others, and joining undoes
    splitting for every text.  What the file does to the text between the
    writer and the reader is no part of the statement. *)
Theorem list_field_read_back (field : option string) (items : list string) :
  (Main.read_list ";" field = items
   ↔ default "" field = Main.join ";" items ∧ MainRoutes.separable ";" items)
  ∧ (Main.read_list "|" field = items
     ↔ default "" field = Main.join "|" items ∧ MainRoutes.separable "|" items).
Proof. split; apply read_list_spec. Qed.

(** A station name with a ";" is read back as two stations, and the path
    of one station with the empty name as no station. *)
Example semicolon_in_station_name :
  Main.read_list ";" (Some (Main.join ";" ["A;B"; "C"])) = ["A"; "B"; "C"]
  ∧ Main.read_list ";" (Some (Main.join ";" [""])) = [].
Proof. split; reflexivity. Qed.

(** ** Journeys there and back *)

Section TwoWayFacts.
Import Routes MetroViews TwoWay.

Lemma rows_by_position (objects : list Station.t) (a b : Station.t) :
  unique_position objects → a ∈ objects → b ∈ objects →
  Station.line a = Station.line b → Station.position a = Station.position b →
  a = b.
Proof.
  unfold unique_position.
  induction objects as [|row objects IH]; intros Hnd Ha Hb Hline Hpos;
    [by apply elem_of_nil in Ha|].
  simpl in Hnd. apply NoDup_cons in Hnd as [Hrow Hnd].
  apply elem_of_cons in Ha as [->|Ha]; apply elem_of_cons in Hb as [->|Hb];
    [done| | |by apply IH].
  - destruct Hrow. rewrite Hline, Hpos.
    by apply (list_elem_of_fmap_2 (λ s, (Station.line s, Station.position s))).
  - destruct Hrow. rewrite <- Hline, <- Hpos.
    by apply (list_elem_of_fmap_2 (λ s, (Station.line s, Station.position s))).
Qed.

(** The active row at a position of a line is the one the query finds. *)
Lemma first_active_at_row (objects : list Station.t) (s : Station.t) :
  unique_position objects → s ∈ objects → Station.is_active s = true →
  Station.first_active_at objects (Station.line s) (Station.position s) = Some s.
Proof.
  intros Huniq Hs Hact.
  destruct (Station.first_active_at objects (Station.line s) (Station.position s))
    as [s'|] eqn:Hfind.
  - apply first_active_at_Some in Hfind as (Hs' & Hline & Hpos & _).
    f_equal. by apply (rows_by_position objects).
  - unfold Station.first_active_at in Hfind.
    apply list_elem_of_In in Hs.
    pose proof (find_none _ _ Hfind s Hs) as Hfalse. cbn beta in Hfalse.
    rewrite Hact, !Z.eqb_refl in Hfalse. done.
Qed.

Lemma next_then_previous (objects : list Station.t) (self n : Station.t) :
  unique_position objects → self ∈ objects → Station.is_active self = true →
  Station.get_next_station objects self = Some n →
  Station.get_previous_station objects n = Some self.
Proof.
  intros Huniq Hself Hact Hnext.
  apply first_active_at_Some in Hnext as (_ & Hline & Hpos & _).
  unfold Station.get_previous_station. rewrite Hline, Hpos.
  replace (Station.position self + 1 - 1)%Z with (Station.position self) by lia.
  by apply first_active_at_row.
Qed.

Lemma previous_then_next (objects : list Station.t) (self p : Station.t) :
  unique_position objects → self ∈ objects → Station.is_active self = true →
  Station.get_previous_station objects self = Some p →
  Station.get_next_station objects p = Some self.
Proof.
  intros Huniq Hself Hact Hprev.
  apply first_active_at_Some in Hprev as (_ & Hline & Hpos & _).
  unfold Station.get_next_station. rewrite Hline, Hpos.
  replace (Station.position self - 1 + 1)%Z with (Station.position self) by lia.
  by apply first_active_at_row.
Qed.

Variable net : Network.
Hypothesis Huniq : unique_position (stations net).
Hypothesis Htwo_way : two_way net.

Lemma adjacent_back (u v : Z) : adjacent net u v → adjacent net v u.
Proof.
  intros [s n Hs Hact <- Hn <-|s p Hs Hact <- Hp <-|s c Hs Hact <- Hc Hfrom Hkind <-].
  - pose proof (next_then_previous _ _ _ Huniq Hs Hact Hn) as Hback.
    apply first_active_at_Some in Hn as (Hin & _ & _ & Hactn).
    by eapply (adjacent_previous net _ _ n s).
  - pose proof (previous_then_next _ _ _ Huniq Hs Hact Hp) as Hback.
    apply first_active_at_Some in Hp as (Hin & _ & _ & Hactp).
    by eapply (adjacent_next net _ _ p s).
  - destruct (Htwo_way c Hc Hkind) as [(t & Ht & Hpk & Hactt) (c' & Hc' & Hfrom' & Hto' & Hkind')].
    { exists s. by rewrite Hfrom. }
    eapply (adjacent_interchange net _ _ t c'); try done; congruence.
Qed.

Lemma is_walk_reverse (w : list Z) :
  is_walk (adjacent net) w → is_walk (adjacent net) (reverse w).
Proof.
  induction w as [|x [|y w] IH]; [done|done|].
  intros [Hxy Hw]. rewrite reverse_cons.
  eapply is_walk_snoc; [by apply IH| |by apply adjacent_back].
  rewrite reverse_cons. apply last_snoc.
Qed.

Lemma route_reverse (origin destination : Z) (w : list Z) :
  route (adjacent net) origin destination w →
  route (adjacent net) destination origin (reverse w).
Proof.
  intros [Hw Hhead Hlast]. split; [by apply is_walk_reverse| |].
  - by rewrite head_reverse.
  - by rewrite last_reverse.
Qed.

Hypothesis Hpk : NoDup (Station.pk <$> stations net).

Lemma graph_route_back (origin destination : Z) (w : list Z) :
  route (in_graph (build_adjacency net)) origin destination w →
  route (in_graph (build_adjacency net)) destination origin (reverse w).
Proof.
  intros Hw. eapply route_mono; [intros u v; by apply adjacent_in_graph|].
  apply route_reverse. eapply route_mono; [|done]. apply in_graph_adjacent.
Qed.

Lemma journey_back (origin destination : Z) :
  match find_shortest_path net origin destination,
        find_shortest_path net destination origin with
  | ReturnPath p, ReturnPath q => length p = length q
  | ReturnNone, ReturnNone => True
  | _, _ => False
  end.
Proof.
  pose proof (find_shortest_path_spec net origin destination) as Hthere.
  pose proof (find_shortest_path_spec net destination origin) as Hback.
  destruct (find_shortest_path net origin destination) as [p| | |],
           (find_shortest_path net destination origin) as [q| | |]; try done.
  - destruct Hthere as [Hp Hpmin], Hback as [Hq Hqmin].
    apply graph_route_back in Hp as Hp', Hq as Hq'.
    specialize (Hpmin _ Hq'). specialize (Hqmin _ Hp').
    rewrite length_reverse in Hpmin, Hqmin. lia.
  - destruct Hthere as [Hp _], Hback as [_ Hnone].
    apply (Hnone (reverse p)). by apply graph_route_back.
  - destruct Hthere as [_ Hnone], Hback as [Hq _].
    apply (Hnone (reverse q)). by apply graph_route_back.
Qed.

End TwoWayFacts.

(** X23: with one row for a position of a line ([unique_together]),
    [get_next_station] and [get_previous_station] undo each other at an
    active station: the station after it has it as the station before,
    and the station before it has it as the station after. *)
Theorem next_and_previous_station (objects : list Station.t) (self : Station.t) :
  TwoWay.unique_position objects → self ∈ objects → Station.is_active self = true →
  (∀ n, Station.get_next_station objects self = Some n →
        Station.get_previous_station objects n = Some self)
  ∧ (∀ p, Station.get_previous_station objects self = Some p →
          Station.get_next_station objects p = Some self).
Proof.
  intros Huniq Hself Hact. split.
  - intros n. by apply next_then_previous.
  - intros p. by apply previous_then_next.
Qed.

Lemma next_and_previous_station_witness :
  (∀ n, Station.get_next_station (stations Examples.line_abc) Examples.station_b = Some n →
        Station.get_previous_station (stations Examples.line_abc) n
        = Some Examples.station_b)
  ∧ (∀ p, Station.get_previous_station (stations Examples.line_abc) Examples.station_b
          = Some p →
          Station.get_next_station (stations Examples.line_abc) p
          = Some Examples.station_b).
Proof.
  apply (next_and_previous_station (stations Examples.line_abc) Examples.station_b).
  - unfold TwoWay.unique_position. apply (bool_decide_unpack _). vm_compute. exact I.
  - simpl. right. left.
  - reflexivity.
Defined.

(** X24: when station keys are unique, a position of a line has one row,
    and every interchange connection from an active station leads to an
    active station and has a row for the way back, the journey back is
    found exactly when the journey there is, with as many stations and the
    same fare. *)
Theorem journey_there_and_back (net : Network) (origin destination : Z)
        (base per : Z) :
  NoDup (Station.pk <$> stations net) →
  TwoWay.unique_position (stations net) →
  TwoWay.two_way net →
  match MetroViews.find_shortest_path net origin destination,
        MetroViews.find_shortest_path net destination origin with
  | MetroViews.ReturnPath p, MetroViews.ReturnPath q =>
    length p = length q
    ∧ MetroViews.calculate_fare base per p = MetroViews.calculate_fare base per q
  | MetroViews.ReturnNone, MetroViews.ReturnNone => True
  | _, _ => False
  end.
Proof.
  intros Hpk Huniq Htwo_way.
  pose proof (journey_back net Huniq Htwo_way Hpk origin destination) as Hback.
  destruct (MetroViews.find_shortest_path net origin destination) as [p| | |],
           (MetroViews.find_shortest_path net destination origin) as [q| | |];
    try done.
  split; [done|]. unfold MetroViews.calculate_fare. rewrite <- Hback.
  destruct p as [|x p], q as [|y q]; done.
Qed.

Lemma journey_there_and_back_witness :
  match MetroViews.find_shortest_path TwoWaySamples.crossing 1 5,
        MetroViews.find_shortest_path TwoWaySamples.crossing 5 1 with
  | MetroViews.ReturnPath p, MetroViews.ReturnPath q =>
    length p = length q
    ∧ MetroViews.calculate_fare 1000 500 p = MetroViews.calculate_fare 1000 500 q
  | MetroViews.ReturnNone, MetroViews.ReturnNone => True
  | _, _ => False
  end.
Proof.
  apply (journey_there_and_back TwoWaySamples.crossing 1 5 1000 500).
  - apply (bool_decide_unpack _). vm_compute. exact I.
  - unfold TwoWay.unique_position. apply (bool_decide_unpack _). vm_compute. exact I.
  - intros c Hc Hkind Hfrom.
    apply elem_of_cons in Hc as [->|Hc]; [|apply elem_of_cons in Hc as [->|Hc]];
      [| |by apply elem_of_nil in Hc].
    + split.
      * exists (Station.mk 4 "B0" "B0" 2 0 true true).
        split_and!; [|reflexivity..]. simpl. do 3 right. left.
      * exists (StationConnection.mk 4 2 StationConnection.interchange).
        split_and!; [|reflexivity..]. simpl. right. left.
    + split.
      * exists (Station.mk 2 "R1" "R1" 1 1 true true).
        split_and!; [|reflexivity..]. simpl. right. left.
      * exists (StationConnection.mk 2 4 StationConnection.interchange).
        split_and!; [|reflexivity..]. simpl. left.
Defined.

(** The journeys of that sample, there and back. *)
Example crossing_there_and_back :
  MetroViews.find_shortest_path TwoWaySamples.crossing 1 5
  = MetroViews.ReturnPath [1; 2; 4; 5]%Z
  ∧ MetroViews.find_shortest_path TwoWaySamples.crossing 5 1
    = MetroViews.ReturnPath [5; 4; 2; 1]%Z.
Proof. split; vm_compute; reflexivity. Qed.

(** With interchange connections that lead one way only, as in
    [Examples.diamond], there is a journey out and none back. *)
Example one_way_journey :
  MetroViews.find_shortest_path Examples.diamond 1 4 = MetroViews.ReturnPath [1; 2; 4]%Z
  ∧ MetroViews.find_shortest_path Examples.diamond 4 1 = MetroViews.ReturnNone.
Proof. split; vm_compute; reflexivity. Qed.
